(** * Cryptokey: the SLE password-based encryption engine

    A shallow embedding of [src/encryption.py] (class [SLE]) together with the
    primitives of the [cryptography] package that it calls: PKCS7 padding,
    AES in CBC mode, and PBKDF2-HMAC-SHA256.  The primitives are modelled from
    their public definitions (FIPS 197, FIPS 180-4, RFC 2104, RFC 8018, and
    the update/finalize contexts of the package) and are checked below against
    published test vectors. *)

From Stdlib Require Import List NArith ZArith Lia Bool.
From Stdlib Require Import Strings.Byte.
From Stdlib Require Strings.String.
Import String.StringSyntax.
Import ListNotations.

Local Open Scope string_scope.
Local Open Scope list_scope.
Local Open Scope nat_scope.

(** ** Byte strings *)

(** A Python [bytes] object. *)
Abbreviation bytes := (list byte).

Definition byte_of_N (n : N) : byte :=
  match Byte.of_N (n mod 256) with
  | Some b => b
  | None => x00
  end.

Definition byte_of_nat (n : nat) : byte := byte_of_N (N.of_nat n).

(** [s.encode()] for an ASCII literal such as [b"__SLE__"]. *)
Definition bytes_of_string (s : String.string) : bytes :=
  String.list_byte_of_string s.

Definition bxor (a b : byte) : byte :=
  byte_of_N (N.lxor (Byte.to_N a) (Byte.to_N b)).

(** Byte-wise xor of two strings, truncated to the shorter one. *)
Fixpoint xor_bytes (a b : bytes) : bytes :=
  match a, b with
  | x :: a', y :: b' => bxor x y :: xor_bytes a' b'
  | _, _ => []
  end.

Fixpoint bytes_eqb (a b : bytes) : bool :=
  match a, b with
  | [], [] => true
  | x :: a', y :: b' => Byte.eqb x y && bytes_eqb a' b'
  | _, _ => false
  end.

(** [data.startswith(prefix)] *)
Fixpoint startswith (data prefix : bytes) {struct prefix} : bool :=
  match prefix, data with
  | [], _ => true
  | p :: prefix', d :: data' => Byte.eqb d p && startswith data' prefix'
  | _ :: _, [] => false
  end.

(** Big-endian conversions between byte strings and numbers. *)
Fixpoint be_to_N (bs : bytes) (acc : N) : N :=
  match bs with
  | [] => acc
  | b :: bs' => be_to_N bs' (acc * 256 + Byte.to_N b)%N
  end.

Definition N_to_be (len : nat) (x : N) : bytes :=
  map (fun i => byte_of_N (N.shiftr x (8 * N.of_nat (len - 1 - i))))
      (seq 0 len).

Definition hex_digit (b : byte) : N :=
  let n := Byte.to_N b in
  (if n <? 58 then n - 48 else if n <? 71 then n - 55 else n - 87)%N.

(** Reads a string of hexadecimal digits as bytes. *)
Fixpoint unhex (digits : bytes) : bytes :=
  match digits with
  | hi :: lo :: rest =>
      byte_of_N (16 * hex_digit hi + hex_digit lo) :: unhex rest
  | _ => []
  end.

Definition hex (s : String.string) : bytes := unhex (bytes_of_string s).

(** The 256 byte values, in increasing order. *)
Definition all_bytes : bytes := map byte_of_nat (seq 0 256).

(** ** Exceptions and results *)

Inductive exception : Type :=
| ValueError (msg : String.string)
| TypeError (msg : String.string)
| NotImplementedError (msg : String.string).

Inductive result (A : Type) : Type :=
| Ok (a : A)
| Raise (e : exception).
Arguments Ok {A} a.
Arguments Raise {A} e.

Definition bind {A B : Type} (r : result A) (k : A -> result B) : result B :=
  match r with
  | Ok a => k a
  | Raise e => Raise e
  end.

Declare Scope result_scope.
Delimit Scope result_scope with result.
Notation "x <- r ;; k" := (bind r (fun x => k))
  (at level 61, r at next level, right associativity) : result_scope.
Notation "' p <- r ;; k" := (bind r (fun x => let p := x in k))
  (at level 61, p pattern, r at next level, right associativity) : result_scope.
Local Open Scope result_scope.

(** ** The operating system's random source, [os.urandom] *)

(** Either no source is available, or the source is an unbounded tape of
    bytes read from a cursor. *)
Inductive RandomSource : Type :=
| Unavailable
| Tape (entropy : nat -> byte) (cursor : nat).

Definition urandom (n : nat) (src : RandomSource)
  : result (bytes * RandomSource) :=
  match src with
  | Unavailable => Raise (NotImplementedError "randomness source not found")
  | Tape entropy cursor =>
      Ok (map entropy (seq cursor n), Tape entropy (cursor + n))
  end.

(** ** PKCS7 padding: [padding.PKCS7(128)] *)

Module PKCS7.

(** A padding or unpadding context: the block size in bits and the bytes
    buffered so far. *)
Record context : Type := Context { block_size : nat; buffer : bytes }.

(** [padding.PKCS7(block_size)], the block size given in bits. *)
Record scheme : Type := Scheme { bits : nat }.

Definition PKCS7 (block_size : nat) : result scheme :=
  if negb (block_size <=? 2040) then
    Raise (ValueError "block_size must be in range(0, 2041).")
  else if negb (block_size mod 8 =? 0) then
    Raise (ValueError "block_size must be a multiple of 8.")
  else
    Ok (Scheme block_size).

Definition padder (s : scheme) : context := Context (bits s) [].
Definition unpadder (s : scheme) : context := Context (bits s) [].

Definition block_bytes (c : context) : nat := block_size c / 8.

(** [padder.update(data)]: emits the complete blocks and keeps the rest. *)
Definition padder_update (c : context) (data : bytes) : context * bytes :=
  let buf := buffer c ++ data in
  let finished_blocks := length buf / block_bytes c in
  (Context (block_size c) (skipn (finished_blocks * block_bytes c) buf),
   firstn (finished_blocks * block_bytes c) buf).

(** [bytes([size]) * size] *)
Definition padding (size : nat) : bytes := repeat (byte_of_nat size) size.

(** [padder.finalize()] *)
Definition padder_finalize (c : context) : bytes :=
  let pad_size := block_bytes c - length (buffer c) in
  buffer c ++ padding pad_size.

(** [unpadder.update(data)]: holds back the last complete block. *)
Definition unpadder_update (c : context) (data : bytes) : context * bytes :=
  let buf := buffer c ++ data in
  let finished_blocks := Nat.max (length buf / block_bytes c - 1) 0 in
  (Context (block_size c) (skipn (finished_blocks * block_bytes c) buf),
   firstn (finished_blocks * block_bytes c) buf).

(** The padding check: the last byte [n] satisfies [1 <= n <= block_len]
    and each of the last [n] bytes equals [n]. *)
Definition check_pkcs7_padding (data : bytes) (block_len : nat) : bool :=
  let pad_size := N.to_nat (Byte.to_N (last data x00)) in
  forallb (fun b => Byte.eqb b (last data x00))
          (firstn pad_size (rev data))
  && (0 <? pad_size) && (pad_size <=? block_len).

(** [unpadder.finalize()] *)
Definition unpadder_finalize (c : context) : result bytes :=
  if negb (length (buffer c) =? block_bytes c) then
    Raise (ValueError "Invalid padding bytes.")
  else if negb (check_pkcs7_padding (buffer c) (block_bytes c)) then
    Raise (ValueError "Invalid padding bytes.")
  else
    let pad_size := N.to_nat (Byte.to_N (last (buffer c) x00)) in
    Ok (firstn (length (buffer c) - pad_size) (buffer c)).

End PKCS7.

(** ** SHA-256 (FIPS 180-4): [hashes.SHA256()] *)

Module Sha2.

Local Open Scope N_scope.

(** 32-bit words are numbers below [2^32]; addition wraps around. *)
Definition wrap32 (x : N) : N := x mod 2 ^ 32.
Definition add32 (x y : N) : N := wrap32 (x + y).
Definition not32 (x : N) : N := N.lxor x (2 ^ 32 - 1).
Definition rotr (n x : N) : N :=
  N.lor (N.shiftr x n) (wrap32 (N.shiftl x (32 - n))).
Definition shr (n x : N) : N := N.shiftr x n.

Definition Ch (x y z : N) : N := N.lxor (N.land x y) (N.land (not32 x) z).
Definition Maj (x y z : N) : N :=
  N.lxor (N.lxor (N.land x y) (N.land x z)) (N.land y z).
Definition bsig0 (x : N) : N :=
  N.lxor (N.lxor (rotr 2 x) (rotr 13 x)) (rotr 22 x).
Definition bsig1 (x : N) : N :=
  N.lxor (N.lxor (rotr 6 x) (rotr 11 x)) (rotr 25 x).
Definition ssig0 (x : N) : N :=
  N.lxor (N.lxor (rotr 7 x) (rotr 18 x)) (shr 3 x).
Definition ssig1 (x : N) : N :=
  N.lxor (N.lxor (rotr 17 x) (rotr 19 x)) (shr 10 x).

(** The first sixty-four primes. *)
Fixpoint sieve (fuel : nat) (candidate : N) (found : list N) : list N :=
  match fuel with
  | O => found
  | S fuel' =>
      if forallb (fun p => negb (candidate mod p =? 0)) found
      then sieve fuel' (candidate + 1) (found ++ [candidate])
      else sieve fuel' (candidate + 1) found
  end.
Definition primes : list N := Eval vm_compute in sieve 310 2 [].

(** Integer cube root, one bit at a time from the top. *)
Fixpoint cbrt_bits (bits : nat) (n r : N) : N :=
  match bits with
  | O => r
  | S b =>
      let r' := r + 2 ^ N.of_nat b in
      cbrt_bits b n (if r' * r' * r' <=? n then r' else r)
  end.
Definition cbrt (n : N) : N := cbrt_bits 40 n 0.

(** Round constants: the first 32 bits of the fractional parts of the cube
    roots of the first sixty-four primes. *)
Definition K : list N :=
  Eval vm_compute in map (fun p => wrap32 (cbrt (p * 2 ^ 96))) primes.

(** Initial hash value: the first 32 bits of the fractional parts of the
    square roots of the first eight primes. *)
Definition H0 : N * N * N * N * N * N * N * N :=
  Eval vm_compute in
    let h i := wrap32 (N.sqrt (nth i primes 0 * 2 ^ 64)) in
    (h 0%nat, h 1%nat, h 2%nat, h 3%nat, h 4%nat, h 5%nat, h 6%nat, h 7%nat).

(** Padding: a one bit, zero bits up to 448 modulo 512, then the message
    length in bits as a 64-bit number. *)
Definition pad (msg : bytes) : bytes :=
  let zeros := ((64 - (length msg + 9) mod 64) mod 64)%nat in
  msg ++ [x80] ++ repeat x00 zeros
      ++ N_to_be 8 (8 * N.of_nat (length msg)).

(** The sixteen words of a 64-byte block. *)
Definition block_words (block : bytes) : list N :=
  map (fun i => be_to_N (firstn 4 (skipn (4 * i) block)) 0) (seq 0 16).

(** Message schedule: extends [w] by [n] words. *)
Fixpoint schedule (n : nat) (w : list N) : list N :=
  match n with
  | O => w
  | S n' =>
      let t := length w in
      let wt := add32 (add32 (add32 (ssig1 (nth (t - 2) w 0))
                                    (nth (t - 7) w 0))
                             (ssig0 (nth (t - 15) w 0)))
                      (nth (t - 16) w 0) in
      schedule n' (w ++ [wt])
  end.

Definition state : Type := N * N * N * N * N * N * N * N.

Definition round (s : state) (kw : N * N) : state :=
  let '(a, b, c, d, e, f, g, h) := s in
  let '(k, w) := kw in
  let t1 := add32 (add32 (add32 (add32 h (bsig1 e)) (Ch e f g)) k) w in
  let t2 := add32 (bsig0 a) (Maj a b c) in
  (add32 t1 t2, a, b, c, add32 d t1, e, f, g).

Definition compress (s : state) (block : bytes) : state :=
  let w := schedule 48 (block_words block) in
  let '(a, b, c, d, e, f, g, h) := fold_left round (combine K w) s in
  let '(a0, b0, c0, d0, e0, f0, g0, h0) := s in
  (add32 a0 a, add32 b0 b, add32 c0 c, add32 d0 d,
   add32 e0 e, add32 f0 f, add32 g0 g, add32 h0 h).

Fixpoint process (nblocks : nat) (s : state) (data : bytes) : state :=
  match nblocks with
  | O => s
  | S n => process n (compress s (firstn 64 data)) (skipn 64 data)
  end.

Definition output (s : state) : bytes :=
  let '(a, b, c, d, e, f, g, h) := s in
  N_to_be 4 a ++ N_to_be 4 b ++ N_to_be 4 c ++ N_to_be 4 d
    ++ N_to_be 4 e ++ N_to_be 4 f ++ N_to_be 4 g ++ N_to_be 4 h.

Definition sha256 (msg : bytes) : bytes :=
  let data := pad msg in
  output (process (length data / 64) H0 data).

End Sha2.


(** ** Hash algorithms, HMAC (RFC 2104) and PBKDF2 (RFC 8018) *)

Module hashes.

Record HashAlgorithm : Type := {
  digest_size : nat;          (* bytes of output *)
  block_size : nat;           (* bytes per compression block *)
  digest : bytes -> bytes
}.

Definition SHA256 : HashAlgorithm :=
  {| digest_size := 32; block_size := 64; digest := Sha2.sha256 |}.

End hashes.

Module HMAC.
Import hashes.

(** The key brought to the block size: hashed when longer, then padded
    with zero bytes. *)
Definition block_key (alg : HashAlgorithm) (key : bytes) : bytes :=
  let k := if block_size alg <? length key then digest alg key else key in
  k ++ repeat x00 (block_size alg - length k).

Definition hmac (alg : HashAlgorithm) (key msg : bytes) : bytes :=
  let k := block_key alg key in
  digest alg (map (bxor x5c) k ++ digest alg (map (bxor x36) k ++ msg)).

End HMAC.

Module PBKDF2.
Import hashes.

(** [F (P, S, c, i) = U_1 xor U_2 xor ... xor U_c] *)
Definition F (alg : HashAlgorithm) (password salt : bytes) (c : N) (i : N)
  : bytes :=
  let u1 := HMAC.hmac alg password (salt ++ N_to_be 4 i) in
  snd (N.iter (c - 1)
         (fun ut : bytes * bytes =>
            let u := HMAC.hmac alg password (fst ut) in
            (u, xor_bytes (snd ut) u))
         (u1, u1)).

Definition pbkdf2 (alg : HashAlgorithm) (password salt : bytes)
           (c : N) (dkLen : nat) : bytes :=
  let l := (dkLen + digest_size alg - 1) / digest_size alg in
  firstn dkLen
         (flat_map (fun i => F alg password salt c (N.of_nat i)) (seq 1 l)).

(** The [PBKDF2HMAC] object of the package. *)
Record PBKDF2HMAC : Type := {
  algorithm : HashAlgorithm;
  length : nat;
  salt : bytes;
  iterations : N
}.

(** [kdf.derive(key_material)] *)
Definition derive (kdf : PBKDF2HMAC) (key_material : bytes) : bytes :=
  pbkdf2 (algorithm kdf) key_material (salt kdf) (iterations kdf)
         (length kdf).

End PBKDF2.

(** ** AES (FIPS 197): [algorithms.AES(key)] *)

Module AES.

(** *** Arithmetic in GF(2^8) *)

(** Multiplication by [x] modulo [x^8 + x^4 + x^3 + x + 1]. *)
Definition xtime (b : byte) : byte :=
  let n := (2 * Byte.to_N b)%N in
  byte_of_N (if (n <? 256)%N then n else N.lxor n 0x11b).

Fixpoint gmul_bits (bits : nat) (a : byte) (b : N) : byte :=
  match bits with
  | O => x00
  | S bits' =>
      bxor (if N.odd b then a else x00)
           (gmul_bits bits' (xtime a) (N.div2 b))
  end.

Definition gmul (a b : byte) : byte := gmul_bits 8 a (Byte.to_N b).

(** The multiplicative inverse, [b^254], with [0] mapped to [0]. *)
Definition ginv (b : byte) : byte :=
  let b2 := gmul b b in
  let b4 := gmul b2 b2 in
  let b8 := gmul b4 b4 in
  let b16 := gmul b8 b8 in
  let b32 := gmul b16 b16 in
  let b64 := gmul b32 b32 in
  let b128 := gmul b64 b64 in
  gmul b2 (gmul b4 (gmul b8 (gmul b16 (gmul b32 (gmul b64 b128))))).

Definition rotl8 (n : N) (b : byte) : byte :=
  let x := Byte.to_N b in
  byte_of_N (N.lor (N.shiftl x n) (N.shiftr x (8 - n))).

(** The S-box: inversion followed by the affine transformation. *)
Definition sbox_value (b : byte) : byte :=
  let i := ginv b in
  bxor (bxor (bxor (bxor (bxor i (rotl8 1 i)) (rotl8 2 i)) (rotl8 3 i))
             (rotl8 4 i))
       x63.

Definition sbox : bytes := Eval vm_compute in map sbox_value all_bytes.

Definition sub_byte (b : byte) : byte :=
  nth (N.to_nat (Byte.to_N b)) sbox x00.

Definition inv_sbox : bytes :=
  Eval vm_compute in
    map (fun y => hd x00 (filter (fun x => Byte.eqb (sub_byte x) y) all_bytes))
        all_bytes.

Definition inv_sub_byte (b : byte) : byte :=
  nth (N.to_nat (Byte.to_N b)) inv_sbox x00.

(** *** The four transformations on a 16-byte state

    The state is kept in input order: byte [r + 4 * c] is row [r] of
    column [c]. *)

Definition sub_bytes (s : bytes) : bytes := map sub_byte s.
Definition inv_sub_bytes (s : bytes) : bytes := map inv_sub_byte s.

Definition shift_rows (s : bytes) : bytes :=
  map (fun i => nth ((i + 4 * (i mod 4)) mod 16) s x00) (seq 0 16).

Definition inv_shift_rows (s : bytes) : bytes :=
  map (fun i => nth ((i + 12 * (i mod 4)) mod 16) s x00) (seq 0 16).

Definition mix_column (a b c d : byte) : bytes :=
  [ bxor (bxor (bxor (gmul a x02) (gmul b x03)) c) d;
    bxor (bxor (bxor a (gmul b x02)) (gmul c x03)) d;
    bxor (bxor (bxor a b) (gmul c x02)) (gmul d x03);
    bxor (bxor (bxor (gmul a x03) b) c) (gmul d x02) ].

Definition inv_mix_column (a b c d : byte) : bytes :=
  [ bxor (bxor (bxor (gmul a x0e) (gmul b x0b)) (gmul c x0d)) (gmul d x09);
    bxor (bxor (bxor (gmul a x09) (gmul b x0e)) (gmul c x0b)) (gmul d x0d);
    bxor (bxor (bxor (gmul a x0d) (gmul b x09)) (gmul c x0e)) (gmul d x0b);
    bxor (bxor (bxor (gmul a x0b) (gmul b x0d)) (gmul c x09)) (gmul d x0e) ].

Fixpoint mix_columns (s : bytes) : bytes :=
  match s with
  | a :: b :: c :: d :: s' => mix_column a b c d ++ mix_columns s'
  | _ => []
  end.

Fixpoint inv_mix_columns (s : bytes) : bytes :=
  match s with
  | a :: b :: c :: d :: s' => inv_mix_column a b c d ++ inv_mix_columns s'
  | _ => []
  end.

Definition add_round_key (s k : bytes) : bytes := xor_bytes s k.

(** *** Key expansion *)

Definition rot_word (w : bytes) : bytes :=
  match w with
  | [] => []
  | a :: w' => w' ++ [a]
  end.

Definition sub_word (w : bytes) : bytes := map sub_byte w.

(** [Rcon[i]] for [i >= 1]. *)
Definition rcon (i : nat) : bytes :=
  [Nat.iter (i - 1) xtime x01; x00; x00; x00].

(** Extends the word list [w] by [n] words. *)
Fixpoint expand (n nk : nat) (w : list bytes) : list bytes :=
  match n with
  | O => w
  | S n' =>
      let i := length w in
      let temp := nth (i - 1) w [] in
      let temp :=
        if i mod nk =? 0 then
          xor_bytes (sub_word (rot_word temp)) (rcon (i / nk))
        else if (6 <? nk) && (i mod nk =? 4) then sub_word temp
        else temp in
      expand n' nk (w ++ [xor_bytes (nth (i - nk) w []) temp])
  end.

(** The [Nr + 1] round keys of 16 bytes each, for a key of [4 * Nk]
    bytes with [Nr = Nk + 6]. *)
Definition key_expansion (key : bytes) : list bytes :=
  let nk := length key / 4 in
  let nr := nk + 6 in
  let w0 := map (fun i => firstn 4 (skipn (4 * i) key)) (seq 0 nk) in
  let w := expand (4 * (nr + 1) - nk) nk w0 in
  map (fun r => concat (firstn 4 (skipn (4 * r) w))) (seq 0 (nr + 1)).

(** *** Cipher and inverse cipher *)

(** The rounds after the initial key addition; the last one has no
    [mix_columns]. *)
Fixpoint rounds (ks : list bytes) (s : bytes) : bytes :=
  match ks with
  | [] => s
  | [k] => add_round_key (shift_rows (sub_bytes s)) k
  | k :: ks' =>
      rounds ks' (add_round_key (mix_columns (shift_rows (sub_bytes s))) k)
  end.

Definition cipher (round_keys : list bytes) (input : bytes) : bytes :=
  match round_keys with
  | [] => input
  | k0 :: ks => rounds ks (add_round_key input k0)
  end.

(** The inverse rounds, over the round keys in reverse order. *)
Fixpoint inv_rounds (ks : list bytes) (s : bytes) : bytes :=
  match ks with
  | [] => s
  | [k] => add_round_key (inv_sub_bytes (inv_shift_rows s)) k
  | k :: ks' =>
      inv_rounds ks'
        (inv_mix_columns
           (add_round_key (inv_sub_bytes (inv_shift_rows s)) k))
  end.

Definition inv_cipher (round_keys : list bytes) (input : bytes) : bytes :=
  match rev round_keys with
  | [] => input
  | kn :: ks => inv_rounds ks (add_round_key input kn)
  end.

(** The algorithm object: a validated key. *)
Record algorithm : Type := Algorithm { key : bytes }.

Definition block_size : nat := 128.

(** [algorithms.AES(key)]: the key must have 128, 192 or 256 bits.  (The
    message of the package also quotes the offending size.) *)
Definition AES (key : bytes) : result algorithm :=
  if (length key =? 16) || (length key =? 24) || (length key =? 32)
  then Ok (Algorithm key)
  else Raise (ValueError "Invalid key size for AES.").

Definition encrypt_block (a : algorithm) (block : bytes) : bytes :=
  cipher (key_expansion (key a)) block.

Definition decrypt_block (a : algorithm) (block : bytes) : bytes :=
  inv_cipher (key_expansion (key a)) block.

End AES.

(** ** CBC mode and cipher contexts: [Cipher(algorithm, modes.CBC(iv))] *)

Module modes.

Record CBC : Type := { initialization_vector : bytes }.

End modes.

Module ciphers.

(** Chained encryption of [n] blocks of [data]; returns the output and the
    last chaining value. *)
Fixpoint encrypt_blocks (E : bytes -> bytes) (n : nat) (chain data : bytes)
  : bytes * bytes :=
  match n with
  | O => ([], chain)
  | S n' =>
      let c := E (xor_bytes (firstn 16 data) chain) in
      let '(out, chain') := encrypt_blocks E n' c (skipn 16 data) in
      (c ++ out, chain')
  end.

Fixpoint decrypt_blocks (D : bytes -> bytes) (n : nat) (chain data : bytes)
  : bytes * bytes :=
  match n with
  | O => ([], chain)
  | S n' =>
      let c := firstn 16 data in
      let p := xor_bytes (D c) chain in
      let '(out, chain') := decrypt_blocks D n' c (skipn 16 data) in
      (p ++ out, chain')
  end.

Record Cipher : Type := { algorithm : AES.algorithm; mode : modes.CBC }.

(** [Cipher(algorithm, mode)]: the mode is validated for the algorithm,
    that is, the IV must be one block long.  (The message of the package
    also quotes the offending size.) *)
Definition new (alg : AES.algorithm) (mode : modes.CBC) : result Cipher :=
  if length (modes.initialization_vector mode) * 8 =? AES.block_size
  then Ok {| algorithm := alg; mode := mode |}
  else Raise (ValueError "Invalid IV size for CBC.").

(** An encryption or decryption context: the chaining value and the bytes
    of an incomplete block. *)
Record context : Type :=
  Context { cipher : Cipher; chain : bytes; pending : bytes }.

Definition encryptor (c : Cipher) : context :=
  Context c (modes.initialization_vector (mode c)) [].

Definition decryptor (c : Cipher) : context :=
  Context c (modes.initialization_vector (mode c)) [].

(** [encryptor.update(data)] *)
Definition encryptor_update (ctx : context) (data : bytes)
  : context * bytes :=
  let buf := pending ctx ++ data in
  let n := length buf / 16 in
  let '(out, chain') :=
    encrypt_blocks (AES.encrypt_block (algorithm (cipher ctx))) n
                   (chain ctx) (firstn (16 * n) buf) in
  (Context (cipher ctx) chain' (skipn (16 * n) buf), out).

(** [decryptor.update(data)] *)
Definition decryptor_update (ctx : context) (data : bytes)
  : context * bytes :=
  let buf := pending ctx ++ data in
  let n := length buf / 16 in
  let '(out, chain') :=
    decrypt_blocks (AES.decrypt_block (algorithm (cipher ctx))) n
                   (chain ctx) (firstn (16 * n) buf) in
  (Context (cipher ctx) chain' (skipn (16 * n) buf), out).

(** [finalize()]: no padding is applied, so an incomplete block is an
    error. *)
Definition finalize (ctx : context) : result bytes :=
  match pending ctx with
  | [] => Ok []
  | _ :: _ =>
      Raise (ValueError
        "The length of the provided data is not a multiple of the block length.")
  end.

End ciphers.

(** ** Python objects, as far as [isinstance(password, bytes)] needs them *)

Inductive pyobject : Type :=
| PyNone
| PyBool (b : bool)
| PyInt (z : Z)
| PyStr (s : String.string)
| PyBytes (b : bytes)
| PyByteArray (b : bytes).

Definition isinstance_bytes (o : pyobject) : bool :=
  match o with
  | PyBytes _ => true
  | _ => false
  end.

Inductive Backend : Type := default_backend.

(** ** Python [str]: a sequence of Unicode code points *)

(** A [str] holds code points below [0x110000]; surrogates may occur in it
    (they come, for one, from undecodable bytes in [sys.argv]). *)
Abbreviation str := (list N).

(** An ASCII literal. *)
Definition str_lit (s : String.string) : str :=
  map Byte.to_N (bytes_of_string s).

Definition wf_str (s : str) : Prop := Forall (fun c => (c < 0x110000)%N) s.

Fixpoint str_eqb (a b : str) : bool :=
  match a, b with
  | [], [] => true
  | x :: a', y :: b' => (x =? y)%N && str_eqb a' b'
  | _, _ => false
  end.

(** [s.endswith(suffix)] *)
Definition endswith (s suffix : str) : bool :=
  (length suffix <=? length s)
  && str_eqb (skipn (length s - length suffix) s) suffix.

(** [s.split(sep)] for a one-character separator. *)
Fixpoint split (sep : N) (s : str) : list str :=
  match s with
  | [] => [[]]
  | c :: s' =>
      if (c =? sep)%N then [] :: split sep s'
      else match split sep s' with
           | [] => [[c]]
           | x :: xs => (c :: x) :: xs
           end
  end.

(** [s.rfind(c)]: the highest index of [c] in [s], if any. *)
Fixpoint rfind (c : N) (s : str) : option nat :=
  match s with
  | [] => None
  | x :: s' =>
      match rfind c s' with
      | Some i => Some (S i)
      | None => if (x =? c)%N then Some 0 else None
      end
  end.

(** ** The exceptions of the code around the engine *)

Inductive OSError : Type :=
(** raised by the operating system on [open]: [errno] 2 is
    [FileNotFoundError], 13 [PermissionError], 21 [IsADirectoryError] *)
| Errno (errno : Z) (filename : str)
(** [FileNotFoundError(message)], raised by [read_file] itself *)
| FileNotFoundError (message : str).

Inductive pyexception : Type :=
| Builtin (e : exception)
| OS (e : OSError)
(** [str.encode()]: a surrogate at index [start] *)
| UnicodeEncodeError (start : nat)
(** [bytes.decode()]: the bytes are not UTF-8 *)
| UnicodeDecodeError
| IndexError
| AttributeError (message : str)
(** [click.BadParameter(message)] *)
| BadParameter (message : str)
(** [tomli.TOMLDecodeError] *)
| TOMLDecodeError.

Inductive outcome (A : Type) : Type :=
| Return (a : A)
| Throw (e : pyexception).
Arguments Return {A} a.
Arguments Throw {A} e.

Definition obind {A B : Type} (r : outcome A) (k : A -> outcome B)
  : outcome B :=
  match r with
  | Return a => k a
  | Throw e => Throw e
  end.

Notation "x <~ r ;; k" := (obind r (fun x => k))
  (at level 61, r at next level, right associativity) : result_scope.
Notation "' p <~ r ;; k" := (obind r (fun x => let p := x in k))
  (at level 61, p pattern, r at next level, right associativity)
  : result_scope.

(** An exception of the engine, seen from its callers. *)
Definition lift {A : Type} (r : result A) : outcome A :=
  match r with
  | Ok a => Return a
  | Raise e => Throw (Builtin e)
  end.

(** ** UTF-8: [str.encode()] and [bytes.decode("utf-8")] *)

Definition is_surrogate (c : N) : bool := ((0xD800 <=? c) && (c <? 0xE000))%N.

(** The bytes of one code point; none for a surrogate. *)
Definition utf8_char (c : N) : option bytes :=
  (if c <? 0x80 then Some [byte_of_N c]
   else if c <? 0x800 then
     Some [byte_of_N (0xC0 + c / 64); byte_of_N (0x80 + c mod 64)]
   else if c <? 0x10000 then
     if is_surrogate c then None
     else Some [byte_of_N (0xE0 + c / 4096);
                byte_of_N (0x80 + (c / 64) mod 64);
                byte_of_N (0x80 + c mod 64)]
   else if c <? 0x110000 then
     Some [byte_of_N (0xF0 + c / 262144);
           byte_of_N (0x80 + (c / 4096) mod 64);
           byte_of_N (0x80 + (c / 64) mod 64);
           byte_of_N (0x80 + c mod 64)]
   else None)%N.

Fixpoint encode_from (start : nat) (s : str) : outcome bytes :=
  match s with
  | [] => Return []
  | c :: s' =>
      match utf8_char c with
      | None => Throw (UnicodeEncodeError start)
      | Some b => bs <~ encode_from (S start) s' ;; Return (b ++ bs)
      end
  end.

(** [s.encode()] *)
Definition encode (s : str) : outcome bytes := encode_from 0 s.

(** Every code point of [s] has an encoding. *)
Definition encodable (s : str) : Prop :=
  Forall (fun c => utf8_char c <> None) s.

(** A continuation byte, [10xxxxxx]. *)
Definition is_continuation (b : byte) : bool :=
  ((0x80 <=? Byte.to_N b) && (Byte.to_N b <? 0xC0))%N.

Definition payload (b : byte) : N := (Byte.to_N b mod 64)%N.

(** The strict decoder: shortest forms only, no surrogates, nothing above
    [0x10FFFF]. *)
Fixpoint utf8_decode (b : bytes) : option str :=
  match b with
  | [] => Some []
  | b0 :: r0 =>
      let n0 := Byte.to_N b0 in
      if (n0 <? 0x80)%N then option_map (cons n0) (utf8_decode r0)
      else if (n0 <? 0xC2)%N then None
      else if (n0 <? 0xE0)%N then
        match r0 with
        | b1 :: r1 =>
            if is_continuation b1 then
              option_map (cons ((n0 - 0xC0) * 64 + payload b1)%N)
                         (utf8_decode r1)
            else None
        | _ => None
        end
      else if (n0 <? 0xF0)%N then
        match r0 with
        | b1 :: b2 :: r2 =>
            let c := ((n0 - 0xE0) * 4096 + payload b1 * 64 + payload b2)%N in
            if is_continuation b1 && is_continuation b2
               && (0x800 <=? c)%N && negb (is_surrogate c)
            then option_map (cons c) (utf8_decode r2)
            else None
        | _ => None
        end
      else if (n0 <? 0xF5)%N then
        match r0 with
        | b1 :: b2 :: b3 :: r3 =>
            let c := ((n0 - 0xF0) * 262144 + payload b1 * 4096
                      + payload b2 * 64 + payload b3)%N in
            if is_continuation b1 && is_continuation b2 && is_continuation b3
               && (0x10000 <=? c)%N && (c <? 0x110000)%N
            then option_map (cons c) (utf8_decode r3)
            else None
        | _ => None
        end
      else None
  end.

(** [b.decode("utf-8")] *)
Definition decode (b : bytes) : outcome str :=
  match utf8_decode b with
  | Some s => Return s
  | None => Throw UnicodeDecodeError
  end.

(** Universal newlines, as a file opened in text mode applies them on
    reading: ["\r\n"] and ["\r"] become ["\n"]. *)
Fixpoint translate_newlines (s : str) : str :=
  match s with
  | [] => []
  | 13%N :: (10%N :: s') => 10%N :: translate_newlines s'
  | 13%N :: s' => 10%N :: translate_newlines s'
  | c :: s' => c :: translate_newlines s'
  end.

(** ** The file system *)

Inductive node : Type :=
| File (content : bytes)
| Directory.

(** What is stored under each path, and for which paths the operating
    system refuses an [open] for reading or for writing (with which
    [errno]). *)
Record FileSystem : Type := {
  entries : str -> option node;
  rb_error : str -> option Z;
  wb_error : str -> option Z
}.

(** [os.path.exists(path)] *)
Definition path_exists (fs : FileSystem) (path : str) : bool :=
  match entries fs path with
  | Some _ => true
  | None => false
  end.

(** [with open(path, "rb") as f: return f.read()] *)
Definition read_bytes (fs : FileSystem) (path : str) : outcome bytes :=
  match rb_error fs path with
  | Some errno => Throw (OS (Errno errno path))
  | None =>
      match entries fs path with
      | Some (File content) => Return content
      | Some Directory => Throw (OS (Errno 21 path))
      | None => Throw (OS (Errno 2 path))
      end
  end.

(** The file system with a regular file of the given content at [path]. *)
Definition store (fs : FileSystem) (path : str) (data : bytes)
  : FileSystem :=
  {| entries := fun p => if str_eqb p path then Some (File data)
                         else entries fs p;
     rb_error := rb_error fs;
     wb_error := wb_error fs |}.

(** [with open(path, "wb") as f: f.write(data)] *)
Definition write_bytes (fs : FileSystem) (path : str) (data : bytes)
  : outcome FileSystem :=
  match wb_error fs path with
  | Some errno => Throw (OS (Errno errno path))
  | None =>
      match entries fs path with
      | Some Directory => Throw (OS (Errno 21 path))
      | _ => Return (store fs path data)
      end
  end.

(** [with open(path, "r", encoding="utf-8") as f: return f.read()] *)
Definition read_text (fs : FileSystem) (path : str) : outcome str :=
  raw <~ read_bytes fs path ;;
  text <~ decode raw ;;
  Return (translate_newlines text).

(** ** [src/encryption.py] *)

Definition MAGIC_HEADER : bytes := bytes_of_string "__SLE__".

Module SLE.

(** An instance of the class. *)
Record t : Type := { password : bytes; backend : Backend }.

Definition __init__ (password : pyobject) : result t :=
  match password with
  | PyBytes b => Ok {| password := b; backend := default_backend |}
  | _ => Raise (TypeError "Password must be of type bytes.")
  end.

Definition _derive_key (self : t) (salt : bytes) : result bytes :=
  if negb (length salt =? 16) then
    Raise (ValueError "Salt must be exactly 16 bytes.")
  else
    let kdf := {| PBKDF2.algorithm := hashes.SHA256;
                  PBKDF2.length := 32;
                  PBKDF2.salt := salt;
                  PBKDF2.iterations := 100000 |} in
    Ok (PBKDF2.derive kdf (password self)).

Definition encrypt (self : t) (data : bytes) (src : RandomSource)
  : result (bytes * RandomSource) :=
  '(salt, src) <- urandom 16 src ;;
  '(iv, src) <- urandom 16 src ;;
  key <- _derive_key self salt ;;

  scheme <- PKCS7.PKCS7 128 ;;
  let padder := PKCS7.padder scheme in
  let '(padder, head) := PKCS7.padder_update padder (MAGIC_HEADER ++ data) in
  let padded_data := head ++ PKCS7.padder_finalize padder in

  alg <- AES.AES key ;;
  cipher <- ciphers.new alg {| modes.initialization_vector := iv |} ;;
  let encryptor := ciphers.encryptor cipher in
  let '(encryptor, body) := ciphers.encryptor_update encryptor padded_data in
  tail <- ciphers.finalize encryptor ;;
  let encrypted := body ++ tail in

  Ok (salt ++ iv ++ encrypted, src).

Definition decrypt (self : t) (encrypted_data : bytes) : result bytes :=
  if length encrypted_data <? 32 then
    Raise (ValueError "Encrypted data is too short or corrupted.")
  else
    let salt := firstn 16 encrypted_data in
    let iv := firstn 16 (skipn 16 encrypted_data) in
    let encrypted := skipn 32 encrypted_data in

    key <- _derive_key self salt ;;
    alg <- AES.AES key ;;
    cipher <- ciphers.new alg {| modes.initialization_vector := iv |} ;;

    let decryptor := ciphers.decryptor cipher in
    let '(decryptor, body) := ciphers.decryptor_update decryptor encrypted in
    tail <- ciphers.finalize decryptor ;;
    let padded_data := body ++ tail in

    scheme <- PKCS7.PKCS7 128 ;;
    let unpadder := PKCS7.unpadder scheme in
    let '(unpadder, head) := PKCS7.unpadder_update unpadder padded_data in
    last_block <- PKCS7.unpadder_finalize unpadder ;;
    let data := head ++ last_block in

    if negb (startswith data MAGIC_HEADER) then
      Raise (ValueError "Invalid password or data corrupted.")
    else
      Ok (skipn (length MAGIC_HEADER) data).

Definition generate_file (self : t) (filename : str) (data : bytes)
           (fs : FileSystem) (src : RandomSource)
  : outcome (FileSystem * RandomSource) :=
  '(encrypted, src) <~ lift (encrypt self data src) ;;
  fs <~ write_bytes fs filename encrypted ;;
  Return (fs, src).

Definition read_file (self : t) (filename : str) (fs : FileSystem)
  : outcome bytes :=
  if negb (path_exists fs filename) then
    Throw (OS (FileNotFoundError (str_lit "File not found: " ++ filename)))
  else
    read_bytes fs filename.

End SLE.

(** ** The error names of the specification

    The engine raises [ValueError] throughout; the specification tells the
    failures apart by their cause, which the message carries. *)

Inductive SpecError : Type :=
| InvalidSaltLength
| MalformedBlob
| InvalidPadding
| AuthenticationFailed.

Definition classify (e : exception) : option SpecError :=
  match e with
  | ValueError msg =>
      if String.eqb msg "Salt must be exactly 16 bytes." then
        Some InvalidSaltLength
      else if String.eqb msg "Encrypted data is too short or corrupted." then
        Some MalformedBlob
      else if String.eqb msg
        "The length of the provided data is not a multiple of the block length."
      then Some MalformedBlob
      else if String.eqb msg "Invalid padding bytes." then
        Some InvalidPadding
      else if String.eqb msg "Invalid password or data corrupted." then
        Some AuthenticationFailed
      else None
  | _ => None
  end.

(** [fails_with r k]: the call raised, and the exception is of kind [k]. *)
Definition fails_with {A : Type} (r : result A) (k : SpecError) : Prop :=
  exists e, r = Raise e /\ classify e = Some k.

(** ** One-shot forms of the contexts, as [encrypt] and [decrypt] use them *)

(** [padder.update(data) + padder.finalize()] with [PKCS7(128)]. *)
Definition pkcs7_pad (data : bytes) : bytes :=
  let '(padder, head) :=
    PKCS7.padder_update (PKCS7.padder (PKCS7.Scheme 128)) data in
  head ++ PKCS7.padder_finalize padder.

(** [unpadder.update(data) + unpadder.finalize()] with [PKCS7(128)]. *)
Definition pkcs7_unpad (padded : bytes) : result bytes :=
  let '(unpadder, head) :=
    PKCS7.unpadder_update (PKCS7.unpadder (PKCS7.Scheme 128)) padded in
  last_block <- PKCS7.unpadder_finalize unpadder ;;
  Ok (head ++ last_block).

(** [encryptor.update(data) + encryptor.finalize()] *)
Definition cbc_encrypt (c : ciphers.Cipher) (data : bytes) : result bytes :=
  let '(encryptor, body) :=
    ciphers.encryptor_update (ciphers.encryptor c) data in
  tail <- ciphers.finalize encryptor ;;
  Ok (body ++ tail).

(** [decryptor.update(data) + decryptor.finalize()] *)
Definition cbc_decrypt (c : ciphers.Cipher) (data : bytes) : result bytes :=
  let '(decryptor, body) :=
    ciphers.decryptor_update (ciphers.decryptor c) data in
  tail <- ciphers.finalize decryptor ;;
  Ok (body ++ tail).

(** The cipher object built from a derived key and an IV. *)
Definition aes_cbc (key iv : bytes) : result ciphers.Cipher :=
  alg <- AES.AES key ;;
  ciphers.new alg {| modes.initialization_vector := iv |}.

(** The check of lines 102-105 of [decrypt]. *)
Definition strip_header (data : bytes) : result bytes :=
  if negb (startswith data MAGIC_HEADER) then
    Raise (ValueError "Invalid password or data corrupted.")
  else
    Ok (skipn (length MAGIC_HEADER) data).

(** A full round and its inverse, as [AES.rounds] and [AES.inv_rounds]
    apply them for every round key but the last. *)
Definition full_round (s k : bytes) : bytes :=
  AES.add_round_key (AES.mix_columns (AES.shift_rows (AES.sub_bytes s))) k.

Definition inv_full_round (s k : bytes) : bytes :=
  AES.inv_mix_columns
    (AES.add_round_key (AES.inv_sub_bytes (AES.inv_shift_rows s)) k).

Definition all16 (ks : list bytes) : Prop :=
  Forall (fun k => length k = 16) ks.

Definition all4 (ws : list bytes) : Prop :=
  Forall (fun w => length w = 4) ws.

(** Lines 86-100 of [decrypt]: everything up to and including the removal
    of the padding. *)
Definition recover (self : SLE.t) (encrypted_data : bytes) : result bytes :=
  if length encrypted_data <? 32 then
    Raise (ValueError "Encrypted data is too short or corrupted.")
  else
    key <- SLE._derive_key self (firstn 16 encrypted_data) ;;
    cipher <- aes_cbc key (firstn 16 (skipn 16 encrypted_data)) ;;
    padded_data <- cbc_decrypt cipher (skipn 32 encrypted_data) ;;
    pkcs7_unpad padded_data.

(** The key that [_derive_key] computes for a 16-byte salt. *)
Definition derived_key (password salt : bytes) : bytes :=
  PBKDF2.pbkdf2 hashes.SHA256 password salt 100000 32.

(** The cipher object that [encrypt] and [decrypt] build. *)
Definition sle_cipher (password salt iv : bytes) : ciphers.Cipher :=
  {| ciphers.algorithm := AES.Algorithm (derived_key password salt);
     ciphers.mode := {| modes.initialization_vector := iv |} |}.

(** The ciphertext of [payload] (already a whole number of blocks) under
    the cipher of [password], [salt] and [iv]. *)
Definition sle_ciphertext (password salt iv payload : bytes) : bytes :=
  fst (ciphers.encrypt_blocks
         (AES.encrypt_block (AES.Algorithm (derived_key password salt)))
         (length payload / 16) iv payload).

(** The bytes that [n] draws of 16 bytes take from a tape. *)
Definition drawn (entropy : nat -> byte) (cursor : nat) : bytes :=
  map entropy (seq cursor 16).

Definition correct_horse : SLE.t :=
  {| SLE.password := bytes_of_string "correct-horse";
     SLE.backend := default_backend |}.

Definition zero_tape : RandomSource := Tape (fun _ => x00) 0.


(** A blob that is only a salt and an IV. *)
Definition header_only_blob : bytes := repeat x00 32.

(** The blob of an implementation that frames the plaintext with [marker]
    instead of [MAGIC_HEADER], under the given salt and IV. *)
Definition blob_with_marker (marker password salt iv plaintext : bytes)
  : bytes :=
  salt ++ iv
       ++ sle_ciphertext password salt iv (pkcs7_pad (marker ++ plaintext)).

(** ** The [random] module: the Mersenne Twister behind [random.choices] *)

(** The generator, seen as the stream of 32-bit words it will put out and
    the number of words taken so far. *)
Record MersenneTwister : Type := { outputs : nat -> N; taken : nat }.

Definition genrand_uint32 (g : MersenneTwister) : N * MersenneTwister :=
  ((outputs g (taken g) mod 2 ^ 32)%N,
   {| outputs := outputs g; taken := S (taken g) |}).

(** [random()]: the float [(a * 2^26 + b) / 2^53] with [a] the top 27 bits
    of one word and [b] the top 26 bits of the next; the model keeps its
    numerator. *)
Definition random (g : MersenneTwister) : N * MersenneTwister :=
  let '(w1, g) := genrand_uint32 g in
  let '(w2, g) := genrand_uint32 g in
  ((w1 / 32 * 67108864 + w2 / 64)%N, g).

(** [a / 2^shift] rounded to the nearest integer, ties to even. *)
Definition round_half_even (a shift : N) : N :=
  (if shift =? 0 then a
   else
     let q := a / 2 ^ shift in
     let r := a mod 2 ^ shift in
     let half := 2 ^ (shift - 1) in
     if (half <? r) || ((r =? half) && N.odd q) then q + 1 else q)%N.

(** [floor(x * n)] for the float [x = k / 2^53] and the float [n]: the
    exact product [k * n / 2^53] is rounded to 53 significant bits, ties to
    even, and then truncated. *)
Definition floor_mul (k n : N) : N :=
  (let a := k * n in
   let shift := N.size a - 53 in
   round_half_even a shift * 2 ^ shift / 2 ^ 53)%N.

(** [random.choices(population, k=k)], joined into one string. *)
Fixpoint choices (population : str) (k : nat) (g : MersenneTwister)
  : outcome (str * MersenneTwister) :=
  match k with
  | O => Return ([], g)
  | S k' =>
      let '(x, g) := random g in
      let i := floor_mul x (N.of_nat (length population)) in
      match nth_error population (N.to_nat i) with
      | None => Throw IndexError
      | Some c =>
          '(rest, g) <~ choices population k' g ;;
          Return (c :: rest, g)
      end
  end.

Definition ascii_letters : str :=
  str_lit "abcdefghijklmnopqrstuvwxyzABCDEFGHIJKLMNOPQRSTUVWXYZ".

Definition digits : str := str_lit "0123456789".

(** ** [src/cryptokey.py] *)

Module Cryptokey.

Record t : Type := {
  password : str;
  toml_code : str;
  file_name : str;
  sle : SLE.t
}.

Definition __init__ (password toml_code file_name : str) : outcome t :=
  encoded <~ encode password ;;
  sle <~ lift (SLE.__init__ (PyBytes encoded)) ;;
  Return {| password := password;
            toml_code := toml_code;
            file_name := file_name;
            sle := sle |}.

Definition generate (self : t) (fs : FileSystem) (src : RandomSource)
  : outcome (FileSystem * RandomSource) :=
  data <~ encode (toml_code self) ;;
  SLE.generate_file (sle self) (file_name self) data fs src.

Definition generate_password (self : t) (length : Z) (include_special : bool)
           (g : MersenneTwister) : outcome (str * MersenneTwister) :=
  let chars := ascii_letters ++ digits in
  let chars :=
    if include_special then chars ++ str_lit "!@#$%^&*()-_=+[]{}|;:,.<>?/"
    else chars in
  choices chars (Z.to_nat length) g.

End Cryptokey.

(** ** [pathlib]: the final component of a POSIX path and its suffix *)

(** [Path(value).name]: the last component that is neither empty nor
    ["."]. *)
Definition Path_name (value : str) : str :=
  last (filter (fun x => negb (str_eqb x []) && negb (str_eqb x (str_lit ".")))
               (split 47 value))
       [].

(** [Path(value).suffix] *)
Definition Path_suffix (value : str) : str :=
  let name := Path_name value in
  match rfind 46 name with
  | Some i => if (0 <? i) && (i <? length name - 1) then skipn i name else []
  | None => []
  end.

(** ** [CryptokeyCli.py] *)

Definition validate_input_extension (value : str) : outcome str :=
  if negb (str_eqb (Path_suffix value) (str_lit ".esc"))
     || negb (endswith (Path_name value) (str_lit ".ac.esc"))
  then
    Throw (BadParameter (str_lit
      "Input file must have a `.ac.esc` extension and contain valid TOML."))
  else Return value.

Definition validate_output_extension (value : str) : outcome str :=
  if negb (str_eqb (Path_suffix value) (str_lit ".es"))
     || negb (endswith (Path_name value) (str_lit ".ac.es"))
  then
    Throw (BadParameter (str_lit
      "Output file must have a `.ac.es` extension."))
  else Return value.

(** What the command prints: a text, or the text of an exception. *)
Inductive message : Type :=
| Echo (text : str)
| EchoDetails (e : pyexception).

(** How the command ends: it returns, it calls [sys.exit], or an exception
    leaves it. *)
Inductive ending : Type :=
| Returns
| SysExit (code : Z)
| Uncaught (e : pyexception).

(** The state the command works on. *)
Record World : Type := {
  files : FileSystem;
  twister : MersenneTwister;
  urandom_source : RandomSource;
  stdout : list message
}.

Definition echo (m : message) (w : World) : World :=
  {| files := files w; twister := twister w;
     urandom_source := urandom_source w; stdout := stdout w ++ [m] |}.

(** Step 3 of [cli]: under [try], with every [Exception] caught. *)
Definition cli_encrypt (password toml_code output : str) (w : World)
  : ending * World :=
  let attempt :=
    crypter <~ Cryptokey.__init__ password toml_code output ;;
    Cryptokey.generate crypter (files w) (urandom_source w) in
  match attempt with
  | Return (fs, src) =>
      let w := {| files := fs; twister := twister w;
                  urandom_source := src; stdout := stdout w |} in
      (Returns,
       echo (Echo (str_lit "Encryption successful! Output saved to: "
                     ++ output)) w)
  | Throw e =>
      (SysExit 1,
       echo (EchoDetails e)
         (echo (Echo (str_lit
            "Encryption failed due to an unexpected error.")) w))
  end.

(** Steps 2 and 3 of [cli]. *)
Definition cli_with_text (toml_code output : str) (password : option str)
           (gen_pass : bool) (w : World) : ending * World :=
  let generated :=
    if gen_pass then
      tmp <~ Cryptokey.__init__ [] [] [] ;;
      '(generated, g) <~ Cryptokey.generate_password tmp 16 true (twister w) ;;
      Return (Some generated,
              echo (Echo generated)
                (echo (Echo (str_lit "Generated Password:"))
                   {| files := files w; twister := g;
                      urandom_source := urandom_source w;
                      stdout := stdout w |}))
    else Return (password, w) in
  match generated with
  | Throw e => (Uncaught e, w)
  | Return (password, w) =>
      match password with
      | Some (c :: p) => cli_encrypt (c :: p) toml_code output w
      | _ => (* [not password]: [None] or the empty string *)
          (SysExit 1,
           echo (Echo (str_lit
             "Error: A password is required. Use --gen-pass to generate one automatically."))
                w)
      end
  end.

(** [cli(input, output, password, gen_pass)]; [tomli_loads] tells whether
    [tomli.loads] accepts a text. *)
Definition cli (tomli_loads : str -> bool) (input output : str)
           (password : option str) (gen_pass : bool) (w : World)
  : ending * World :=
  match read_text (files w) input with
  | Throw (OS e) =>
      (SysExit 1,
       echo (EchoDetails (OS e))
         (echo (Echo (str_lit
            "Error: Failed to read or parse the input file. Make sure it contains valid TOML."))
               w))
  | Throw e => (Uncaught e, w)
  | Return toml_code =>
      if tomli_loads toml_code then
        cli_with_text toml_code output password gen_pass w
      else
        (SysExit 1,
         echo (EchoDetails TOMLDecodeError)
           (echo (Echo (str_lit
              "Error: Failed to read or parse the input file. Make sure it contains valid TOML."))
                 w))
  end.

(** A file system with no entries, on which nothing is refused. *)
Definition empty_fs : FileSystem :=
  {| entries := fun _ => None;
     rb_error := fun _ => None;
     wb_error := fun _ => None |}.

(** The blob that [encrypt] makes of [data] on a tape of random bytes. *)
Definition blob_on_tape (self : SLE.t) (data : bytes)
           (entropy : nat -> byte) (cursor : nat) : bytes :=
  blob_with_marker MAGIC_HEADER (SLE.password self) (drawn entropy cursor)
                   (drawn entropy (cursor + 16)) data.

(** The characters [generate_password] draws from. *)
Definition password_chars (include_special : bool) : str :=
  if include_special
  then (ascii_letters ++ digits) ++ str_lit "!@#$%^&*()-_=+[]{}|;:,.<>?/"
  else ascii_letters ++ digits.

Definition is_alphanumeric (c : N) : Prop :=
  (48 <= c <= 57 \/ 65 <= c <= 90 \/ 97 <= c <= 122)%N.

(** Printable ASCII without the space, the quotes, the backslash, the
    backquote and the tilde. *)
Definition is_password_char (c : N) : Prop :=
  (33 <= c <= 125 /\ c <> 34 /\ c <> 39 /\ c <> 92 /\ c <> 96)%N.

(** The world once the command has printed a generated password and the
    generator has moved on. *)
Definition after_gen_pass (generated : str) (g : MersenneTwister) (w : World)
  : World :=
  echo (Echo generated)
    (echo (Echo (str_lit "Generated Password:"))
       {| files := files w; twister := g;
          urandom_source := urandom_source w; stdout := stdout w |}).

(** The first of the two lines that report a failure of step 1. *)
Definition read_or_parse_failed : message :=
  Echo (str_lit
    "Error: Failed to read or parse the input file. Make sure it contains valid TOML.").

Definition password_required : message :=
  Echo (str_lit
    "Error: A password is required. Use --gen-pass to generate one automatically.").

(** A world with one file, a generator that puts out zeros, and a random
    source that delivers zeros. *)
Definition world_with (path : str) (content : bytes) : World :=
  {| files := store empty_fs path content;
     twister := {| outputs := fun _ => 0%N; taken := 0 |};
     urandom_source := zero_tape;
     stdout := [] |}.
Example sha256_K_ends :
  nth 0 Sha2.K 0%N = 0x428a2f98%N /\ nth 63 Sha2.K 0%N = 0xc67178f2%N
  /\ length Sha2.K = 64.
Proof. repeat split. Qed.

Example sha256_abc :
  Sha2.sha256 (bytes_of_string "abc")
  = hex "ba7816bf8f01cfea414140de5dae2223b00361a396177a9cb410ff61f20015ad".
Proof. vm_compute. reflexivity. Qed.

Example sha256_empty :
  Sha2.sha256 []
  = hex "e3b0c44298fc1c149afbf4c8996fb92427ae41e4649b934ca495991b7852b855".
Proof. vm_compute. reflexivity. Qed.

Example hmac_sha256_fox :
  HMAC.hmac hashes.SHA256 (bytes_of_string "key")
            (bytes_of_string "The quick brown fox jumps over the lazy dog")
  = hex "f7bc83f430538424b13298e6aa6fb143ef4d59a14946175997479dbc2d1a3cd8".
Proof. vm_compute. reflexivity. Qed.

Example hmac_sha256_long_key :
  HMAC.hmac hashes.SHA256 (repeat "k"%byte 100) (bytes_of_string "msg")
  = hex "bd56a1782c2830e8abc6ed866a57a1230661e650b84c62f7ee3accc5fa5af491".
Proof. vm_compute. reflexivity. Qed.

Example pbkdf2_rfc7914 :
  PBKDF2.pbkdf2 hashes.SHA256 (bytes_of_string "passwd")
                (bytes_of_string "salt") 1 64
  = hex "55ac046e56e3089fec1691c22544b605f94185216dde0465e68b9d57c20dacbc"
    ++ hex "49ca9cccf179b645991664b39d77ef317c71b845b1e30bd509112041d3a19783".
Proof. vm_compute. reflexivity. Qed.

Example pbkdf2_two_iterations :
  PBKDF2.pbkdf2 hashes.SHA256 (bytes_of_string "password")
                (bytes_of_string "salt") 2 32
  = hex "ae4d0c95af6b46d32d0adff928f06dd02a303f8ef3c251dfd6e2d85a95474c43".
Proof. vm_compute. reflexivity. Qed.

Example pbkdf2_empty_password :
  PBKDF2.pbkdf2 hashes.SHA256 [] (map byte_of_nat (seq 0 16)) 3 32
  = hex "f826e75fcd86ff4fd3471c1737c7cfe3313fd8c73d9487f14f5225e9897dfb83".
Proof. vm_compute. reflexivity. Qed.

Example aes_sbox_ends :
  AES.sub_byte x00 = x63 /\ AES.sub_byte x53 = xed /\ AES.sub_byte xff = x16.
Proof. repeat split. Qed.

Example aes256_fips197 :
  AES.cipher
    (AES.key_expansion
       (hex "000102030405060708090a0b0c0d0e0f101112131415161718191a1b1c1d1e1f"))
    (hex "00112233445566778899aabbccddeeff")
  = hex "8ea2b7ca516745bfeafc49904b496089".
Proof. vm_compute. reflexivity. Qed.

Example aes128_fips197 :
  AES.cipher (AES.key_expansion (hex "000102030405060708090a0b0c0d0e0f"))
             (hex "00112233445566778899aabbccddeeff")
  = hex "69c4e0d86a7b0430d8cdb78070b4c55a".
Proof. vm_compute. reflexivity. Qed.

Example aes192_fips197 :
  AES.cipher
    (AES.key_expansion (hex "000102030405060708090a0b0c0d0e0f1011121314151617"))
    (hex "00112233445566778899aabbccddeeff")
  = hex "dda97ca4864cdfe06eaf70a0ec0d7191".
Proof. vm_compute. reflexivity. Qed.

Example aes256_fips197_inverse :
  AES.inv_cipher
    (AES.key_expansion
       (hex "000102030405060708090a0b0c0d0e0f101112131415161718191a1b1c1d1e1f"))
    (hex "8ea2b7ca516745bfeafc49904b496089")
  = hex "00112233445566778899aabbccddeeff".
Proof. vm_compute. reflexivity. Qed.

Example aes256_cbc_pkcs7_openssl :
  cbc_encrypt
    {| ciphers.algorithm :=
         AES.Algorithm
           (hex "000102030405060708090a0b0c0d0e0f101112131415161718191a1b1c1d1e1f");
       ciphers.mode :=
         {| modes.initialization_vector :=
              hex "000102030405060708090a0b0c0d0e0f" |} |}
    (pkcs7_pad (MAGIC_HEADER ++ bytes_of_string "top secret"))
  = Ok (hex "bd3ff300d123d2cf3c514a7132894112"
          ++ hex "5a779bfd558ca098d72aa34a0fdaad63").
Proof. vm_compute. reflexivity. Qed.

Example aes256_cbc_pkcs7_openssl_back :
  (padded <- cbc_decrypt
      {| ciphers.algorithm :=
           AES.Algorithm
             (hex "000102030405060708090a0b0c0d0e0f101112131415161718191a1b1c1d1e1f");
         ciphers.mode :=
           {| modes.initialization_vector :=
                hex "000102030405060708090a0b0c0d0e0f" |} |}
      (hex "bd3ff300d123d2cf3c514a7132894112"
         ++ hex "5a779bfd558ca098d72aa34a0fdaad63") ;;
   pkcs7_unpad padded)%result
  = Ok (bytes_of_string "__SLE__top secret").
Proof. vm_compute. reflexivity. Qed.

(** * Properties *)

(** ** Bytes *)

Lemma byte_of_to_N (b : byte) : byte_of_N (Byte.to_N b) = b.
Proof.
  unfold byte_of_N.
  rewrite N.mod_small by (pose proof (Byte.to_N_bounded b); lia).
  now rewrite Byte.of_to_N.
Qed.

Lemma to_N_byte_of_N (n : N) : Byte.to_N (byte_of_N n) = (n mod 256)%N.
Proof.
  unfold byte_of_N.
  destruct (Byte.of_N (n mod 256)) as [b|] eqn:E.
  - now apply Byte.to_of_N.
  - apply Byte.of_N_None_iff in E.
    pose proof (N.mod_upper_bound n 256). lia.
Qed.

Lemma to_N_byte_of_nat (n : nat) :
  n < 256 -> N.to_nat (Byte.to_N (byte_of_nat n)) = n.
Proof.
  intros Hn. unfold byte_of_nat.
  rewrite to_N_byte_of_N, N.mod_small by lia. lia.
Qed.

Lemma in_all_bytes (b : byte) : In b all_bytes.
Proof.
  unfold all_bytes. apply in_map_iff.
  exists (N.to_nat (Byte.to_N b)). split.
  - unfold byte_of_nat. rewrite N2Nat.id. apply byte_of_to_N.
  - apply in_seq. pose proof (Byte.to_N_bounded b). lia.
Qed.

(** A property checked on the 256 values holds of every byte. *)
Lemma byte_forall (P : byte -> bool) :
  forallb P all_bytes = true -> forall b, P b = true.
Proof.
  intros H b. rewrite forallb_forall in H. apply H, in_all_bytes.
Qed.

Lemma byte_forall2 (P : byte -> byte -> bool) :
  forallb (fun a => forallb (P a) all_bytes) all_bytes = true ->
  forall a b, P a b = true.
Proof.
  intros H a b.
  apply (byte_forall (P a)), (byte_forall _ H a).
Qed.

Lemma byte_eqb_eq (a b : byte) : Byte.eqb a b = true <-> a = b.
Proof.
  split; [apply Byte.byte_dec_bl | apply Byte.byte_dec_lb].
Qed.

Lemma bxor_cancel_r (a b : byte) : bxor (bxor a b) b = a.
Proof.
  apply byte_eqb_eq.
  revert a b. apply byte_forall2. vm_compute. reflexivity.
Qed.

Lemma bxor_comm (a b : byte) : bxor a b = bxor b a.
Proof.
  unfold bxor. now rewrite N.lxor_comm.
Qed.

Lemma bxor_x00_r (a : byte) : bxor a x00 = a.
Proof.
  unfold bxor. cbn [Byte.to_N]. rewrite N.lxor_0_r. apply byte_of_to_N.
Qed.

Lemma bxor_x00_l (a : byte) : bxor x00 a = a.
Proof. rewrite bxor_comm. apply bxor_x00_r. Qed.

Lemma length_xor_bytes (a b : bytes) :
  length (xor_bytes a b) = Nat.min (length a) (length b).
Proof.
  revert b. induction a as [|x a IH]; intros [|y b]; simpl; auto.
Qed.

Lemma xor_bytes_cancel_r (a b : bytes) :
  length a <= length b -> xor_bytes (xor_bytes a b) b = a.
Proof.
  revert b. induction a as [|x a IH]; intros [|y b] H; simpl in *;
    try reflexivity; try lia.
  rewrite bxor_cancel_r, IH; [reflexivity | lia].
Qed.

Lemma startswith_app (prefix rest : bytes) :
  startswith (prefix ++ rest) prefix = true.
Proof.
  induction prefix as [|p ps IHps]; simpl; auto.
  rewrite IHps, andb_true_r. now apply byte_eqb_eq.
Qed.

Lemma startswith_true (data prefix : bytes) :
  startswith data prefix = true ->
  data = prefix ++ skipn (length prefix) data.
Proof.
  revert data. induction prefix as [|p ps IHps]; intros data H.
  - reflexivity.
  - destruct data as [|d ds]; simpl in H; [discriminate|].
    apply andb_true_iff in H as [Hd H].
    apply byte_eqb_eq in Hd. subst d.
    simpl. f_equal. now apply IHps.
Qed.

Lemma in_firstn {A : Type} (n : nat) (l : list A) (x : A) :
  In x (firstn n l) -> In x l.
Proof.
  intros H. rewrite <- (firstn_skipn n l). apply in_or_app. now left.
Qed.

Lemma in_skipn {A : Type} (n : nat) (l : list A) (x : A) :
  In x (skipn n l) -> In x l.
Proof.
  intros H. rewrite <- (firstn_skipn n l). apply in_or_app. now right.
Qed.

(** ** PKCS7 padding *)

Lemma div_mod_16 (n : nat) : n = 16 * (n / 16) + n mod 16 /\ n mod 16 < 16.
Proof.
  split; [apply Nat.div_mod_eq | apply Nat.mod_upper_bound; lia].
Qed.

(** The padder appends [n] bytes of value [n], with [n] between 1 and 16
    bringing the length to a multiple of 16. *)
Lemma pkcs7_pad_eq (data : bytes) :
  pkcs7_pad data = data ++ PKCS7.padding (16 - length data mod 16).
Proof.
  unfold pkcs7_pad, PKCS7.padder_update, PKCS7.padder_finalize,
    PKCS7.padder, PKCS7.block_bytes.
  cbn [PKCS7.buffer PKCS7.block_size PKCS7.bits app].
  change (128 / 8) with 16.
  destruct (div_mod_16 (length data)) as [Hd Hm].
  rewrite length_skipn.
  replace (length data - length data / 16 * 16) with (length data mod 16)
    by lia.
  now rewrite app_assoc, firstn_skipn.
Qed.

Lemma length_pkcs7_pad (data : bytes) :
  length (pkcs7_pad data) = 16 * (length data / 16 + 1).
Proof.
  rewrite pkcs7_pad_eq, length_app.
  unfold PKCS7.padding. rewrite repeat_length.
  destruct (div_mod_16 (length data)). lia.
Qed.

Lemma last_app_repeat (l : bytes) (b : byte) (n : nat) :
  0 < n -> last (l ++ repeat b n) x00 = b.
Proof.
  intros Hn. destruct n as [|n]; [lia|].
  replace (S n) with (n + 1) by lia.
  rewrite repeat_app, app_assoc. simpl. apply last_last.
Qed.

Lemma forallb_repeat (b : byte) (n : nat) :
  forallb (fun c => Byte.eqb c b) (repeat b n) = true.
Proof.
  induction n; simpl; auto.
  rewrite IHn, andb_true_r. now apply byte_eqb_eq.
Qed.

Lemma unpadder_finalize_padded (rest : bytes) (pad : nat) :
  length rest + pad = 16 -> 0 < pad ->
  PKCS7.unpadder_finalize
    (PKCS7.Context 128 (rest ++ repeat (byte_of_nat pad) pad))
  = Ok rest.
Proof.
  intros Hlen Hpad.
  unfold PKCS7.unpadder_finalize, PKCS7.block_bytes.
  cbn [PKCS7.buffer PKCS7.block_size].
  change (128 / 8) with 16.
  rewrite length_app, repeat_length, Hlen.
  cbn [Nat.eqb negb].
  unfold PKCS7.check_pkcs7_padding.
  rewrite last_app_repeat by lia.
  rewrite to_N_byte_of_nat by lia.
  rewrite rev_app_distr, rev_repeat.
  rewrite (firstn_app pad), repeat_length, Nat.sub_diag, firstn_O, app_nil_r.
  rewrite (firstn_all2 (n := pad)) by (rewrite repeat_length; lia).
  rewrite forallb_repeat.
  replace (0 <? pad) with true by (symmetry; apply Nat.ltb_lt; lia).
  replace (pad <=? 16) with true by (symmetry; apply Nat.leb_le; lia).
  cbn [andb negb].
  replace (16 - pad) with (length rest) by lia.
  rewrite firstn_app, Nat.sub_diag, firstn_O, app_nil_r.
  now rewrite firstn_all.
Qed.

(** The unpadder gives back what the padder was given. *)
Lemma pkcs7_unpad_pad (data : bytes) :
  pkcs7_unpad (pkcs7_pad data) = Ok data.
Proof.
  rewrite pkcs7_pad_eq.
  destruct (div_mod_16 (length data)) as [Hd Hm].
  set (pad := 16 - length data mod 16).
  assert (Hpad : 0 < pad <= 16) by (unfold pad; lia).
  unfold pkcs7_unpad, PKCS7.unpadder_update, PKCS7.unpadder,
    PKCS7.block_bytes, PKCS7.padding.
  cbn [PKCS7.buffer PKCS7.block_size PKCS7.bits app].
  change (128 / 8) with 16.
  rewrite length_app, repeat_length, Nat.max_0_r.
  replace ((length data + pad) / 16 - 1) with (length data / 16).
  2:{ replace (length data + pad) with ((length data / 16 + 1) * 16)
        by (unfold pad; lia).
      rewrite Nat.div_mul; lia. }
  set (q := length data / 16) in *.
  assert (Hq : q * 16 <= length data) by lia.
  rewrite skipn_app, firstn_app.
  replace (q * 16 - length data) with 0 by lia.
  cbn [skipn firstn]. rewrite app_nil_r.
  rewrite unpadder_finalize_padded.
  - cbn [bind]. now rewrite firstn_skipn.
  - rewrite length_skipn. unfold pad. lia.
  - lia.
Qed.

(** Nothing can be unpadded from the empty string. *)
Lemma pkcs7_unpad_nil :
  pkcs7_unpad [] = Raise (ValueError "Invalid padding bytes.").
Proof. reflexivity. Qed.

(** ** AES: the inverse cipher undoes the cipher *)

Lemma to_N_bxor (a b : byte) :
  Byte.to_N (bxor a b) = N.lxor (Byte.to_N a) (Byte.to_N b).
Proof.
  apply N.eqb_eq. revert a b.
  apply (byte_forall2
           (fun a b => N.eqb (Byte.to_N (bxor a b))
                             (N.lxor (Byte.to_N a) (Byte.to_N b)))).
  vm_compute. reflexivity.
Qed.

Lemma bxor_assoc (a b c : byte) : bxor a (bxor b c) = bxor (bxor a b) c.
Proof.
  unfold bxor at 1 3. now rewrite !to_N_bxor, N.lxor_assoc.
Qed.

(** [(a + b) + (c + d) = (a + c) + (b + d)] *)
Lemma bxor_interchange (a b c d : byte) :
  bxor (bxor a b) (bxor c d) = bxor (bxor a c) (bxor b d).
Proof.
  rewrite <- !bxor_assoc. f_equal.
  rewrite !bxor_assoc. f_equal. apply bxor_comm.
Qed.

Lemma bxor_interchange4 (p q r s p' q' r' s' : byte) :
  bxor (bxor (bxor (bxor p p') (bxor q q')) (bxor r r')) (bxor s s')
  = bxor (bxor (bxor (bxor p q) r) s) (bxor (bxor (bxor p' q') r') s').
Proof.
  now rewrite (bxor_interchange p p'), (bxor_interchange (bxor p q)),
    (bxor_interchange (bxor (bxor p q) r)).
Qed.

Lemma xtime_bxor (a b : byte) :
  AES.xtime (bxor a b) = bxor (AES.xtime a) (AES.xtime b).
Proof.
  apply byte_eqb_eq. revert a b. apply byte_forall2.
  vm_compute. reflexivity.
Qed.

Lemma gmul_bits_bxor (n : nat) (a b : byte) (m : N) :
  AES.gmul_bits n (bxor a b) m
  = bxor (AES.gmul_bits n a m) (AES.gmul_bits n b m).
Proof.
  revert a b m. induction n as [|n IH]; intros a b m; cbn [AES.gmul_bits].
  - reflexivity.
  - rewrite xtime_bxor, IH.
    destruct (N.odd m).
    + apply bxor_interchange.
    + now rewrite !bxor_x00_l.
Qed.

(** Multiplication distributes over addition in GF(2^8). *)
Lemma gmul_bxor (a b k : byte) :
  AES.gmul (bxor a b) k = bxor (AES.gmul a k) (AES.gmul b k).
Proof. apply gmul_bits_bxor. Qed.

Lemma inv_sub_byte_sub_byte (b : byte) : AES.inv_sub_byte (AES.sub_byte b) = b.
Proof.
  apply byte_eqb_eq. revert b. apply byte_forall.
  vm_compute. reflexivity.
Qed.

Lemma inv_sub_bytes_sub_bytes (s : bytes) :
  AES.inv_sub_bytes (AES.sub_bytes s) = s.
Proof.
  unfold AES.inv_sub_bytes, AES.sub_bytes. rewrite map_map.
  rewrite <- (map_id s) at 2. apply map_ext, inv_sub_byte_sub_byte.
Qed.

(** A state of sixteen bytes, spelled out. *)
Ltac spell_out s H :=
  repeat (destruct s as [|? s]; [discriminate H|]);
  destruct s; [clear H | discriminate H].

Lemma inv_shift_rows_shift_rows (s : bytes) :
  length s = 16 -> AES.inv_shift_rows (AES.shift_rows s) = s.
Proof. intros H. spell_out s H. reflexivity. Qed.

Lemma length_shift_rows (s : bytes) : length (AES.shift_rows s) = 16.
Proof. reflexivity. Qed.

Lemma length_inv_shift_rows (s : bytes) : length (AES.inv_shift_rows s) = 16.
Proof. reflexivity. Qed.

Lemma length_sub_bytes (s : bytes) : length (AES.sub_bytes s) = length s.
Proof. apply length_map. Qed.

Lemma length_inv_sub_bytes (s : bytes) :
  length (AES.inv_sub_bytes s) = length s.
Proof. apply length_map. Qed.

Lemma inv_mix_column_bxor (p q r s p' q' r' s' : byte) :
  AES.inv_mix_column (bxor p p') (bxor q q') (bxor r r') (bxor s s')
  = xor_bytes (AES.inv_mix_column p q r s) (AES.inv_mix_column p' q' r' s').
Proof.
  unfold AES.inv_mix_column. cbn [xor_bytes].
  now rewrite !gmul_bxor, !bxor_interchange4.
Qed.

(** The inverse matrix applied to each column of the matrix. *)
Lemma inv_mix_column_basis (x : byte) :
  AES.inv_mix_column (AES.gmul x x02) x x (AES.gmul x x03) = [x; x00; x00; x00]
  /\ AES.inv_mix_column (AES.gmul x x03) (AES.gmul x x02) x x
     = [x00; x; x00; x00]
  /\ AES.inv_mix_column x (AES.gmul x x03) (AES.gmul x x02) x
     = [x00; x00; x; x00]
  /\ AES.inv_mix_column x x (AES.gmul x x03) (AES.gmul x x02)
     = [x00; x00; x00; x].
Proof.
  assert (H : forall a b : bytes, bytes_eqb a b = true -> a = b).
  { induction a as [|x' a IH]; intros [|y b] E; simpl in E;
      try discriminate; auto.
    apply andb_true_iff in E as [E1 E2].
    apply byte_eqb_eq in E1. subst. f_equal. auto. }
  repeat split; apply H; revert x; apply byte_forall;
    vm_compute; reflexivity.
Qed.

Lemma inv_mix_column_mix_column (a b c d : byte) :
  match AES.mix_column a b c d with
  | [m0; m1; m2; m3] => AES.inv_mix_column m0 m1 m2 m3
  | _ => []
  end = [a; b; c; d].
Proof.
  unfold AES.mix_column.
  rewrite !inv_mix_column_bxor.
  destruct (inv_mix_column_basis a) as (-> & _).
  destruct (inv_mix_column_basis b) as (_ & -> & _).
  destruct (inv_mix_column_basis c) as (_ & _ & -> & _).
  destruct (inv_mix_column_basis d) as (_ & _ & _ & ->).
  cbn [xor_bytes].
  now rewrite !bxor_x00_r, !bxor_x00_l.
Qed.

Lemma inv_mix_columns_mix_columns (s : bytes) :
  length s = 16 -> AES.inv_mix_columns (AES.mix_columns s) = s.
Proof.
  intros H. spell_out s H.
  cbn [AES.mix_columns].
  repeat match goal with
  | |- context [AES.mix_column ?a ?b ?c ?d] =>
      let E := fresh "E" in
      pose proof (inv_mix_column_mix_column a b c d) as E;
      destruct (AES.mix_column a b c d) as [|? [|? [|? [|? [|? ?]]]]];
      try discriminate E
  end.
  cbn [app AES.inv_mix_columns].
  repeat match goal with E : _ = _ |- _ => rewrite E; clear E end.
  reflexivity.
Qed.

Lemma length_mix_columns (s : bytes) :
  length s = 16 -> length (AES.mix_columns s) = 16.
Proof. intros H. spell_out s H. reflexivity. Qed.

Lemma length_inv_mix_columns (s : bytes) :
  length s = 16 -> length (AES.inv_mix_columns s) = 16.
Proof. intros H. spell_out s H. reflexivity. Qed.

Lemma add_round_key_cancel (s k : bytes) :
  length s = 16 -> length k = 16 ->
  AES.add_round_key (AES.add_round_key s k) k = s.
Proof.
  intros Hs Hk. apply xor_bytes_cancel_r. lia.
Qed.

Lemma length_add_round_key (s k : bytes) :
  length s = 16 -> length k = 16 -> length (AES.add_round_key s k) = 16.
Proof.
  intros Hs Hk. unfold AES.add_round_key.
  rewrite length_xor_bytes. lia.
Qed.

Lemma rounds_last (mids : list bytes) (kn s : bytes) :
  AES.rounds (mids ++ [kn]) s
  = AES.add_round_key
      (AES.shift_rows (AES.sub_bytes (fold_left full_round mids s))) kn.
Proof.
  revert s. induction mids as [|k mids IH]; intros s.
  - reflexivity.
  - change ((k :: mids) ++ [kn]) with (k :: (mids ++ [kn])).
    cbn [fold_left]. rewrite <- IH.
    destruct mids; reflexivity.
Qed.

Lemma inv_rounds_last (mids : list bytes) (k0 s : bytes) :
  AES.inv_rounds (mids ++ [k0]) s
  = AES.add_round_key
      (AES.inv_sub_bytes
         (AES.inv_shift_rows (fold_left inv_full_round mids s))) k0.
Proof.
  revert s. induction mids as [|k mids IH]; intros s.
  - reflexivity.
  - change ((k :: mids) ++ [k0]) with (k :: (mids ++ [k0])).
    cbn [fold_left]. rewrite <- IH.
    destruct mids; reflexivity.
Qed.

Lemma length_full_round (s k : bytes) :
  length s = 16 -> length k = 16 -> length (full_round s k) = 16.
Proof.
  intros Hs Hk. unfold full_round.
  apply length_add_round_key; [|assumption].
  apply length_mix_columns, length_shift_rows.
Qed.

Lemma length_fold_full_round (mids : list bytes) (s : bytes) :
  all16 mids -> length s = 16 ->
  length (fold_left full_round mids s) = 16.
Proof.
  intros Hm. revert s.
  induction Hm as [|k mids Hk Hm IH]; intros s Hs; cbn [fold_left].
  - assumption.
  - apply IH, length_full_round; assumption.
Qed.

Lemma inv_full_round_undo (u k : bytes) :
  length u = 16 -> length k = 16 ->
  inv_full_round (AES.shift_rows (AES.sub_bytes (full_round u k))) k
  = AES.shift_rows (AES.sub_bytes u).
Proof.
  intros Hu Hk. unfold inv_full_round, full_round.
  rewrite inv_shift_rows_shift_rows, inv_sub_bytes_sub_bytes.
  - rewrite add_round_key_cancel, inv_mix_columns_mix_columns;
      auto using length_shift_rows, length_mix_columns.
  - rewrite length_sub_bytes.
    apply length_add_round_key; [|assumption].
    apply length_mix_columns, length_shift_rows.
Qed.

Lemma inv_rounds_undo (mids : list bytes) (s : bytes) :
  all16 mids -> length s = 16 ->
  AES.inv_sub_bytes
    (AES.inv_shift_rows
       (fold_left inv_full_round (rev mids)
          (AES.shift_rows (AES.sub_bytes (fold_left full_round mids s)))))
  = s.
Proof.
  revert s. induction mids as [|k mids IH] using rev_ind; intros s Hm Hs.
  - cbn [rev fold_left].
    rewrite inv_shift_rows_shift_rows by now rewrite length_sub_bytes.
    apply inv_sub_bytes_sub_bytes.
  - apply Forall_app in Hm as [Hm Hk].
    apply Forall_inv in Hk.
    rewrite rev_app_distr, !fold_left_app. cbn [rev app fold_left].
    rewrite inv_full_round_undo by auto using length_fold_full_round.
    now apply IH.
Qed.

(** Decryption of a block undoes its encryption, whatever the round keys,
    so long as each has sixteen bytes. *)
Lemma inv_cipher_cipher (round_keys : list bytes) (input : bytes) :
  all16 round_keys -> length input = 16 ->
  AES.inv_cipher round_keys (AES.cipher round_keys input) = input.
Proof.
  intros Hk Hi.
  destruct round_keys as [|k0 ks]; [reflexivity|].
  apply Forall_cons_iff in Hk as [Hk0 Hks].
  unfold AES.cipher, AES.inv_cipher.
  destruct ks as [|k ks'] using rev_ind.
  - cbn [rev app AES.rounds AES.inv_rounds].
    now apply add_round_key_cancel.
  - clear IHks'.
    apply Forall_app in Hks as [Hmids Hkn]. apply Forall_inv in Hkn.
    change (rev (k0 :: ks' ++ [k])) with (rev (ks' ++ [k]) ++ [k0]).
    rewrite rev_app_distr. cbn [rev app].
    rewrite rounds_last, inv_rounds_last.
    assert (H0 : length (AES.add_round_key input k0) = 16)
      by now apply length_add_round_key.
    rewrite add_round_key_cancel by (assumption || apply length_shift_rows).
    rewrite inv_rounds_undo by assumption.
    now apply add_round_key_cancel.
Qed.

Lemma length_cipher (round_keys : list bytes) (input : bytes) :
  all16 round_keys -> length input = 16 ->
  length (AES.cipher round_keys input) = 16.
Proof.
  intros Hk Hi.
  destruct round_keys as [|k0 ks]; [assumption|].
  apply Forall_cons_iff in Hk as [Hk0 Hks].
  unfold AES.cipher.
  destruct ks as [|k ks'] using rev_ind.
  - now apply length_add_round_key.
  - apply Forall_app in Hks as [Hmids Hkn]. apply Forall_inv in Hkn.
    rewrite rounds_last.
    apply length_add_round_key; [apply length_shift_rows | assumption].
Qed.

(** *** The key schedule yields round keys of sixteen bytes *)

Lemma all4_nth (ws : list bytes) (i : nat) :
  all4 ws -> i < length ws -> length (nth i ws []) = 4.
Proof.
  intros H Hi. unfold all4 in H. rewrite Forall_forall in H.
  apply H, nth_In, Hi.
Qed.

Lemma length_rot_word (w : bytes) : length (AES.rot_word w) = length w.
Proof.
  destruct w; [reflexivity|].
  cbn [AES.rot_word]. rewrite length_app. simpl. lia.
Qed.

Lemma expand_words (n nk : nat) (ws : list bytes) :
  0 < nk -> nk <= length ws -> all4 ws ->
  all4 (AES.expand n nk ws) /\ length (AES.expand n nk ws) = n + length ws.
Proof.
  intros Hnk. revert ws.
  induction n as [|n IH]; intros ws Hlen Hws; cbn [AES.expand].
  - auto.
  - set (i := length ws).
    assert (Hlast : length (nth (i - 1) ws []) = 4)
      by (apply all4_nth; [assumption | unfold i; lia]).
    assert (Hprev : length (nth (i - nk) ws []) = 4)
      by (apply all4_nth; [assumption | unfold i; lia]).
    match goal with
    | |- context [AES.expand n nk (ws ++ [?w])] =>
        assert (Hw : length w = 4)
    end.
    { rewrite length_xor_bytes, Hprev.
      destruct (i mod nk =? 0).
      - rewrite length_xor_bytes. unfold AES.sub_word.
        rewrite length_map, length_rot_word, Hlast. reflexivity.
      - destruct ((6 <? nk) && (i mod nk =? 4)).
        + unfold AES.sub_word. rewrite length_map, Hlast. reflexivity.
        + rewrite Hlast. reflexivity. }
    destruct (IH (ws ++ [xor_bytes (nth (i - nk) ws [])
      (if i mod nk =? 0
       then xor_bytes (AES.sub_word (AES.rot_word (nth (i - 1) ws [])))
                      (AES.rcon (i / nk))
       else if (6 <? nk) && (i mod nk =? 4)
            then AES.sub_word (nth (i - 1) ws [])
            else nth (i - 1) ws [])])) as [IH1 IH2].
    + rewrite length_app. simpl. lia.
    + apply Forall_app. split; [assumption|].
      constructor; [exact Hw | constructor].
    + split; [exact IH1|].
      rewrite IH2, length_app. simpl. unfold i. lia.
Qed.

Lemma length_concat_all4 (ws : list bytes) :
  all4 ws -> length (concat ws) = 4 * length ws.
Proof.
  induction 1 as [|w ws Hw Hws IH]; [reflexivity|].
  cbn [concat]. rewrite length_app, IH, Hw. simpl. lia.
Qed.

Lemma key_expansion_all16 (key : bytes) :
  length key = 16 \/ length key = 24 \/ length key = 32 ->
  all16 (AES.key_expansion key).
Proof.
  intros Hlen. unfold AES.key_expansion.
  set (nk := length key / 4).
  assert (Hnk : length key = 4 * nk /\ 0 < nk).
  { unfold nk.
    destruct Hlen as [H | [H | H]]; rewrite H; split; cbn; lia. }
  destruct Hnk as [Hkey Hnk].
  set (w0 := map (fun i => firstn 4 (skipn (4 * i) key)) (seq 0 nk)).
  assert (Hw0 : all4 w0 /\ length w0 = nk).
  { unfold w0. split; [|now rewrite length_map, length_seq].
    apply Forall_forall. intros w Hin.
    apply in_map_iff in Hin as (i & <- & Hi). apply in_seq in Hi.
    rewrite length_firstn, length_skipn. lia. }
  destruct Hw0 as [Hw0 Hl0].
  destruct (expand_words (4 * (nk + 6 + 1) - nk) nk w0) as [Hw Hl];
    [lia | lia | assumption |].
  rewrite Hl0 in Hl.
  apply Forall_forall. intros k Hin.
  apply in_map_iff in Hin as (r & <- & Hr). apply in_seq in Hr.
  rewrite length_concat_all4.
  - rewrite length_firstn, length_skipn, Hl. lia.
  - unfold all4 in *. rewrite Forall_forall in *.
    intros w Hin. apply Hw.
    eapply in_skipn, in_firstn, Hin.
Qed.

Lemma AES_key_length (key : bytes) (alg : AES.algorithm) :
  AES.AES key = Ok alg ->
  AES.key alg = key
  /\ (length key = 16 \/ length key = 24 \/ length key = 32).
Proof.
  unfold AES.AES. intros H.
  destruct (length key =? 16) eqn:E1; [apply Nat.eqb_eq in E1|];
    (destruct (length key =? 24) eqn:E2; [apply Nat.eqb_eq in E2|]);
    (destruct (length key =? 32) eqn:E3; [apply Nat.eqb_eq in E3|]);
    cbn [orb] in H; inversion H; subst; auto.
Qed.

(** The block cipher under a valid key is a permutation of the sixteen-byte
    blocks, with [decrypt_block] as its inverse. *)
Lemma decrypt_encrypt_block (key : bytes) (alg : AES.algorithm) (b : bytes) :
  AES.AES key = Ok alg -> length b = 16 ->
  AES.decrypt_block alg (AES.encrypt_block alg b) = b
  /\ length (AES.encrypt_block alg b) = 16.
Proof.
  intros Halg Hb. apply AES_key_length in Halg as [Hkey Hlen].
  unfold AES.decrypt_block, AES.encrypt_block. rewrite Hkey.
  pose proof (key_expansion_all16 key Hlen).
  split; [now apply inv_cipher_cipher | now apply length_cipher].
Qed.

(** ** CBC mode *)

Section CBC.

Variables E D : bytes -> bytes.
Hypothesis D_E : forall b, length b = 16 -> D (E b) = b.
Hypothesis length_E : forall b, length b = 16 -> length (E b) = 16.

Lemma length_encrypt_blocks (n : nat) (chain data : bytes) :
  length chain = 16 -> length data = 16 * n ->
  length (fst (ciphers.encrypt_blocks E n chain data)) = 16 * n.
Proof.
  revert chain data.
  induction n as [|n IH]; intros chain data Hc Hd;
    cbn [ciphers.encrypt_blocks].
  - reflexivity.
  - set (c := E (xor_bytes (firstn 16 data) chain)).
    assert (Hlen : length c = 16).
    { apply length_E. rewrite length_xor_bytes, length_firstn. lia. }
    specialize (IH c (skipn 16 data) Hlen).
    destruct (ciphers.encrypt_blocks E n c (skipn 16 data)) as [out ch].
    cbn [fst] in *. rewrite length_app, IH, Hlen.
    + lia.
    + rewrite length_skipn. lia.
Qed.

Lemma decrypt_encrypt_blocks (n : nat) (chain data : bytes) :
  length chain = 16 -> length data = 16 * n ->
  fst (ciphers.decrypt_blocks D n chain
         (fst (ciphers.encrypt_blocks E n chain data)))
  = data.
Proof.
  revert chain data.
  induction n as [|n IH]; intros chain data Hc Hd;
    cbn [ciphers.encrypt_blocks].
  - destruct data; [reflexivity | discriminate Hd].
  - set (c := E (xor_bytes (firstn 16 data) chain)).
    assert (Hx : length (xor_bytes (firstn 16 data) chain) = 16)
      by (rewrite length_xor_bytes, length_firstn; lia).
    assert (Hlen : length c = 16) by now apply length_E.
    specialize (IH c (skipn 16 data) Hlen).
    destruct (ciphers.encrypt_blocks E n c (skipn 16 data)) as [out ch].
    cbn [fst] in *. cbn [ciphers.decrypt_blocks].
    rewrite firstn_app, skipn_app, Hlen, Nat.sub_diag, firstn_O, skipn_O.
    rewrite firstn_all2, skipn_all2, app_nil_r by lia.
    cbn [app].
    destruct (ciphers.decrypt_blocks D n c out) as [out' ch'].
    cbn [fst] in *.
    unfold c at 1. rewrite D_E by assumption.
    rewrite xor_bytes_cancel_r by (rewrite length_firstn; lia).
    rewrite IH by (rewrite length_skipn; lia).
    apply firstn_skipn.
Qed.

End CBC.

Lemma whole_blocks (data : bytes) :
  length data mod 16 = 0 ->
  length data = 16 * (length data / 16)
  /\ firstn (16 * (length data / 16)) data = data
  /\ skipn (16 * (length data / 16)) data = [].
Proof.
  intros H. destruct (div_mod_16 (length data)) as [Hd _].
  assert (Hl : length data = 16 * (length data / 16)) by lia.
  repeat split.
  - exact Hl.
  - apply firstn_all2. lia.
  - apply skipn_all2. lia.
Qed.

Lemma pending_blocks (data : bytes) :
  length data mod 16 <> 0 -> skipn (16 * (length data / 16)) data <> [].
Proof.
  intros H E. apply (f_equal (@length byte)) in E.
  rewrite length_skipn in E. cbn [length] in E.
  destruct (div_mod_16 (length data)). lia.
Qed.

(** Whole blocks are encrypted in a chain from the IV. *)
Lemma cbc_encrypt_whole (c : ciphers.Cipher) (data : bytes) :
  length data mod 16 = 0 ->
  cbc_encrypt c data
  = Ok (fst (ciphers.encrypt_blocks
               (AES.encrypt_block (ciphers.algorithm c))
               (length data / 16)
               (modes.initialization_vector (ciphers.mode c)) data)).
Proof.
  intros H. destruct (whole_blocks data H) as (_ & Hf & Hs).
  unfold cbc_encrypt, ciphers.encryptor_update, ciphers.encryptor.
  cbn [ciphers.pending ciphers.chain ciphers.cipher app].
  rewrite Hf, Hs.
  destruct (ciphers.encrypt_blocks _ _ _ _) as [out ch].
  cbn. now rewrite app_nil_r.
Qed.

Lemma cbc_decrypt_whole (c : ciphers.Cipher) (data : bytes) :
  length data mod 16 = 0 ->
  cbc_decrypt c data
  = Ok (fst (ciphers.decrypt_blocks
               (AES.decrypt_block (ciphers.algorithm c))
               (length data / 16)
               (modes.initialization_vector (ciphers.mode c)) data)).
Proof.
  intros H. destruct (whole_blocks data H) as (_ & Hf & Hs).
  unfold cbc_decrypt, ciphers.decryptor_update, ciphers.decryptor.
  cbn [ciphers.pending ciphers.chain ciphers.cipher app].
  rewrite Hf, Hs.
  destruct (ciphers.decrypt_blocks _ _ _ _) as [out ch].
  cbn. now rewrite app_nil_r.
Qed.

(** A trailing partial block makes [finalize] raise. *)
Lemma cbc_decrypt_partial (c : ciphers.Cipher) (data : bytes) :
  length data mod 16 <> 0 ->
  cbc_decrypt c data
  = Raise (ValueError
      "The length of the provided data is not a multiple of the block length.").
Proof.
  intros H. pose proof (pending_blocks data H) as Hp.
  unfold cbc_decrypt, ciphers.decryptor_update, ciphers.decryptor.
  cbn [ciphers.pending ciphers.chain ciphers.cipher app].
  destruct (ciphers.decrypt_blocks _ _ _ _) as [out ch].
  unfold ciphers.finalize. cbn [ciphers.pending].
  destruct (skipn (16 * (length data / 16)) data); [contradiction|].
  reflexivity.
Qed.

Lemma cbc_decrypt_nil (c : ciphers.Cipher) : cbc_decrypt c [] = Ok [].
Proof. reflexivity. Qed.

Lemma aes_cbc_ok (key iv : bytes) :
  length key = 32 -> length iv = 16 ->
  aes_cbc key iv
  = Ok {| ciphers.algorithm := AES.Algorithm key;
          ciphers.mode := {| modes.initialization_vector := iv |} |}.
Proof.
  intros Hk Hi. unfold aes_cbc, AES.AES, ciphers.new.
  rewrite Hk. cbn [Nat.eqb orb bind modes.initialization_vector].
  rewrite Hi. reflexivity.
Qed.

(** Under a 32-byte key and a 16-byte IV, CBC decryption undoes CBC
    encryption of whole blocks. *)
Lemma cbc_decrypt_encrypt (key iv data : bytes) (c : ciphers.Cipher) :
  length key = 32 -> length iv = 16 -> length data mod 16 = 0 ->
  aes_cbc key iv = Ok c ->
  exists encrypted,
    cbc_encrypt c data = Ok encrypted
    /\ length encrypted = length data
    /\ cbc_decrypt c encrypted = Ok data.
Proof.
  intros Hk Hi Hd Hc.
  rewrite aes_cbc_ok in Hc by assumption. inversion Hc; subst c; clear Hc.
  destruct (whole_blocks data Hd) as (Hl & _ & _).
  assert (Halg : AES.AES key = Ok (AES.Algorithm key))
    by (unfold AES.AES; rewrite Hk; reflexivity).
  set (alg := AES.Algorithm key) in *.
  assert (HD : forall b, length b = 16 ->
                 AES.decrypt_block alg (AES.encrypt_block alg b) = b)
    by (intros b Hb; apply (decrypt_encrypt_block key alg b Halg Hb)).
  assert (HE : forall b, length b = 16 ->
                 length (AES.encrypt_block alg b) = 16)
    by (intros b Hb; apply (decrypt_encrypt_block key alg b Halg Hb)).
  eexists. split; [apply cbc_encrypt_whole; assumption|].
  cbn [ciphers.algorithm ciphers.mode modes.initialization_vector].
  pose proof (length_encrypt_blocks _ HE (length data / 16) iv data Hi Hl)
    as Hlen.
  split; [lia|].
  rewrite cbc_decrypt_whole.
  - cbn [ciphers.algorithm ciphers.mode modes.initialization_vector].
    rewrite Hlen.
    replace (16 * (length data / 16) / 16) with (length data / 16)
      by (rewrite Nat.mul_comm, Nat.div_mul; lia).
    f_equal. now apply decrypt_encrypt_blocks.
  - rewrite Hlen, Nat.mul_comm. apply Nat.Div0.mod_mul.
Qed.

(** ** SHA-256, HMAC and PBKDF2 produce strings of the stated length *)

Lemma length_N_to_be (len : nat) (x : N) : length (N_to_be len x) = len.
Proof. unfold N_to_be. now rewrite length_map, length_seq. Qed.

Lemma length_sha256 (msg : bytes) : length (Sha2.sha256 msg) = 32.
Proof.
  unfold Sha2.sha256.
  destruct (Sha2.process _ _ _) as [[[[[[[a b] c] d] e] f] g] h].
  unfold Sha2.output. now rewrite !length_app, !length_N_to_be.
Qed.

Lemma length_hmac_sha256 (key msg : bytes) :
  length (HMAC.hmac hashes.SHA256 key msg) = 32.
Proof. apply length_sha256. Qed.

Lemma length_F_sha256 (password salt : bytes) (c i : N) :
  length (PBKDF2.F hashes.SHA256 password salt c i) = 32.
Proof.
  unfold PBKDF2.F.
  set (step := fun ut : bytes * bytes => _).
  set (u1 := HMAC.hmac _ _ _).
  enough (H : length (fst (N.iter (c - 1) step (u1, u1))) = 32
               /\ length (snd (N.iter (c - 1) step (u1, u1))) = 32)
    by apply H.
  apply (N.iter_invariant (c - 1) _ step
           (fun ut => length (fst ut) = 32 /\ length (snd ut) = 32)).
  - intros [u t] [Hu Ht]. unfold step. cbn [fst snd] in *.
    rewrite length_xor_bytes, Ht, !length_hmac_sha256. auto.
  - cbn [fst snd]. split; apply length_hmac_sha256.
Qed.

Lemma length_pbkdf2_sha256_32 (password salt : bytes) (c : N) :
  length (PBKDF2.pbkdf2 hashes.SHA256 password salt c 32) = 32.
Proof.
  unfold PBKDF2.pbkdf2. cbn [hashes.digest_size hashes.SHA256].
  change ((32 + 32 - 1) / 32) with 1.
  cbn [seq flat_map]. rewrite app_nil_r, length_firstn, length_F_sha256.
  reflexivity.
Qed.

(** ** The engine *)

(** The key derivation runs 100,000 rounds of HMAC; nothing below needs
    its value, only its length. *)
Opaque PBKDF2.pbkdf2.

Lemma encrypt_eq (self : SLE.t) (data : bytes) (src : RandomSource) :
  SLE.encrypt self data src
  = ('(salt, src1) <- urandom 16 src ;;
     '(iv, src2) <- urandom 16 src1 ;;
     key <- SLE._derive_key self salt ;;
     cipher <- aes_cbc key iv ;;
     encrypted <- cbc_encrypt cipher (pkcs7_pad (MAGIC_HEADER ++ data)) ;;
     Ok (salt ++ iv ++ encrypted, src2)).
Proof.
  unfold SLE.encrypt, aes_cbc, cbc_encrypt, pkcs7_pad.
  destruct (urandom 16 src) as [[salt src1]|]; [|reflexivity].
  cbn [bind].
  destruct (urandom 16 src1) as [[iv src2]|]; [|reflexivity].
  cbn [bind].
  destruct (SLE._derive_key self salt) as [key|]; [|reflexivity].
  change (PKCS7.PKCS7 128) with (Ok (PKCS7.Scheme 128)).
  cbn [bind].
  destruct (PKCS7.padder_update _ _) as [padder head].
  destruct (AES.AES key) as [alg|]; [|reflexivity].
  cbn [bind].
  destruct (ciphers.new alg _) as [cipher|]; [|reflexivity].
  cbn [bind].
  destruct (ciphers.encryptor_update _ _) as [encryptor body].
  destruct (ciphers.finalize encryptor); reflexivity.
Qed.

Lemma decrypt_recover (self : SLE.t) (encrypted_data : bytes) :
  SLE.decrypt self encrypted_data
  = (data <- recover self encrypted_data ;; strip_header data).
Proof.
  unfold SLE.decrypt, recover, aes_cbc, cbc_decrypt, pkcs7_unpad,
    strip_header.
  destruct (length encrypted_data <? 32); [reflexivity|].
  destruct (SLE._derive_key self _) as [key|]; [|reflexivity].
  cbn [bind].
  destruct (AES.AES key) as [alg|]; [|reflexivity].
  cbn [bind].
  destruct (ciphers.new alg _) as [cipher|]; [|reflexivity].
  cbn [bind].
  destruct (ciphers.decryptor_update _ _) as [decryptor body].
  destruct (ciphers.finalize decryptor) as [tail|]; [|reflexivity].
  change (PKCS7.PKCS7 128) with (Ok (PKCS7.Scheme 128)).
  cbn [bind].
  destruct (PKCS7.unpadder_update _ _) as [unpadder head].
  destruct (PKCS7.unpadder_finalize unpadder); reflexivity.
Qed.

Lemma derive_key_16 (self : SLE.t) (salt : bytes) :
  length salt = 16 ->
  SLE._derive_key self salt = Ok (derived_key (SLE.password self) salt).
Proof.
  intros H. unfold SLE._derive_key. rewrite H. reflexivity.
Qed.

Lemma derive_key_not_16 (self : SLE.t) (salt : bytes) :
  length salt <> 16 ->
  SLE._derive_key self salt
  = Raise (ValueError "Salt must be exactly 16 bytes.").
Proof.
  intros H. unfold SLE._derive_key.
  apply Nat.eqb_neq in H. rewrite H. reflexivity.
Qed.

Lemma length_derived_key (password salt : bytes) :
  length (derived_key password salt) = 32.
Proof. apply length_pbkdf2_sha256_32. Qed.

Lemma length_drawn (entropy : nat -> byte) (cursor : nat) :
  length (drawn entropy cursor) = 16.
Proof. unfold drawn. now rewrite length_map, length_seq. Qed.

Lemma sle_cipher_ok (password salt iv : bytes) :
  length iv = 16 ->
  aes_cbc (derived_key password salt) iv = Ok (sle_cipher password salt iv).
Proof.
  intros H. apply aes_cbc_ok; [apply length_derived_key | assumption].
Qed.

(** The parts of a blob. *)
Lemma blob_parts (salt iv encrypted : bytes) :
  length salt = 16 -> length iv = 16 ->
  length (salt ++ iv ++ encrypted) = 32 + length encrypted
  /\ firstn 16 (salt ++ iv ++ encrypted) = salt
  /\ firstn 16 (skipn 16 (salt ++ iv ++ encrypted)) = iv
  /\ skipn 32 (salt ++ iv ++ encrypted) = encrypted.
Proof.
  intros Hs Hi. repeat split.
  - rewrite !length_app. lia.
  - rewrite firstn_app, Hs, Nat.sub_diag, firstn_O, app_nil_r.
    apply firstn_all2. lia.
  - rewrite skipn_app, Hs, Nat.sub_diag, skipn_O, skipn_all2 by lia.
    cbn [app].
    rewrite firstn_app, Hi, Nat.sub_diag, firstn_O, app_nil_r.
    apply firstn_all2. lia.
  - assert (Hh : length (salt ++ iv) = 32) by (rewrite length_app; lia).
    rewrite app_assoc, skipn_app, Hh, Nat.sub_diag, skipn_O.
    rewrite skipn_all2 by lia. reflexivity.
Qed.

(** What [encrypt] returns when the random source delivers. *)
Lemma encrypt_tape (self : SLE.t) (data : bytes)
      (entropy : nat -> byte) (cursor : nat) :
  let salt := drawn entropy cursor in
  let iv := drawn entropy (cursor + 16) in
  let payload := pkcs7_pad (MAGIC_HEADER ++ data) in
  SLE.encrypt self data (Tape entropy cursor)
  = Ok (salt ++ iv ++ sle_ciphertext (SLE.password self) salt iv payload,
        Tape entropy (cursor + 16 + 16)).
Proof.
  intros salt iv payload.
  rewrite encrypt_eq. cbn [urandom bind]. fold salt iv.
  rewrite derive_key_16 by apply length_drawn. cbn [bind].
  rewrite sle_cipher_ok by apply length_drawn. cbn [bind].
  fold payload.
  rewrite cbc_encrypt_whole.
  - reflexivity.
  - unfold payload. rewrite length_pkcs7_pad, Nat.mul_comm.
    apply Nat.Div0.mod_mul.
Qed.

(** Without a random source [encrypt] raises before anything is derived. *)
Lemma encrypt_unavailable (self : SLE.t) (data : bytes) :
  SLE.encrypt self data Unavailable
  = Raise (NotImplementedError "randomness source not found").
Proof. reflexivity. Qed.

(** A blob made of a salt, an IV and the ciphertext of a padded payload
    is recovered to the payload without its padding. *)
Lemma recover_ciphertext (self : SLE.t) (salt iv data : bytes) :
  length salt = 16 -> length iv = 16 ->
  let payload := pkcs7_pad data in
  recover self
    (salt ++ iv ++ sle_ciphertext (SLE.password self) salt iv payload)
  = Ok data
  /\ length (sle_ciphertext (SLE.password self) salt iv payload)
     = length payload.
Proof.
  intros Hs Hi payload.
  remember (sle_ciphertext (SLE.password self) salt iv payload)
    as encrypted eqn:Henc.
  destruct (blob_parts salt iv encrypted Hs Hi) as (Hl & H1 & H2 & H3).
  assert (Hp : length payload mod 16 = 0).
  { unfold payload. rewrite length_pkcs7_pad, Nat.mul_comm.
    apply Nat.Div0.mod_mul. }
  destruct (cbc_decrypt_encrypt (derived_key (SLE.password self) salt) iv
              payload (sle_cipher (SLE.password self) salt iv))
    as (encrypted' & He & Hlen & Hd);
    auto using length_derived_key, sle_cipher_ok.
  rewrite cbc_encrypt_whole in He by assumption.
  assert (Heq : encrypted' = encrypted)
    by (injection He as <-; rewrite Henc; reflexivity).
  subst encrypted'. clear He.
  split; [|assumption].
  unfold recover.
  replace (length (salt ++ iv ++ encrypted) <? 32) with false
    by (symmetry; apply Nat.ltb_ge; lia).
  rewrite H1, H2, H3.
  rewrite derive_key_16 by assumption. cbn [bind].
  rewrite sle_cipher_ok by assumption. cbn [bind].
  rewrite Hd. cbn [bind].
  apply pkcs7_unpad_pad.
Qed.

Lemma strip_header_marked (data : bytes) :
  strip_header (MAGIC_HEADER ++ data) = Ok data.
Proof.
  unfold strip_header. rewrite startswith_app. cbn [negb].
  rewrite skipn_app, Nat.sub_diag, skipn_all. reflexivity.
Qed.

Lemma classify_too_short :
  classify (ValueError "Encrypted data is too short or corrupted.")
  = Some MalformedBlob.
Proof. reflexivity. Qed.

(** A blob of exactly 32 bytes has no ciphertext; the unpadder rejects the
    empty string. *)
Lemma decrypt_no_ciphertext (self : SLE.t) (blob : bytes) :
  length blob = 32 ->
  SLE.decrypt self blob = Raise (ValueError "Invalid padding bytes.").
Proof.
  intros H. rewrite decrypt_recover. unfold recover.
  rewrite H. cbn [Nat.ltb Nat.leb].
  rewrite derive_key_16 by (rewrite length_firstn; lia). cbn [bind].
  rewrite sle_cipher_ok
    by (rewrite length_firstn, length_skipn; lia).
  cbn [bind].
  rewrite (skipn_all2 (n := 32)) by lia.
  reflexivity.
Qed.

Lemma decrypt_too_short (self : SLE.t) (blob : bytes) :
  length blob < 32 ->
  SLE.decrypt self blob
  = Raise (ValueError "Encrypted data is too short or corrupted.").
Proof.
  intros H. unfold SLE.decrypt.
  apply Nat.ltb_lt in H. rewrite H. reflexivity.
Qed.

Lemma decrypt_partial_block (self : SLE.t) (blob : bytes) :
  32 <= length blob -> length (skipn 32 blob) mod 16 <> 0 ->
  SLE.decrypt self blob
  = Raise (ValueError
      "The length of the provided data is not a multiple of the block length.").
Proof.
  intros H Hm. rewrite decrypt_recover. unfold recover.
  replace (length blob <? 32) with false by (symmetry; apply Nat.ltb_ge; lia).
  rewrite derive_key_16 by (rewrite length_firstn; lia). cbn [bind].
  rewrite sle_cipher_ok
    by (rewrite length_firstn, length_skipn; lia).
  cbn [bind].
  rewrite cbc_decrypt_partial by assumption.
  reflexivity.
Qed.

Lemma fails_with_raise {A : Type} (e : exception) (k : SpecError) :
  classify e = Some k -> fails_with (@Raise A e) k.
Proof. intros H. exists e. auto. Qed.

Lemma fails_with_unique {A : Type} (r : result A) (k k' : SpecError) :
  fails_with r k -> fails_with r k' -> k = k'.
Proof.
  intros (e & -> & He) (e' & H & He'). congruence.
Qed.



(** ** The claims *)

(** C1. Round trip: for every plaintext [p] and every non-empty password
    [k], when the random source delivers, [encrypt] returns a blob from
    which [decrypt], in any engine holding the same password, returns
    exactly [p]. *)
Theorem decrypt_encrypt_roundtrip (k p : bytes)
        (entropy : nat -> byte) (cursor : nat) :
  k <> [] ->
  exists self blob src',
    SLE.__init__ (PyBytes k) = Ok self
    /\ SLE.encrypt self p (Tape entropy cursor) = Ok (blob, src')
    /\ SLE.decrypt self blob = Ok p
    /\ (forall other, SLE.password other = k ->
        SLE.decrypt other blob = Ok p).
Proof.
  intros _.
  do 3 eexists. split; [reflexivity|]. split; [apply encrypt_tape|].
  cbn [SLE.password].
  assert (H : forall other, SLE.password other = k ->
    SLE.decrypt other
      (drawn entropy cursor ++ drawn entropy (cursor + 16)
         ++ sle_ciphertext k (drawn entropy cursor)
              (drawn entropy (cursor + 16))
              (pkcs7_pad (MAGIC_HEADER ++ p)))
    = Ok p).
  { intros other Hk. rewrite decrypt_recover.
    destruct (recover_ciphertext other (drawn entropy cursor)
                (drawn entropy (cursor + 16)) (MAGIC_HEADER ++ p))
      as [Hr _]; try apply length_drawn.
    rewrite Hk in Hr. rewrite Hr.
    cbn [bind]. apply strip_header_marked. }
  split; [|exact H].
  now apply H.
Qed.

Lemma decrypt_encrypt_roundtrip_witness :
  bytes_of_string "correct-horse" <> []
  /\ exists self blob src',
       SLE.__init__ (PyBytes (bytes_of_string "correct-horse")) = Ok self
       /\ SLE.encrypt self (bytes_of_string "top secret") zero_tape
          = Ok (blob, src')
       /\ SLE.decrypt self blob = Ok (bytes_of_string "top secret").
Proof.
  assert (Hk : bytes_of_string "correct-horse" <> []) by discriminate.
  split; [exact Hk|].
  destruct (decrypt_encrypt_roundtrip (bytes_of_string "correct-horse")
              (bytes_of_string "top secret") (fun _ => x00) 0 Hk)
    as (self & blob & src' & Hi & He & Hd & _).
  exists self, blob, src'. split; [exact Hi|]. split; [exact He | exact Hd].
Defined.

(** C2, as amended. [decrypt] rejects a blob shorter than 32 bytes, and a
    blob whose ciphertext portion is not a whole number of 16-byte blocks,
    with a [MalformedBlob] error (the engine's own length check in the first
    case, the cipher's block-length check in the second); a blob of exactly
    32 bytes, whose ciphertext portion is empty, is rejected with
    [InvalidPadding]. *)
Theorem decrypt_malformed_blob (self : SLE.t) (blob : bytes) :
  (length blob < 32 -> fails_with (SLE.decrypt self blob) MalformedBlob)
  /\ (32 <= length blob -> length (skipn 32 blob) mod 16 <> 0 ->
      fails_with (SLE.decrypt self blob) MalformedBlob)
  /\ (length blob = 32 -> fails_with (SLE.decrypt self blob) InvalidPadding).
Proof.
  repeat split.
  - intros H. rewrite decrypt_too_short by assumption.
    now apply fails_with_raise.
  - intros H Hm. rewrite decrypt_partial_block by assumption.
    now apply fails_with_raise.
  - intros H. rewrite decrypt_no_ciphertext by assumption.
    now apply fails_with_raise.
Qed.

Lemma decrypt_malformed_blob_witness :
  (length (repeat x00 5) < 32
   /\ fails_with (SLE.decrypt correct_horse (repeat x00 5)) MalformedBlob)
  /\ (32 <= length (repeat x00 40)
      /\ length (skipn 32 (repeat x00 40)) mod 16 <> 0
      /\ fails_with (SLE.decrypt correct_horse (repeat x00 40)) MalformedBlob)
  /\ (length header_only_blob = 32
      /\ fails_with (SLE.decrypt correct_horse header_only_blob)
                    InvalidPadding).
Proof.
  assert (H5 : length (repeat x00 5) < 32) by (simpl; lia).
  assert (H40 : 32 <= length (repeat x00 40)) by (simpl; lia).
  assert (H8 : length (skipn 32 (repeat x00 40)) mod 16 <> 0)
    by (simpl; discriminate).
  assert (H32 : length header_only_blob = 32) by reflexivity.
  repeat split; try assumption.
  - exact (proj1 (decrypt_malformed_blob correct_horse (repeat x00 5)) H5).
  - exact (proj1 (proj2 (decrypt_malformed_blob correct_horse
                           (repeat x00 40))) H40 H8).
  - exact (proj2 (proj2 (decrypt_malformed_blob correct_horse
                           header_only_blob)) H32).
Defined.

(** C2, as stated, fails: the ciphertext portion of a 32-byte blob is empty,
    so its length is not a non-zero multiple of 16, yet [decrypt] does not
    fail with [MalformedBlob] on it (it fails with [InvalidPadding]). *)
Lemma decrypt_header_only_not_malformed :
  ~ (length (skipn 32 header_only_blob) <> 0
     /\ length (skipn 32 header_only_blob) mod 16 = 0)
  /\ ~ fails_with (SLE.decrypt correct_horse header_only_blob) MalformedBlob.
Proof.
  split.
  - intros [H _]. apply H. reflexivity.
  - intros H.
    assert (H' : fails_with (SLE.decrypt correct_horse header_only_blob)
                            InvalidPadding).
    { rewrite decrypt_no_ciphertext by reflexivity.
      now apply fails_with_raise. }
    pose proof (fails_with_unique _ _ _ H H'). discriminate.
Qed.

(** C3. The blob that [encrypt] returns is a 16-byte salt, a 16-byte IV and
    a ciphertext as long as the marker and the plaintext padded with 1 to
    16 bytes to a multiple of 16, so it has
    [32 + ceil ((len p + 7 + 1) / 16) * 16] bytes; for the ten bytes of
    [b"top secret"] that is 64. *)
Theorem encrypt_length (self : SLE.t) (p : bytes)
        (entropy : nat -> byte) (cursor : nat) :
  (exists salt iv ct src' pad,
      SLE.encrypt self p (Tape entropy cursor) = Ok (salt ++ iv ++ ct, src')
      /\ length salt = 16 /\ length iv = 16
      /\ length ct = 7 + length p + pad
      /\ 1 <= pad <= 16 /\ length ct mod 16 = 0
      /\ length (salt ++ iv ++ ct) = 32 + (length p + 7 + 1 + 15) / 16 * 16)
  /\ (exists blob src',
         SLE.encrypt self (bytes_of_string "top secret")
                     (Tape entropy cursor) = Ok (blob, src')
         /\ length blob = 64).
Proof.
  assert (H : forall q, exists salt iv ct src' pad,
    SLE.encrypt self q (Tape entropy cursor) = Ok (salt ++ iv ++ ct, src')
    /\ length salt = 16 /\ length iv = 16
    /\ length ct = 7 + length q + pad
    /\ 1 <= pad <= 16 /\ length ct mod 16 = 0
    /\ length (salt ++ iv ++ ct) = 32 + (length q + 7 + 1 + 15) / 16 * 16).
  { intros q.
    set (salt := drawn entropy cursor).
    set (iv := drawn entropy (cursor + 16)).
    set (payload := pkcs7_pad (MAGIC_HEADER ++ q)).
    exists salt, iv, (sle_ciphertext (SLE.password self) salt iv payload),
      (Tape entropy (cursor + 16 + 16)), (16 - (7 + length q) mod 16).
    assert (Hs : length salt = 16) by apply length_drawn.
    assert (Hi : length iv = 16) by apply length_drawn.
    destruct (recover_ciphertext self salt iv (MAGIC_HEADER ++ q) Hs Hi)
      as [_ Hlen].
    fold payload in Hlen.
    destruct (blob_parts salt iv
                (sle_ciphertext (SLE.password self) salt iv payload) Hs Hi)
      as [Hblob _].
    assert (Hm : length (MAGIC_HEADER ++ q) = 7 + length q)
      by (rewrite length_app; reflexivity).
    assert (Hp : length payload = 16 * ((7 + length q) / 16 + 1))
      by (unfold payload; rewrite length_pkcs7_pad, Hm; reflexivity).
    destruct (div_mod_16 (7 + length q)) as [Hd Hlt].
    split; [apply encrypt_tape|].
    split; [exact Hs|]. split; [exact Hi|].
    split; [lia|]. split; [lia|].
    split.
    - rewrite Hlen, Hp, Nat.mul_comm. apply Nat.Div0.mod_mul.
    - rewrite Hblob, Hlen, Hp.
      replace (length q + 7 + 1 + 15) with (7 + length q + 1 * 16) by lia.
      rewrite Nat.div_add by lia. lia. }
  split; [apply H|].
  destruct (H (bytes_of_string "top secret"))
    as (salt & iv & ct & src' & pad & He & _ & _ & _ & _ & _ & Hl).
  exists (salt ++ iv ++ ct), src'. split; [exact He | exact Hl].
Qed.

(** C4. Key derivation fails with [InvalidSaltLength] for every salt whose
    length is not 16, and for a 16-byte salt it returns a key and so does
    not raise that error. *)
Theorem derive_key_salt_length (self : SLE.t) (salt : bytes) :
  (length salt <> 16 ->
   fails_with (SLE._derive_key self salt) InvalidSaltLength)
  /\ (length salt = 16 ->
      (exists key, SLE._derive_key self salt = Ok key)
      /\ ~ fails_with (SLE._derive_key self salt) InvalidSaltLength).
Proof.
  split; intros H.
  - rewrite derive_key_not_16 by assumption. now apply fails_with_raise.
  - rewrite derive_key_16 by assumption. split.
    + eexists. reflexivity.
    + intros (e & He & _). discriminate He.
Qed.

Lemma derive_key_salt_length_witness :
  (length (@nil byte) <> 16
   /\ fails_with (SLE._derive_key correct_horse []) InvalidSaltLength)
  /\ (length (repeat x00 17) <> 16
      /\ fails_with (SLE._derive_key correct_horse (repeat x00 17))
                    InvalidSaltLength)
  /\ (length (repeat x00 16) = 16
      /\ exists key, SLE._derive_key correct_horse (repeat x00 16) = Ok key).
Proof.
  assert (H0 : length (@nil byte) <> 16) by discriminate.
  assert (H17 : length (repeat x00 17) <> 16) by discriminate.
  assert (H16 : length (repeat x00 16) = 16) by reflexivity.
  repeat split; try assumption.
  - exact (proj1 (derive_key_salt_length correct_horse []) H0).
  - exact (proj1 (derive_key_salt_length correct_horse (repeat x00 17)) H17).
  - exact (proj1 (proj2 (derive_key_salt_length correct_horse
                           (repeat x00 16)) H16)).
Defined.

(** C5. Once the padding has been removed, [decrypt] fails with
    [AuthenticationFailed] when the recovered bytes do not start with the
    marker, and returns exactly the bytes after the marker when they do. *)
Theorem decrypt_marker_check (self : SLE.t) (blob data : bytes) :
  recover self blob = Ok data ->
  (startswith data MAGIC_HEADER = false ->
   fails_with (SLE.decrypt self blob) AuthenticationFailed)
  /\ (forall rest, data = MAGIC_HEADER ++ rest ->
      SLE.decrypt self blob = Ok rest).
Proof.
  intros H. rewrite decrypt_recover, H. cbn [bind]. split.
  - intros Hs. unfold strip_header. rewrite Hs. cbn [negb].
    now apply fails_with_raise.
  - intros rest ->. apply strip_header_marked.
Qed.

Lemma decrypt_marker_check_witness :
  let self := correct_horse in
  let salt := repeat x00 16 in
  let iv := repeat x01 16 in
  let p := bytes_of_string "top secret" in
  SLE.decrypt self (blob_with_marker MAGIC_HEADER (SLE.password self) salt iv p)
  = Ok p
  /\ fails_with
       (SLE.decrypt self (blob_with_marker [] (SLE.password self) salt iv p))
       AuthenticationFailed.
Proof.
  intros self salt iv p.
  assert (Hs : length salt = 16) by reflexivity.
  assert (Hi : length iv = 16) by reflexivity.
  split.
  - exact (proj2 (decrypt_marker_check self
                    (blob_with_marker MAGIC_HEADER (SLE.password self)
                                      salt iv p)
                    (MAGIC_HEADER ++ p)
                    (proj1 (recover_ciphertext self salt iv
                              (MAGIC_HEADER ++ p) Hs Hi)))
                 p eq_refl).
  - exact (proj1 (decrypt_marker_check self
                    (blob_with_marker [] (SLE.password self) salt iv p)
                    p
                    (proj1 (recover_ciphertext self salt iv p Hs Hi)))
                 eq_refl).
Defined.

(** C6. For a 16-byte salt the derived key is PBKDF2 with HMAC over
    SHA-256, a hash of 256 bits, run for exactly 100,000 iterations and
    asked for exactly 32 bytes, which it delivers; and the key is a function
    of the password and the salt alone, so any engine holding the same
    password derives the same key from the same salt. *)
Theorem derive_key_pbkdf2 (self : SLE.t) (salt : bytes) :
  length salt = 16 ->
  exists key,
    SLE._derive_key self salt = Ok key
    /\ key = PBKDF2.pbkdf2 hashes.SHA256 (SLE.password self) salt 100000 32
    /\ hashes.digest_size hashes.SHA256 * 8 = 256
    /\ (forall msg, length (hashes.digest hashes.SHA256 msg) * 8 = 256)
    /\ length key = 32
    /\ (forall other,
          SLE.password other = SLE.password self ->
          SLE._derive_key other salt = Ok key).
Proof.
  intros H. exists (derived_key (SLE.password self) salt).
  split; [now apply derive_key_16|].
  split; [reflexivity|].
  split; [reflexivity|].
  split.
  { intros msg. cbn [hashes.digest hashes.SHA256].
    now rewrite length_sha256. }
  split; [apply length_derived_key|].
  intros other <-. now apply derive_key_16.
Qed.

Lemma derive_key_pbkdf2_witness :
  length (repeat x00 16) = 16
  /\ exists key,
       SLE._derive_key correct_horse (repeat x00 16) = Ok key
       /\ length key = 32.
Proof.
  assert (H16 : length (repeat x00 16) = 16) by reflexivity.
  split; [exact H16|].
  destruct (derive_key_pbkdf2 correct_horse (repeat x00 16) H16)
    as (key & Hk & _ & _ & _ & Hl & _).
  exists key. split; [exact Hk | exact Hl].
Defined.

(** *** Passwords that [_derive_key] does not tell apart

    HMAC brings its key to the 64 bytes of a SHA-256 block before use, and
    PBKDF2 uses the password as that key only. *)







(** C8. For every password and every plaintext, the empty ones included,
    the engine is constructed and [encrypt] returns a blob without raising,
    so long as the random source delivers. *)
Theorem encrypt_succeeds (k p : bytes) (entropy : nat -> byte) (cursor : nat) :
  exists self blob src',
    SLE.__init__ (PyBytes k) = Ok self
    /\ SLE.password self = k
    /\ SLE.encrypt self p (Tape entropy cursor) = Ok (blob, src').
Proof.
  do 3 eexists. split; [reflexivity|]. split; [reflexivity|].
  apply encrypt_tape.
Qed.

(** C9. The marker is exactly the seven bytes of [b"__SLE__"]: [encrypt]
    puts them in front of the plaintext before padding, [decrypt] demands
    them in front of what it recovers and strips them, and the blobs framed
    with a marker are decrypted to their plaintexts only if that marker is
    this very value. *)
Theorem magic_header_value :
  MAGIC_HEADER = [x5f; x5f; x53; x4c; x45; x5f; x5f]
  /\ MAGIC_HEADER = bytes_of_string "__SLE__"
  /\ length MAGIC_HEADER = 7
  /\ (forall self p entropy cursor,
        SLE.encrypt self p (Tape entropy cursor)
        = Ok (blob_with_marker (bytes_of_string "__SLE__")
                (SLE.password self) (drawn entropy cursor)
                (drawn entropy (cursor + 16)) p,
              Tape entropy (cursor + 16 + 16)))
  /\ (forall self blob data,
        recover self blob = Ok data ->
        SLE.decrypt self blob
        = if startswith data (bytes_of_string "__SLE__")
          then Ok (skipn 7 data)
          else Raise (ValueError "Invalid password or data corrupted."))
  /\ (forall marker,
        (forall self salt iv p,
            length salt = 16 -> length iv = 16 ->
            SLE.decrypt self
              (blob_with_marker marker (SLE.password self) salt iv p)
            = Ok p)
        <-> marker = bytes_of_string "__SLE__").
Proof.
  split; [reflexivity|]. split; [reflexivity|]. split; [reflexivity|].
  split; [|split].
  - intros self p entropy cursor. apply encrypt_tape.
  - intros self blob data H.
    rewrite decrypt_recover, H. cbn [bind]. unfold strip_header.
    change (bytes_of_string "__SLE__") with MAGIC_HEADER.
    destruct (startswith data MAGIC_HEADER); reflexivity.
  - intros marker.
    change (bytes_of_string "__SLE__") with MAGIC_HEADER.
    split.
    + intros H.
      specialize (H correct_horse (repeat x00 16) (repeat x00 16) []
                    eq_refl eq_refl).
      rewrite decrypt_recover in H. unfold blob_with_marker in H.
      destruct (recover_ciphertext correct_horse (repeat x00 16)
                  (repeat x00 16) (marker ++ []) eq_refl eq_refl)
        as [Hr _].
      rewrite Hr in H. cbn [bind] in H. rewrite app_nil_r in H.
      unfold strip_header in H.
      destruct (startswith marker MAGIC_HEADER) eqn:Hs;
        cbn [negb] in H; [|discriminate H].
      apply startswith_true in Hs.
      assert (Hk : skipn (length MAGIC_HEADER) marker = [])
        by (injection H; auto).
      rewrite Hk, app_nil_r in Hs. exact Hs.
    + intros -> self salt iv p Hs Hi.
      rewrite decrypt_recover. unfold blob_with_marker.
      destruct (recover_ciphertext self salt iv (MAGIC_HEADER ++ p) Hs Hi)
        as [-> _].
      cbn [bind]. apply strip_header_marked.
Qed.

Lemma magic_header_value_witness :
  length (repeat x00 16) = 16
  /\ SLE.decrypt correct_horse
       (blob_with_marker (bytes_of_string "__SLE__")
          (SLE.password correct_horse) (repeat x00 16) (repeat x00 16)
          (bytes_of_string "top secret"))
     = Ok (bytes_of_string "top secret").
Proof.
  assert (H16 : length (repeat x00 16) = 16) by reflexivity.
  split; [exact H16|].
  destruct magic_header_value as (_ & _ & _ & _ & _ & H).
  exact (proj2 (H (bytes_of_string "__SLE__")) eq_refl correct_horse
               (repeat x00 16) (repeat x00 16)
               (bytes_of_string "top secret") H16 H16).
Defined.

(** C10. Constructing the engine with anything but a [bytes] object raises
    [TypeError] and yields no engine, so no cryptographic operation can
    follow; with a [bytes] object, the empty one included, construction
    succeeds and the engine holds those very bytes. *)
Theorem init_password_type (password : pyobject) :
  (isinstance_bytes password = false ->
   SLE.__init__ password
   = Raise (TypeError "Password must be of type bytes."))
  /\ (forall b, password = PyBytes b ->
      exists self,
        SLE.__init__ password = Ok self /\ SLE.password self = b).
Proof.
  split.
  - intros H. destruct password; try reflexivity. discriminate H.
  - intros b ->. eexists. split; reflexivity.
Qed.

Lemma init_password_type_witness :
  (isinstance_bytes (PyStr "correct-horse") = false
   /\ SLE.__init__ (PyStr "correct-horse")
      = Raise (TypeError "Password must be of type bytes."))
  /\ (exists self,
         SLE.__init__ (PyBytes []) = Ok self /\ SLE.password self = [])
  /\ (exists self,
         SLE.__init__ (PyBytes (bytes_of_string "correct-horse")) = Ok self
         /\ SLE.password self = bytes_of_string "correct-horse").
Proof.
  assert (Hs : isinstance_bytes (PyStr "correct-horse") = false)
    by reflexivity.
  split; [split; [exact Hs|] | split].
  - exact (proj1 (init_password_type (PyStr "correct-horse")) Hs).
  - exact (proj2 (init_password_type (PyBytes [])) [] eq_refl).
  - exact (proj2 (init_password_type
                    (PyBytes (bytes_of_string "correct-horse")))
                 (bytes_of_string "correct-horse") eq_refl).
Defined.

(** * Around the engine: files, the [Cryptokey] class, the command line *)

From Stdlib Require Import Zify.

(** Linear arithmetic with division and remainder by constants. *)
Ltac dlia := zify; Z.to_euclidean_division_equations; lia.

(** ** UTF-8 *)

Lemma to_N_byte_of_N_small (n : N) :
  (n < 256)%N -> Byte.to_N (byte_of_N n) = n.
Proof.
  intros H. rewrite to_N_byte_of_N. now apply N.mod_small.
Qed.

Lemma str_eqb_eq (a b : str) : str_eqb a b = true <-> a = b.
Proof.
  revert b. induction a as [|x a IH]; intros [|y b]; simpl;
    try (split; [discriminate | discriminate]); try tauto.
  rewrite andb_true_iff, N.eqb_eq, IH.
  split; [intros [-> ->]; reflexivity | intros H; injection H; auto].
Qed.

Lemma str_eqb_refl (a : str) : str_eqb a a = true.
Proof. now apply str_eqb_eq. Qed.

Lemma str_eqb_neq (a b : str) : str_eqb a b = false <-> a <> b.
Proof.
  split.
  - intros H E. apply str_eqb_eq in E. congruence.
  - intros H. destruct (str_eqb a b) eqn:E; [|reflexivity].
    apply str_eqb_eq in E. contradiction.
Qed.

(** The decoder, one leading byte at a time. *)
Lemma utf8_decode_1 (b0 : byte) (r : bytes) :
  (Byte.to_N b0 < 0x80)%N ->
  utf8_decode (b0 :: r) = option_map (cons (Byte.to_N b0)) (utf8_decode r).
Proof.
  intros H. cbn [utf8_decode].
  destruct (N.ltb_spec (Byte.to_N b0) 0x80); [reflexivity | lia].
Qed.

Lemma utf8_decode_2 (b0 b1 : byte) (r : bytes) :
  (0xC2 <= Byte.to_N b0 < 0xE0)%N ->
  utf8_decode (b0 :: b1 :: r)
  = if is_continuation b1
    then option_map (cons ((Byte.to_N b0 - 0xC0) * 64 + payload b1)%N)
                    (utf8_decode r)
    else None.
Proof.
  intros H. cbn [utf8_decode].
  destruct (N.ltb_spec (Byte.to_N b0) 0x80); [lia|].
  destruct (N.ltb_spec (Byte.to_N b0) 0xC2); [lia|].
  destruct (N.ltb_spec (Byte.to_N b0) 0xE0); [reflexivity | lia].
Qed.

Lemma utf8_decode_3 (b0 b1 b2 : byte) (r : bytes) :
  (0xE0 <= Byte.to_N b0 < 0xF0)%N ->
  utf8_decode (b0 :: b1 :: b2 :: r)
  = let c := ((Byte.to_N b0 - 0xE0) * 4096 + payload b1 * 64
              + payload b2)%N in
    if is_continuation b1 && is_continuation b2
       && (0x800 <=? c)%N && negb (is_surrogate c)
    then option_map (cons c) (utf8_decode r)
    else None.
Proof.
  intros H. cbn [utf8_decode].
  destruct (N.ltb_spec (Byte.to_N b0) 0x80); [lia|].
  destruct (N.ltb_spec (Byte.to_N b0) 0xC2); [lia|].
  destruct (N.ltb_spec (Byte.to_N b0) 0xE0); [lia|].
  destruct (N.ltb_spec (Byte.to_N b0) 0xF0); [reflexivity | lia].
Qed.

Lemma utf8_decode_4 (b0 b1 b2 b3 : byte) (r : bytes) :
  (0xF0 <= Byte.to_N b0 < 0xF5)%N ->
  utf8_decode (b0 :: b1 :: b2 :: b3 :: r)
  = let c := ((Byte.to_N b0 - 0xF0) * 262144 + payload b1 * 4096
              + payload b2 * 64 + payload b3)%N in
    if is_continuation b1 && is_continuation b2 && is_continuation b3
       && (0x10000 <=? c)%N && (c <? 0x110000)%N
    then option_map (cons c) (utf8_decode r)
    else None.
Proof.
  intros H. cbn [utf8_decode].
  destruct (N.ltb_spec (Byte.to_N b0) 0x80); [lia|].
  destruct (N.ltb_spec (Byte.to_N b0) 0xC2); [lia|].
  destruct (N.ltb_spec (Byte.to_N b0) 0xE0); [lia|].
  destruct (N.ltb_spec (Byte.to_N b0) 0xF0); [lia|].
  destruct (N.ltb_spec (Byte.to_N b0) 0xF5); [reflexivity | lia].
Qed.

Lemma continuation_byte (y : N) :
  is_continuation (byte_of_N (0x80 + y mod 64)) = true
  /\ payload (byte_of_N (0x80 + y mod 64)) = (y mod 64)%N.
Proof.
  unfold is_continuation, payload.
  rewrite to_N_byte_of_N_small by dlia.
  split.
  - apply andb_true_iff. split; [apply N.leb_le | apply N.ltb_lt]; dlia.
  - dlia.
Qed.

Lemma continuation_inv (b : byte) :
  is_continuation b = true ->
  byte_of_N (0x80 + payload b) = b.
Proof.
  unfold is_continuation, payload. intros H.
  apply andb_true_iff in H as [H1 H2].
  apply N.leb_le in H1. apply N.ltb_lt in H2.
  replace (0x80 + Byte.to_N b mod 64)%N with (Byte.to_N b) by dlia.
  apply byte_of_to_N.
Qed.

Lemma is_surrogate_spec (c : N) :
  is_surrogate c = true <-> (0xD800 <= c < 0xE000)%N.
Proof.
  unfold is_surrogate. rewrite andb_true_iff, N.leb_le, N.ltb_lt. tauto.
Qed.

(** A code point is encoded unless it is a surrogate (or no code point). *)
Lemma utf8_char_none (c : N) :
  utf8_char c = None <-> is_surrogate c = true \/ (0x110000 <= c)%N.
Proof.
  unfold utf8_char.
  destruct (N.ltb_spec c 0x80).
  { split; [discriminate|]. intros [H'|H']; [|lia].
    apply is_surrogate_spec in H'. lia. }
  destruct (N.ltb_spec c 0x800).
  { split; [discriminate|]. intros [H'|H']; [|lia].
    apply is_surrogate_spec in H'. lia. }
  destruct (N.ltb_spec c 0x10000).
  { destruct (is_surrogate c) eqn:E.
    - split; auto.
    - split; [discriminate|]. intros [H'|H']; [discriminate | lia]. }
  destruct (N.ltb_spec c 0x110000).
  { split; [discriminate|]. intros [H'|H']; [|lia].
    apply is_surrogate_spec in H'. lia. }
  split; auto.
Qed.

Lemma some_inj {A : Type} (a b : A) : Some a = Some b -> a = b.
Proof. congruence. Qed.

(** Decoding what one code point was encoded to gives the code point. *)
Lemma utf8_decode_char (c : N) (b rest : bytes) :
  utf8_char c = Some b ->
  utf8_decode (b ++ rest) = option_map (cons c) (utf8_decode rest).
Proof.
  unfold utf8_char.
  destruct (N.ltb_spec c 0x80).
  { intros E. apply some_inj in E. subst b. cbn [app].
    rewrite utf8_decode_1; rewrite to_N_byte_of_N_small by lia;
      [reflexivity | lia]. }
  destruct (N.ltb_spec c 0x800).
  { intros E. apply some_inj in E. subst b. cbn [app].
    rewrite utf8_decode_2 by (rewrite to_N_byte_of_N_small; dlia).
    destruct (continuation_byte c) as [-> ->].
    rewrite to_N_byte_of_N_small by dlia.
    do 2 f_equal. dlia. }
  destruct (N.ltb_spec c 0x10000).
  { destruct (is_surrogate c) eqn:Es; [discriminate|].
    intros E. apply some_inj in E. subst b. cbn [app].
    rewrite utf8_decode_3 by (rewrite to_N_byte_of_N_small; dlia).
    cbv zeta.
    destruct (continuation_byte c) as [-> ->].
    destruct (continuation_byte (c / 64)) as [-> ->].
    rewrite to_N_byte_of_N_small by dlia.
    replace ((0xE0 + c / 4096 - 0xE0) * 4096 + (c / 64) mod 64 * 64
             + c mod 64)%N with c by dlia.
    rewrite Es.
    replace (0x800 <=? c)%N with true by (symmetry; apply N.leb_le; lia).
    reflexivity. }
  destruct (N.ltb_spec c 0x110000); [|discriminate].
  intros E. apply some_inj in E. subst b. cbn [app].
  rewrite utf8_decode_4 by (rewrite to_N_byte_of_N_small; dlia).
  cbv zeta.
  destruct (continuation_byte c) as [-> ->].
  destruct (continuation_byte (c / 64)) as [-> ->].
  destruct (continuation_byte (c / 4096)) as [-> ->].
  rewrite to_N_byte_of_N_small by dlia.
  replace ((0xF0 + c / 262144 - 0xF0) * 262144 + (c / 4096) mod 64 * 4096
           + (c / 64) mod 64 * 64 + c mod 64)%N with c by dlia.
  replace (0x10000 <=? c)%N with true by (symmetry; apply N.leb_le; lia).
  replace (c <? 0x110000)%N with true by (symmetry; apply N.ltb_lt; lia).
  reflexivity.
Qed.

Lemma encode_from_decode (start : nat) (s : str) (b : bytes) :
  encode_from start s = Return b -> utf8_decode b = Some s.
Proof.
  revert start b. induction s as [|c s IH]; intros start b H;
    cbn [encode_from] in H.
  - injection H as <-. reflexivity.
  - destruct (utf8_char c) as [bc|] eqn:Ec; [|discriminate].
    destruct (encode_from (S start) s) as [bs|] eqn:Es; [|discriminate].
    cbn [obind] in H. injection H as <-.
    rewrite (utf8_decode_char c bc bs Ec), (IH _ _ Es). reflexivity.
Qed.

Lemma utf8_char_1 (b0 : byte) :
  (Byte.to_N b0 < 0x80)%N -> utf8_char (Byte.to_N b0) = Some [b0].
Proof.
  intros H. unfold utf8_char.
  destruct (N.ltb_spec (Byte.to_N b0) 0x80); [|lia].
  now rewrite byte_of_to_N.
Qed.

Lemma utf8_char_2 (b0 b1 : byte) :
  (0xC2 <= Byte.to_N b0 < 0xE0)%N -> is_continuation b1 = true ->
  utf8_char ((Byte.to_N b0 - 0xC0) * 64 + payload b1) = Some [b0; b1].
Proof.
  intros H0 H1. rewrite <- (continuation_inv b1 H1) at 2.
  rewrite <- (byte_of_to_N b0) at 2.
  assert (Hp : (payload b1 < 64)%N) by (unfold payload; dlia).
  set (p := payload b1) in *. set (n := Byte.to_N b0) in *.
  clearbody p n.
  unfold utf8_char.
  destruct (N.ltb_spec ((n - 0xC0) * 64 + p) 0x80); [lia|].
  destruct (N.ltb_spec ((n - 0xC0) * 64 + p) 0x800); [|lia].
  repeat (f_equal; try dlia).
Qed.

Lemma utf8_char_3 (b0 b1 b2 : byte) :
  let c := ((Byte.to_N b0 - 0xE0) * 4096 + payload b1 * 64 + payload b2)%N in
  (0xE0 <= Byte.to_N b0 < 0xF0)%N ->
  is_continuation b1 = true -> is_continuation b2 = true ->
  (0x800 <= c)%N -> is_surrogate c = false ->
  utf8_char c = Some [b0; b1; b2].
Proof.
  intros c H0 H1 H2 Hc Hs.
  rewrite <- (continuation_inv b1 H1), <- (continuation_inv b2 H2) at 1.
  rewrite <- (byte_of_to_N b0) at 1.
  assert (Hp1 : (payload b1 < 64)%N) by (unfold payload; dlia).
  assert (Hp2 : (payload b2 < 64)%N) by (unfold payload; dlia).
  unfold utf8_char. rewrite Hs. subst c.
  set (p1 := payload b1) in *. set (p2 := payload b2) in *.
  set (n := Byte.to_N b0) in *.
  clearbody p1 p2 n.
  destruct (N.ltb_spec ((n - 0xE0) * 4096 + p1 * 64 + p2) 0x80); [lia|].
  destruct (N.ltb_spec ((n - 0xE0) * 4096 + p1 * 64 + p2) 0x800); [lia|].
  destruct (N.ltb_spec ((n - 0xE0) * 4096 + p1 * 64 + p2) 0x10000); [|lia].
  repeat (f_equal; try dlia).
Qed.

Lemma utf8_char_4 (b0 b1 b2 b3 : byte) :
  let c := ((Byte.to_N b0 - 0xF0) * 262144 + payload b1 * 4096
            + payload b2 * 64 + payload b3)%N in
  (0xF0 <= Byte.to_N b0 < 0xF5)%N ->
  is_continuation b1 = true -> is_continuation b2 = true ->
  is_continuation b3 = true ->
  (0x10000 <= c < 0x110000)%N ->
  utf8_char c = Some [b0; b1; b2; b3].
Proof.
  intros c H0 H1 H2 H3 Hc.
  rewrite <- (continuation_inv b1 H1), <- (continuation_inv b2 H2),
    <- (continuation_inv b3 H3) at 1.
  rewrite <- (byte_of_to_N b0) at 1.
  assert (Hp1 : (payload b1 < 64)%N) by (unfold payload; dlia).
  assert (Hp2 : (payload b2 < 64)%N) by (unfold payload; dlia).
  assert (Hp3 : (payload b3 < 64)%N) by (unfold payload; dlia).
  unfold utf8_char. subst c.
  set (p1 := payload b1) in *. set (p2 := payload b2) in *.
  set (p3 := payload b3) in *. set (n := Byte.to_N b0) in *.
  clearbody p1 p2 p3 n.
  set (c := ((n - 0xF0) * 262144 + p1 * 4096 + p2 * 64 + p3)%N) in *.
  destruct (N.ltb_spec c 0x80); [lia|].
  destruct (N.ltb_spec c 0x800); [lia|].
  destruct (N.ltb_spec c 0x10000); [lia|].
  destruct (N.ltb_spec c 0x110000); [|lia].
  subst c.
  repeat (f_equal; try dlia).
Qed.

(** Resolves the comparisons of the decoder on a leading byte. *)
Ltac leading_byte H :=
  cbn [utf8_decode] in H;
  repeat match type of H with
         | context [(Byte.to_N ?b <? ?k)%N] =>
             destruct (N.ltb_spec (Byte.to_N b) k); try lia
         end.

(** Encoding what was decoded gives back the bytes: the decoder accepts
    shortest forms only. *)
Lemma utf8_decode_encode (b : bytes) (s : str) (start : nat) :
  utf8_decode b = Some s -> encode_from start s = Return b.
Proof.
  remember (length b) as n eqn:Hn.
  assert (Hlen : length b <= n) by lia. clear Hn.
  revert b s start Hlen.
  induction n as [|n IH]; intros b s start Hlen H.
  - destruct b; [|simpl in Hlen; lia].
    apply some_inj in H. subst s. reflexivity.
  - destruct b as [|b0 r0].
    { apply some_inj in H. subst s. reflexivity. }
    cbn [length] in Hlen.
    destruct (N.ltb_spec (Byte.to_N b0) 0x80) as [L1|L1].
    { rewrite utf8_decode_1 in H by assumption.
      destruct (utf8_decode r0) as [s'|] eqn:E; [|discriminate].
      apply some_inj in H. subst s.
      cbn [encode_from]. rewrite utf8_char_1 by assumption.
      rewrite (IH r0 s') by (assumption || lia). reflexivity. }
    destruct (N.ltb_spec (Byte.to_N b0) 0xC2) as [L2|L2].
    { leading_byte H. discriminate. }
    destruct (N.ltb_spec (Byte.to_N b0) 0xE0) as [L3|L3].
    { destruct r0 as [|b1 r1]; [leading_byte H; discriminate|].
      rewrite utf8_decode_2 in H by lia.
      destruct (is_continuation b1) eqn:C1; [|discriminate].
      destruct (utf8_decode r1) as [s'|] eqn:E; [|discriminate].
      apply some_inj in H. subst s.
      cbn [encode_from]. rewrite utf8_char_2 by (assumption || lia).
      cbn [length] in Hlen.
      rewrite (IH r1 s') by (assumption || lia). reflexivity. }
    destruct (N.ltb_spec (Byte.to_N b0) 0xF0) as [L4|L4].
    { destruct r0 as [|b1 [|b2 r2]]; try (leading_byte H; discriminate).
      rewrite utf8_decode_3 in H by lia. cbv zeta in H.
      destruct (is_continuation b1) eqn:C1; [|discriminate].
      destruct (is_continuation b2) eqn:C2; [|discriminate].
      cbn [andb] in H.
      match type of H with
      | context [(0x800 <=? ?c)%N] =>
          destruct (N.leb_spec 0x800 c) as [Hc|Hc]; [|discriminate];
          destruct (is_surrogate c) eqn:Hs; [discriminate|]
      end.
      cbn [andb negb] in H.
      destruct (utf8_decode r2) as [s'|] eqn:E; [|discriminate].
      apply some_inj in H. subst s.
      cbn [encode_from].
      rewrite (utf8_char_3 b0 b1 b2) by (assumption || lia).
      cbn [length] in Hlen.
      rewrite (IH r2 s') by (assumption || lia). reflexivity. }
    destruct (N.ltb_spec (Byte.to_N b0) 0xF5) as [L5|L5].
    { destruct r0 as [|b1 [|b2 [|b3 r3]]];
        try (leading_byte H; discriminate).
      rewrite utf8_decode_4 in H by lia. cbv zeta in H.
      destruct (is_continuation b1) eqn:C1; [|discriminate].
      destruct (is_continuation b2) eqn:C2; [|discriminate].
      destruct (is_continuation b3) eqn:C3; [|discriminate].
      cbn [andb] in H.
      match type of H with
      | context [(0x10000 <=? ?c)%N] =>
          destruct (N.leb_spec 0x10000 c) as [Hc|Hc]; [|discriminate];
          destruct (N.ltb_spec c 0x110000) as [Hd|Hd]; [|discriminate]
      end.
      cbn [andb] in H.
      destruct (utf8_decode r3) as [s'|] eqn:E; [|discriminate].
      apply some_inj in H. subst s.
      cbn [encode_from].
      rewrite (utf8_char_4 b0 b1 b2 b3) by (assumption || lia).
      cbn [length] in Hlen.
      rewrite (IH r3 s') by (assumption || lia). reflexivity. }
    leading_byte H. discriminate.
Qed.

Example utf8_encode_python :
  encode [0xE9; 0x20AC; 0x1F600; 0; 0x7F; 0x80; 0x7FF; 0x800; 0xFFFF;
          0x10000; 0x10FFFF]%N
  = Return (hex "c3a9e282acf09f9880007fc280dfbfe0a080efbfbff0908080f48fbfbf").
Proof. vm_compute. reflexivity. Qed.

Example utf8_decode_python :
  decode (hex "c3a9e282acf09f9880007fc280dfbfe0a080efbfbff0908080f48fbfbf")
  = Return [0xE9; 0x20AC; 0x1F600; 0; 0x7F; 0x80; 0x7FF; 0x800; 0xFFFF;
            0x10000; 0x10FFFF]%N
  /\ decode (hex "efbbbf61") = Return [0xFEFF; 0x61]%N.
Proof. split; vm_compute; reflexivity. Qed.

Example utf8_decode_rejects :
  map decode
      [hex "c080"; hex "eda080"; hex "f4908080"; hex "e282"; hex "80";
       hex "e09fbf"; hex "f08fbfbf"; hex "c1bf"; hex "f5808080"]
  = repeat (Throw UnicodeDecodeError) 9.
Proof. vm_compute. reflexivity. Qed.

Example utf8_encode_surrogate :
  encode [0x61; 0xD800; 0xDFFF]%N = Throw (UnicodeEncodeError 1).
Proof. reflexivity. Qed.

Example translate_newlines_python :
  translate_newlines [97; 13; 10; 98; 13; 99; 10; 13; 10; 13]%N
  = [97; 10; 98; 10; 99; 10; 10; 10]%N.
Proof. reflexivity. Qed.

Example pathlib_python :
  map (fun v => (Path_name (str_lit v), Path_suffix (str_lit v)))
      ["a/."; "x.ac.esc/."; ".ac.esc"; "x.ac.esc/.."; "//x.ac.esc";
       "x.ac.esc."; "x..esc"; "/"; "a//b.ac.esc"; ""]
  = map (fun p => (str_lit (fst p), str_lit (snd p)))
      [("a", ""); ("x.ac.esc", ".esc"); (".ac.esc", ".esc"); ("..", "");
       ("x.ac.esc", ".esc"); ("x.ac.esc.", ""); ("x..esc", ".esc");
       ("", ""); ("b.ac.esc", ".esc"); ("", "")].
Proof. vm_compute. reflexivity. Qed.

(** The product [k / 2^53 * 89] that lies half a unit in the last place
    below 4 is rounded up to 4 before the floor is taken. *)
Example floor_mul_python :
  floor_mul 404817944033303 89 = 4%N
  /\ (404817944033303 * 89 / 2 ^ 53 = 3)%N
  /\ floor_mul 9007199254740991 89 = 88%N
  /\ floor_mul 9007199254740991 62 = 61%N
  /\ floor_mul 4503599627370496 89 = 44%N
  /\ floor_mul 123456789012345 62 = 0%N.
Proof. vm_compute. repeat split. Qed.

Example choices_python :
  let g := {| outputs := fun i =>
                nth i [3626764237; 1654615998; 3255389356; 3823568514;
                       1806341205; 173879092; 1112038970; 4146640122]%N 0%N;
              taken := 0 |} in
  option_map fst
    (match Cryptokey.generate_password
             {| Cryptokey.password := []; Cryptokey.toml_code := [];
                Cryptokey.file_name := []; Cryptokey.sle := correct_horse |}
             4 true g with
     | Return r => Some r
     | Throw _ => None
     end)
  = Some (str_lit "+^Lx").
Proof. vm_compute. reflexivity. Qed.

(** ** The file system *)

Lemma entries_store (fs : FileSystem) (path : str) (data : bytes) :
  entries (store fs path data) path = Some (File data)
  /\ (forall p, p <> path -> entries (store fs path data) p = entries fs p).
Proof.
  unfold store. cbn [entries]. split.
  - now rewrite str_eqb_refl.
  - intros p Hp. apply str_eqb_neq in Hp. now rewrite Hp.
Qed.

Lemma write_bytes_ok (fs : FileSystem) (path : str) (data : bytes) :
  wb_error fs path = None -> entries fs path <> Some Directory ->
  write_bytes fs path data = Return (store fs path data).
Proof.
  intros Hw Hd. unfold write_bytes. rewrite Hw.
  destruct (entries fs path) as [[c|]|]; try reflexivity.
  now contradiction Hd.
Qed.

Lemma write_bytes_inv (fs fs' : FileSystem) (path : str) (data : bytes) :
  write_bytes fs path data = Return fs' ->
  fs' = store fs path data
  /\ wb_error fs path = None /\ entries fs path <> Some Directory.
Proof.
  unfold write_bytes. intros H.
  destruct (wb_error fs path); [discriminate|].
  destruct (entries fs path) as [[c|]|]; try discriminate;
    injection H as <-; repeat split; discriminate.
Qed.

Lemma read_bytes_store (fs : FileSystem) (path : str) (data : bytes) :
  rb_error fs path = None ->
  read_bytes (store fs path data) path = Return data.
Proof.
  intros H. unfold read_bytes. cbn [rb_error store]. rewrite H.
  destruct (entries_store fs path data) as [-> _]. reflexivity.
Qed.

(** ** [SLE.generate_file] and [SLE.read_file] *)

Lemma encrypt_on_tape (self : SLE.t) (data : bytes)
      (entropy : nat -> byte) (cursor : nat) :
  SLE.encrypt self data (Tape entropy cursor)
  = Ok (blob_on_tape self data entropy cursor,
        Tape entropy (cursor + 16 + 16)).
Proof. apply encrypt_tape. Qed.

Lemma decrypt_blob_on_tape (self other : SLE.t) (data : bytes)
      (entropy : nat -> byte) (cursor : nat) :
  SLE.password other = SLE.password self ->
  SLE.decrypt other (blob_on_tape self data entropy cursor) = Ok data.
Proof.
  intros Hp. rewrite decrypt_recover.
  unfold blob_on_tape, blob_with_marker. rewrite <- Hp.
  destruct (recover_ciphertext other (drawn entropy cursor)
              (drawn entropy (cursor + 16)) (MAGIC_HEADER ++ data))
    as [-> _]; try apply length_drawn.
  cbn [bind]. apply strip_header_marked.
Qed.

Lemma generate_file_ok (self : SLE.t) (filename : str) (data : bytes)
      (fs : FileSystem) (entropy : nat -> byte) (cursor : nat) :
  wb_error fs filename = None -> entries fs filename <> Some Directory ->
  SLE.generate_file self filename data fs (Tape entropy cursor)
  = Return (store fs filename (blob_on_tape self data entropy cursor),
            Tape entropy (cursor + 16 + 16)).
Proof.
  intros Hw Hd. unfold SLE.generate_file.
  rewrite encrypt_on_tape. cbn [lift obind].
  rewrite write_bytes_ok by assumption. reflexivity.
Qed.

Lemma generate_file_inv (self : SLE.t) (filename : str) (data : bytes)
      (fs fs' : FileSystem) (src src' : RandomSource) :
  SLE.generate_file self filename data fs src = Return (fs', src') ->
  exists blob,
    SLE.encrypt self data src = Ok (blob, src')
    /\ fs' = store fs filename blob
    /\ wb_error fs filename = None
    /\ entries fs filename <> Some Directory.
Proof.
  unfold SLE.generate_file. intros H.
  destruct (SLE.encrypt self data src) as [[blob src1]|]; [|discriminate].
  cbn [lift obind] in H.
  destruct (write_bytes fs filename blob) as [fs1|] eqn:Ew; [|discriminate].
  cbn [obind] in H. injection H as <- <-.
  apply write_bytes_inv in Ew as (-> & Hw & Hd).
  exists blob. auto.
Qed.

Lemma read_file_store (self : SLE.t) (filename : str) (data : bytes)
      (fs : FileSystem) :
  rb_error fs filename = None ->
  SLE.read_file self filename (store fs filename data) = Return data.
Proof.
  intros H. unfold SLE.read_file, path_exists.
  destruct (entries_store fs filename data) as [-> _]. cbn [negb].
  now apply read_bytes_store.
Qed.

(** X1. What [generate_file] writes, [read_file] reads back byte for byte:
    it is the blob that [encrypt] returned, and [decrypt] recovers the data
    from it. *)
Theorem generate_file_round_trip (self : SLE.t) (filename : str)
        (data : bytes) (fs : FileSystem)
        (entropy : nat -> byte) (cursor : nat) :
  wb_error fs filename = None ->
  entries fs filename <> Some Directory ->
  rb_error fs filename = None ->
  exists fs' src' blob,
    SLE.generate_file self filename data fs (Tape entropy cursor)
    = Return (fs', src')
    /\ SLE.encrypt self data (Tape entropy cursor) = Ok (blob, src')
    /\ SLE.read_file self filename fs' = Return blob
    /\ SLE.decrypt self blob = Ok data.
Proof.
  intros Hw Hd Hr.
  exists (store fs filename (blob_on_tape self data entropy cursor)),
    (Tape entropy (cursor + 16 + 16)), (blob_on_tape self data entropy cursor).
  split; [now apply generate_file_ok|].
  split; [apply encrypt_on_tape|].
  split; [now apply read_file_store|].
  now apply decrypt_blob_on_tape.
Qed.

Lemma generate_file_round_trip_witness :
  let filename := str_lit "config.ac.es" in
  let data := bytes_of_string "top secret" in
  exists fs' src' blob,
    SLE.generate_file correct_horse filename data empty_fs zero_tape
    = Return (fs', src')
    /\ SLE.read_file correct_horse filename fs' = Return blob
    /\ SLE.decrypt correct_horse blob = Ok data.
Proof.
  intros filename data.
  assert (Hw : wb_error empty_fs filename = None) by reflexivity.
  assert (Hd : entries empty_fs filename <> Some Directory) by discriminate.
  assert (Hr : rb_error empty_fs filename = None) by reflexivity.
  destruct (generate_file_round_trip correct_horse filename data empty_fs
              (fun _ => x00) 0 Hw Hd Hr)
    as (fs' & src' & blob & Hg & _ & Hrd & Hdec).
  exists fs', src', blob. split; [exact Hg|]. split; [exact Hrd | exact Hdec].
Defined.



(** X3. [read_file] raises [FileNotFoundError] with the message
    ["File not found: "] followed by the path when [os.path.exists] does
    not find the path, and does not open it.  For a path that exists it is
    the [open] and [read] and nothing more: it returns what they return and
    passes their [OSError] on as it is, so a directory gives the error of
    [open], with an errno and the file name, and not the message of a
    missing file. *)
Theorem read_file_missing (self : SLE.t) (filename : str) (fs : FileSystem) :
  (path_exists fs filename = false ->
   SLE.read_file self filename fs
   = Throw (OS (FileNotFoundError (str_lit "File not found: " ++ filename))))
  /\ (path_exists fs filename = true ->
      SLE.read_file self filename fs = read_bytes fs filename)
  /\ (forall content,
        SLE.read_file self filename fs = Return content ->
        path_exists fs filename = true
        /\ read_bytes fs filename = Return content)
  /\ (entries fs filename = Some Directory ->
      exists errno,
        SLE.read_file self filename fs = Throw (OS (Errno errno filename))).
Proof.
  unfold SLE.read_file. split; [|split; [|split]].
  - intros ->. reflexivity.
  - intros ->. reflexivity.
  - intros content H.
    destruct (path_exists fs filename); cbn [negb] in H; [|discriminate].
    split; [reflexivity | exact H].
  - intros H. unfold path_exists, read_bytes. rewrite H. cbn [negb].
    destruct (rb_error fs filename) as [errno|]; eexists; reflexivity.
Qed.

Lemma read_file_missing_witness :
  SLE.read_file correct_horse (str_lit "x") empty_fs
  = Throw (OS (FileNotFoundError (str_lit "File not found: x")))
  /\ SLE.read_file correct_horse (str_lit "x")
       (store empty_fs (str_lit "x") [x01; x02])
     = Return [x01; x02]
  /\ read_bytes (store empty_fs (str_lit "x") [x01; x02]) (str_lit "x")
     = Return [x01; x02]
  /\ exists errno,
       SLE.read_file correct_horse (str_lit "x")
         {| entries := fun _ => Some Directory;
            rb_error := fun _ => None;
            wb_error := fun _ => None |}
       = Throw (OS (Errno errno (str_lit "x"))).
Proof.
  pose proof (read_file_missing correct_horse (str_lit "x") empty_fs)
    as (Hmissing & _).
  pose proof (read_file_missing correct_horse (str_lit "x")
                {| entries := fun _ => Some Directory;
                   rb_error := fun _ => None;
                   wb_error := fun _ => None |})
    as (_ & _ & _ & Hdir).
  pose proof (read_file_missing correct_horse (str_lit "x")
                (store empty_fs (str_lit "x") [x01; x02]))
    as (_ & Hexists & Hreturn & _).
  split; [exact (Hmissing eq_refl)|].
  split; [rewrite (Hexists eq_refl); reflexivity|].
  split; [exact (proj2 (Hreturn [x01; x02] eq_refl))|].
  exact (Hdir eq_refl).
Defined.

(** ** [str.encode()] as the [Cryptokey] class uses it *)

Lemma encode_from_start (i j : nat) (s : str) (b : bytes) :
  encode_from i s = Return b -> encode_from j s = Return b.
Proof.
  intros H. apply (utf8_decode_encode b s j), (encode_from_decode i s b H).
Qed.

Lemma encodable_encode (s : str) (start : nat) :
  encodable s -> exists b, encode_from start s = Return b.
Proof.
  intros H. revert start.
  induction H as [|c s Hc Hs IH]; intros start; cbn [encode_from].
  - eexists. reflexivity.
  - destruct (utf8_char c) as [bc|]; [|contradiction].
    destruct (IH (S start)) as [bs ->]. eexists. reflexivity.
Qed.

Lemma encode_encodable (s : str) (start : nat) (b : bytes) :
  encode_from start s = Return b -> encodable s.
Proof.
  revert start b. induction s as [|c s IH]; intros start b H.
  - constructor.
  - cbn [encode_from] in H.
    destruct (utf8_char c) as [bc|] eqn:Ec; [|discriminate].
    destruct (encode_from (S start) s) as [bs|] eqn:Es; [|discriminate].
    constructor; [congruence | eapply IH, Es].
Qed.

(** The error names the index of the first code point that has no
    encoding. *)
Lemma encode_from_first_bad (pre post : str) (c : N) (start : nat) :
  encodable pre -> utf8_char c = None ->
  encode_from start (pre ++ c :: post)
  = Throw (UnicodeEncodeError (start + length pre)).
Proof.
  intros Hpre Hc. revert start.
  induction Hpre as [|x pre Hx Hpre IH]; intros start; cbn [app encode_from].
  - rewrite Hc. cbn [length]. now rewrite Nat.add_0_r.
  - destruct (utf8_char x) as [bx|]; [|contradiction].
    rewrite IH. cbn [obind length]. do 2 f_equal. lia.
Qed.

Lemma scalar_encodable (s : str) :
  wf_str s -> Forall (fun c => is_surrogate c = false) s -> encodable s.
Proof.
  intros Hw Hs. unfold encodable, wf_str in *.
  rewrite Forall_forall in *. intros c Hin E.
  apply utf8_char_none in E as [E|E].
  - specialize (Hs c Hin). congruence.
  - specialize (Hw c Hin). lia.
Qed.

Lemma encode_injective (s s' : str) (b : bytes) :
  encode s = Return b -> encode s' = Return b -> s = s'.
Proof.
  intros H H'. apply encode_from_decode in H, H'. congruence.
Qed.

Lemma decode_encode (s : str) (b : bytes) :
  encode s = Return b -> decode b = Return s.
Proof.
  intros H. unfold decode. now rewrite (encode_from_decode 0 s b H).
Qed.

Lemma encode_decode (s : str) (b : bytes) :
  decode b = Return s -> encode s = Return b.
Proof.
  unfold decode. intros H.
  destruct (utf8_decode b) as [s'|] eqn:E; [|discriminate].
  injection H as <-. now apply utf8_decode_encode.
Qed.

(** ** [Cryptokey] *)

Lemma Cryptokey_init_ok (password toml_code file_name : str) (key : bytes) :
  encode password = Return key ->
  Cryptokey.__init__ password toml_code file_name
  = Return {| Cryptokey.password := password;
              Cryptokey.toml_code := toml_code;
              Cryptokey.file_name := file_name;
              Cryptokey.sle := {| SLE.password := key;
                                  SLE.backend := default_backend |} |}.
Proof.
  intros H. unfold Cryptokey.__init__. rewrite H. reflexivity.
Qed.

(** X4. [Cryptokey(password, toml_code, file_name)] examines the password
    only: it fails with [UnicodeEncodeError], at the index of the first
    surrogate, exactly when the password holds one; otherwise it builds the
    engine on the UTF-8 bytes of the password, from which the password can
    be decoded again, and keeps the other two arguments as given. *)
Theorem Cryptokey_init_password (password toml_code file_name : str) :
  wf_str password ->
  (Forall (fun c => is_surrogate c = false) password ->
   exists self key,
     Cryptokey.__init__ password toml_code file_name = Return self
     /\ encode password = Return key
     /\ SLE.password (Cryptokey.sle self) = key
     /\ decode key = Return password
     /\ Cryptokey.toml_code self = toml_code
     /\ Cryptokey.file_name self = file_name)
  /\ (forall pre c post,
        password = pre ++ c :: post ->
        Forall (fun c => is_surrogate c = false) pre ->
        is_surrogate c = true ->
        Cryptokey.__init__ password toml_code file_name
        = Throw (UnicodeEncodeError (length pre))).
Proof.
  intros Hw. split.
  - intros Hs.
    destruct (encodable_encode password 0 (scalar_encodable _ Hw Hs))
      as [key Hk].
    fold (encode password) in Hk.
    eexists. exists key.
    split; [exact (Cryptokey_init_ok _ _ _ key Hk)|].
    split; [exact Hk|]. split; [reflexivity|].
    split; [now apply decode_encode|]. split; reflexivity.
  - intros pre c post -> Hpre Hc.
    unfold Cryptokey.__init__, encode.
    rewrite encode_from_first_bad.
    + reflexivity.
    + apply scalar_encodable; [|exact Hpre].
      unfold wf_str in *. apply Forall_app in Hw. tauto.
    + apply utf8_char_none. now left.
Qed.

Lemma Cryptokey_init_password_witness :
  (exists self,
      Cryptokey.__init__ [0x70; 0xE9; 0x20AC]%N (str_lit "a = 1")
                         (str_lit "out.ac.es") = Return self
      /\ SLE.password (Cryptokey.sle self) = hex "70c3a9e282ac")
  /\ Cryptokey.__init__ [0x70; 0xDC80; 0x71]%N (str_lit "a = 1")
                        (str_lit "out.ac.es")
     = Throw (UnicodeEncodeError 1).
Proof.
  assert (Hw : wf_str [0x70; 0xE9; 0x20AC]%N)
    by (repeat constructor).
  assert (Hs : Forall (fun c => is_surrogate c = false) [0x70; 0xE9; 0x20AC]%N)
    by (repeat constructor).
  assert (Hw' : wf_str [0x70; 0xDC80; 0x71]%N)
    by (repeat constructor).
  assert (Hpre : Forall (fun c => is_surrogate c = false) [0x70]%N)
    by (repeat constructor).
  split.
  - destruct (proj1 (Cryptokey_init_password [0x70; 0xE9; 0x20AC]%N
                       (str_lit "a = 1") (str_lit "out.ac.es") Hw) Hs)
      as (self & key & Hi & Hk & Hp & _).
    exists self. split; [exact Hi|].
    rewrite Hp. vm_compute in Hk. injection Hk as <-. reflexivity.
  - exact (proj2 (Cryptokey_init_password [0x70; 0xDC80; 0x71]%N
                    (str_lit "a = 1") (str_lit "out.ac.es") Hw')
                 [0x70]%N 0xDC80%N [0x71]%N eq_refl Hpre eq_refl).
Defined.

(** X5. Two passwords give engines with the same byte password only if
    they are the same password: the encoding merges no two strings. *)
Theorem Cryptokey_init_injective (p1 p2 t1 t2 f1 f2 : str)
        (c1 c2 : Cryptokey.t) :
  Cryptokey.__init__ p1 t1 f1 = Return c1 ->
  Cryptokey.__init__ p2 t2 f2 = Return c2 ->
  SLE.password (Cryptokey.sle c1) = SLE.password (Cryptokey.sle c2) ->
  p1 = p2.
Proof.
  unfold Cryptokey.__init__. intros H1 H2 Hp.
  destruct (encode p1) as [k1|] eqn:E1; [|discriminate].
  destruct (encode p2) as [k2|] eqn:E2; [|discriminate].
  cbn in H1, H2. injection H1 as <-. injection H2 as <-.
  cbn [Cryptokey.sle SLE.password] in Hp. subst k2.
  exact (encode_injective p1 p2 k1 E1 E2).
Qed.

Lemma Cryptokey_init_injective_witness :
  exists c1 c2,
    Cryptokey.__init__ (str_lit "pw") [] [] = Return c1
    /\ Cryptokey.__init__ (str_lit "pw") (str_lit "x") (str_lit "y")
       = Return c2
    /\ SLE.password (Cryptokey.sle c1) = SLE.password (Cryptokey.sle c2)
    /\ str_lit "pw" = str_lit "pw".
Proof.
  do 2 eexists.
  assert (H1 : Cryptokey.__init__ (str_lit "pw") [] []
               = Return {| Cryptokey.password := str_lit "pw";
                           Cryptokey.toml_code := [];
                           Cryptokey.file_name := [];
                           Cryptokey.sle :=
                             {| SLE.password := bytes_of_string "pw";
                                SLE.backend := default_backend |} |})
    by reflexivity.
  assert (H2 : Cryptokey.__init__ (str_lit "pw") (str_lit "x") (str_lit "y")
               = Return {| Cryptokey.password := str_lit "pw";
                           Cryptokey.toml_code := str_lit "x";
                           Cryptokey.file_name := str_lit "y";
                           Cryptokey.sle :=
                             {| SLE.password := bytes_of_string "pw";
                                SLE.backend := default_backend |} |})
    by reflexivity.
  split; [exact H1|]. split; [exact H2|]. split; [reflexivity|].
  exact (Cryptokey_init_injective _ _ _ _ _ _ _ _ H1 H2 eq_refl).
Defined.

(** X6. [Cryptokey(password, toml_code, file_name).generate()] writes a
    file from which an engine on the encoded password reads and decrypts
    the UTF-8 bytes of [toml_code], and these decode to [toml_code]
    again. *)
Theorem Cryptokey_generate_round_trip (password toml_code file_name : str)
        (key text : bytes) (fs : FileSystem)
        (entropy : nat -> byte) (cursor : nat) :
  encode password = Return key ->
  encode toml_code = Return text ->
  wb_error fs file_name = None ->
  entries fs file_name <> Some Directory ->
  rb_error fs file_name = None ->
  exists self fs' src' engine blob,
    Cryptokey.__init__ password toml_code file_name = Return self
    /\ Cryptokey.generate self fs (Tape entropy cursor) = Return (fs', src')
    /\ SLE.__init__ (PyBytes key) = Ok engine
    /\ SLE.read_file engine file_name fs' = Return blob
    /\ SLE.decrypt engine blob = Ok text
    /\ decode text = Return toml_code.
Proof.
  intros Hk Ht Hw Hd Hr.
  set (engine := {| SLE.password := key; SLE.backend := default_backend |}).
  eexists. exists (store fs file_name (blob_on_tape engine text entropy cursor)),
    (Tape entropy (cursor + 16 + 16)), engine,
    (blob_on_tape engine text entropy cursor).
  split; [exact (Cryptokey_init_ok _ _ _ key Hk)|].
  split.
  { unfold Cryptokey.generate.
    cbn [Cryptokey.toml_code Cryptokey.sle Cryptokey.file_name].
    rewrite Ht. cbn [obind]. now apply generate_file_ok. }
  split; [reflexivity|].
  split; [now apply read_file_store|].
  split; [now apply decrypt_blob_on_tape|].
  now apply decode_encode.
Qed.

Lemma Cryptokey_generate_round_trip_witness :
  exists self fs' src' engine blob,
    Cryptokey.__init__ (str_lit "correct-horse") (str_lit "a = 1")
                       (str_lit "out.ac.es") = Return self
    /\ Cryptokey.generate self empty_fs zero_tape = Return (fs', src')
    /\ SLE.__init__ (PyBytes (bytes_of_string "correct-horse")) = Ok engine
    /\ SLE.read_file engine (str_lit "out.ac.es") fs' = Return blob
    /\ SLE.decrypt engine blob = Ok (bytes_of_string "a = 1").
Proof.
  destruct (Cryptokey_generate_round_trip (str_lit "correct-horse")
              (str_lit "a = 1") (str_lit "out.ac.es")
              (bytes_of_string "correct-horse") (bytes_of_string "a = 1")
              empty_fs (fun _ => x00) 0 eq_refl eq_refl eq_refl
              ltac:(discriminate) eq_refl)
    as (self & fs' & src' & engine & blob & H1 & H2 & H3 & H4 & H5 & _).
  exists self, fs', src', engine, blob. auto.
Defined.

(** ** [random.choices] and [generate_password] *)

Lemma round_half_even_le (a s : N) :
  (0 < s)%N ->
  (round_half_even a s * 2 ^ s <= a + 2 ^ (s - 1))%N.
Proof.
  intros Hs. unfold round_half_even.
  destruct (N.eqb_spec s 0) as [E|_]; [lia|].
  assert (HP : (2 ^ s = 2 * 2 ^ (s - 1))%N).
  { replace s with (1 + (s - 1))%N at 1 by lia.
    now rewrite N.pow_add_r. }
  assert (Hpos : (2 ^ (s - 1) <> 0)%N) by (apply N.pow_nonzero; lia).
  pose proof (N.div_mod a (2 ^ s)) as Hdm.
  pose proof (N.mod_upper_bound a (2 ^ s)) as Hr.
  set (P := (2 ^ s)%N) in *. set (half := (2 ^ (s - 1))%N) in *.
  set (q := (a / P)%N) in *. set (r := (a mod P)%N) in *.
  assert (HP0 : P <> 0%N) by lia.
  specialize (Hdm HP0). specialize (Hr HP0).
  clearbody P half q r.
  destruct ((half <? r)%N || ((r =? half)%N && N.odd q)) eqn:Hup.
  - assert (Hge : (half <= r)%N).
    { apply orb_true_iff in Hup as [H|H].
      - apply N.ltb_lt in H. lia.
      - apply andb_true_iff in H as [H _]. apply N.eqb_eq in H. lia. }
    nia.
  - nia.
Qed.

(** The index that [choices] computes lies within the population: the
    rounding of the product never reaches [n]. *)
Lemma floor_mul_lt (k n : N) :
  (k < 2 ^ 53)%N -> (0 < n)%N -> (floor_mul k n < n)%N.
Proof.
  intros Hk Hn. unfold floor_mul.
  set (a := (k * n)%N).
  assert (Ha : (a <= (2 ^ 53 - 1) * n)%N)
    by (unfold a; apply N.mul_le_mono_r; lia).
  pose proof (N.size_gt a) as Hgt. pose proof (N.size_le a) as Hle.
  apply N.Div0.div_lt_upper_bound.
  destruct (N.le_gt_cases (N.size a) 53) as [Hs|Hs].
  - replace (N.size a - 53)%N with 0%N by lia.
    unfold round_half_even. cbn [N.eqb]. rewrite N.pow_0_r, N.mul_1_r.
    assert ((2 ^ N.size a <= 2 ^ 53)%N) by (apply N.pow_le_mono_r; lia).
    nia.
  - set (s := (N.size a - 53)%N) in *.
    assert (Hsz : N.size a = (53 + s)%N) by lia.
    assert (Hs0 : (0 < s)%N) by lia.
    pose proof (round_half_even_le a s Hs0) as Hm.
    rewrite Hsz, N.pow_add_r in Hle.
    assert (HP : (2 ^ s = 2 * 2 ^ (s - 1))%N).
    { replace s with (1 + (s - 1))%N at 1 by lia.
      now rewrite N.pow_add_r. }
    rewrite N.succ_double_spec in Hle.
    set (half := (2 ^ (s - 1))%N) in *.
    set (m := (round_half_even a s * 2 ^ s)%N) in *.
    rewrite HP in Hle.
    clearbody m half. clear Hgt HP Hsz.
    change (2 ^ 53)%N with 9007199254740992%N in *.
    lia.
Qed.

Lemma random_lt (g : MersenneTwister) : (fst (random g) < 2 ^ 53)%N.
Proof.
  unfold random, genrand_uint32. cbn [fst outputs taken].
  pose proof (N.mod_upper_bound (outputs g (taken g)) (2 ^ 32)).
  pose proof (N.mod_upper_bound (outputs g (S (taken g))) (2 ^ 32)).
  change (2 ^ 32)%N with 4294967296%N in *.
  change (2 ^ 53)%N with 9007199254740992%N.
  set (w1 := (outputs g (taken g) mod 4294967296)%N) in *.
  set (w2 := (outputs g (S (taken g)) mod 4294967296)%N) in *.
  clearbody w1 w2. dlia.
Qed.

Lemma random_taken (g : MersenneTwister) :
  taken (snd (random g)) = taken g + 2
  /\ outputs (snd (random g)) = outputs g.
Proof.
  unfold random, genrand_uint32. cbn. split; [lia | reflexivity].
Qed.

(** [choices] never indexes outside a non-empty population; it returns [k]
    of its elements and takes two words from the generator for each. *)
Lemma choices_spec (population : str) (k : nat) (g : MersenneTwister) :
  population <> [] ->
  exists picked g',
    choices population k g = Return (picked, g')
    /\ length picked = k
    /\ Forall (fun c => In c population) picked
    /\ taken g' = taken g + 2 * k
    /\ outputs g' = outputs g.
Proof.
  intros Hne. revert g.
  induction k as [|k IH]; intros g; cbn [choices].
  - exists [], g. repeat split; auto; lia.
  - pose proof (random_lt g) as Hx.
    destruct (random_taken g) as [Ht Ho].
    destruct (random g) as [x g1]. cbn [fst snd] in *.
    assert (Hn : (0 < N.of_nat (length population))%N)
      by (destruct population; [contradiction | cbn [length]; lia]).
    pose proof (floor_mul_lt x _ Hx Hn) as Hi.
    destruct (nth_error population
                (N.to_nat (floor_mul x (N.of_nat (length population)))))
      as [c|] eqn:Ec.
    + destruct (IH g1) as (rest & g2 & -> & Hl & Hall & Htk & Hout).
      cbn [obind]. exists (c :: rest), g2.
      split; [reflexivity|]. split; [cbn [length]; lia|].
      split; [|split; [lia | congruence]].
      constructor; [|exact Hall]. eapply nth_error_In, Ec.
    + apply nth_error_None in Ec. lia.
Qed.

(** Settles a property of the characters by going through them. *)
Ltac each_char Hin :=
  vm_compute in Hin;
  repeat (destruct Hin as [Hin|Hin]; [subst; lia|]);
  destruct Hin.

Lemma password_chars_alphanumeric :
  Forall is_alphanumeric (password_chars false).
Proof.
  apply Forall_forall. intros c Hin. unfold is_alphanumeric.
  each_char Hin.
Qed.

Lemma password_chars_printable (include_special : bool) :
  Forall is_password_char (password_chars include_special).
Proof.
  apply Forall_forall. intros c Hin. unfold is_password_char.
  destruct include_special; each_char Hin.
Qed.

(** X7. [generate_password] never fails, whatever the state of the
    generator: it returns exactly [length] characters (none for a length of
    zero or less), each drawn from the letters and digits, or with
    [include_special] from these and the 27 listed signs, so never a space,
    a quote or a backslash, and it takes two words from the generator for
    each character. *)
Theorem generate_password_spec (self : Cryptokey.t) (n : Z)
        (include_special : bool) (g : MersenneTwister) :
  exists password g',
    Cryptokey.generate_password self n include_special g
    = Return (password, g')
    /\ length password = Z.to_nat n
    /\ Forall (fun c => In c (password_chars include_special)) password
    /\ Forall is_password_char password
    /\ (include_special = false -> Forall is_alphanumeric password)
    /\ taken g' = taken g + 2 * Z.to_nat n.
Proof.
  assert (Hchars : password_chars include_special <> [])
    by (destruct include_special; discriminate).
  destruct (choices_spec (password_chars include_special) (Z.to_nat n) g
              Hchars) as (pw & g' & Hc & Hl & Hall & Ht & _).
  exists pw, g'.
  split.
  { unfold Cryptokey.generate_password. rewrite <- Hc.
    destruct include_special; reflexivity. }
  split; [exact Hl|]. split; [exact Hall|].
  assert (Hsub : forall P : N -> Prop,
             Forall P (password_chars include_special) -> Forall P pw).
  { intros P HP. rewrite Forall_forall in *. auto. }
  split; [apply Hsub, password_chars_printable|].
  split; [|exact Ht].
  intros ->. apply Hsub, password_chars_alphanumeric.
Qed.

(** ** The extension checks of the command line *)

Lemma str_eqb_app_cancel (x suffix : str) :
  str_eqb (skipn (length (x ++ suffix) - length suffix) (x ++ suffix)) suffix
  = true.
Proof.
  rewrite length_app, Nat.add_sub, skipn_app, Nat.sub_diag, skipn_all.
  cbn [skipn app]. apply str_eqb_refl.
Qed.

Lemma endswith_spec (s suffix : str) :
  endswith s suffix = true <-> exists x, s = x ++ suffix.
Proof.
  unfold endswith. split.
  - intros H. apply andb_true_iff in H as [Hl He].
    apply Nat.leb_le in Hl. apply str_eqb_eq in He.
    exists (firstn (length s - length suffix) s).
    rewrite <- He at 2. symmetry. apply firstn_skipn.
  - intros [x ->]. apply andb_true_iff. split.
    + apply Nat.leb_le. rewrite length_app. lia.
    + apply str_eqb_app_cancel.
Qed.

Lemma rfind_app (c : N) (x y : str) :
  rfind c (x ++ y)
  = match rfind c y with
    | Some i => Some (length x + i)
    | None => rfind c x
    end.
Proof.
  induction x as [|a x IH]; cbn [app rfind length].
  - destruct (rfind c y); reflexivity.
  - rewrite IH. destruct (rfind c y); [reflexivity|].
    destruct (rfind c x); reflexivity.
Qed.

(** The suffix of a name that ends with an extension of the shape
    [".ac" ++ ext], be the rest of the name empty or not, is [ext]. *)
Lemma suffix_of_double_extension (value x ext : str) (i : nat) :
  Path_name value = x ++ ext ->
  rfind 46 ext = Some i -> 0 < i -> i + 1 < length ext ->
  Path_suffix value = skipn i ext.
Proof.
  intros Hn Hr Hi Hl. unfold Path_suffix. rewrite Hn, rfind_app, Hr.
  rewrite length_app.
  replace (0 <? length x + i) with true by (symmetry; apply Nat.ltb_lt; lia).
  replace (length x + i <? length x + length ext - 1) with true
    by (symmetry; apply Nat.ltb_lt; lia).
  cbn [andb].
  rewrite skipn_app, skipn_all2 by lia.
  replace (length x + i - length x) with i by lia. reflexivity.
Qed.

(** X8. [validate_input_extension] accepts a path exactly when its final
    component (empty and ["."] components set aside) ends with
    [".ac.esc"]; the test of the suffix adds nothing.  It returns the value
    as given, and rejects with [BadParameter] otherwise. *)
Theorem validate_input_extension_spec (value : str) :
  (endswith (Path_name value) (str_lit ".ac.esc") = true ->
   validate_input_extension value = Return value)
  /\ (endswith (Path_name value) (str_lit ".ac.esc") = false ->
      validate_input_extension value
      = Throw (BadParameter (str_lit
          "Input file must have a `.ac.esc` extension and contain valid TOML."))).
Proof.
  unfold validate_input_extension. split; intros H; rewrite H.
  - apply endswith_spec in H as [x Hx].
    rewrite (suffix_of_double_extension value x (str_lit ".ac.esc") 3 Hx)
      by (reflexivity || (cbn; lia)).
    reflexivity.
  - cbn [negb]. now rewrite orb_true_r.
Qed.

Lemma validate_input_extension_spec_witness :
  validate_input_extension (str_lit "conf/.ac.esc/.")
  = Return (str_lit "conf/.ac.esc/.")
  /\ validate_input_extension (str_lit "conf.ac.esc/app.esc")
     = Throw (BadParameter (str_lit
         "Input file must have a `.ac.esc` extension and contain valid TOML.")).
Proof.
  split.
  - exact (proj1 (validate_input_extension_spec (str_lit "conf/.ac.esc/."))
                 eq_refl).
  - exact (proj2 (validate_input_extension_spec
                    (str_lit "conf.ac.esc/app.esc")) eq_refl).
Defined.

(** X9. [validate_output_extension] accepts a path exactly when its final
    component ends with [".ac.es"], returns the value as given, and rejects
    with [BadParameter] otherwise. *)
Theorem validate_output_extension_spec (value : str) :
  (endswith (Path_name value) (str_lit ".ac.es") = true ->
   validate_output_extension value = Return value)
  /\ (endswith (Path_name value) (str_lit ".ac.es") = false ->
      validate_output_extension value
      = Throw (BadParameter (str_lit
          "Output file must have a `.ac.es` extension."))).
Proof.
  unfold validate_output_extension. split; intros H; rewrite H.
  - apply endswith_spec in H as [x Hx].
    rewrite (suffix_of_double_extension value x (str_lit ".ac.es") 3 Hx)
      by (reflexivity || (cbn; lia)).
    reflexivity.
  - cbn [negb]. now rewrite orb_true_r.
Qed.

Lemma validate_output_extension_spec_witness :
  validate_output_extension (str_lit "/tmp//out.ac.es/")
  = Return (str_lit "/tmp//out.ac.es/")
  /\ validate_output_extension (str_lit "out.ac.esc")
     = Throw (BadParameter (str_lit
         "Output file must have a `.ac.es` extension.")).
Proof.
  split.
  - exact (proj1 (validate_output_extension_spec (str_lit "/tmp//out.ac.es/"))
                 eq_refl).
  - exact (proj2 (validate_output_extension_spec (str_lit "out.ac.esc"))
                 eq_refl).
Defined.





(** ** The command *)

Lemma translate_newlines_other (c : N) (s : str) :
  c <> 13%N -> translate_newlines (c :: s) = c :: translate_newlines s.
Proof.
  intros H. destruct c as [|p]; [reflexivity|].
  destruct p as [[[[p|p|]|[p|p|]|]|[[p|p|]|[p|p|]|]|]|[[[p|p|]|[p|p|]|]
    |[[p|p|]|[p|p|]|]|]|]; try reflexivity.
  now contradiction H.
Qed.

Lemma translate_newlines_cr (s : str) :
  exists s', translate_newlines (13%N :: s) = 10%N :: translate_newlines s'
             /\ (s' = s \/ s = 10%N :: s').
Proof.
  destruct s as [|c s].
  - exists []. auto.
  - destruct (N.eq_dec c 10) as [->|Hc].
    + exists s. auto.
    + exists (c :: s). split; [|auto].
      cbn [translate_newlines].
      destruct c as [|p]; [reflexivity|].
      destruct p as [[[[p|p|]|[p|p|]|]|[[p|p|]|[p|p|]|]|]|[[[p|p|]|[p|p|]|]
        |[[p|p|]|[p|p|]|]|]|]; try reflexivity.
      now contradiction Hc.
Qed.

(** Without a carriage return there is nothing to translate. *)
Lemma translate_newlines_id (s : str) :
  ~ In 13%N s -> translate_newlines s = s.
Proof.
  induction s as [|c s IH]; intros H; [reflexivity|].
  rewrite translate_newlines_other by (intros ->; apply H; now left).
  rewrite IH; [reflexivity|]. intros Hin. apply H. now right.
Qed.

Lemma translate_newlines_encodable (s : str) :
  encodable s -> encodable (translate_newlines s).
Proof.
  remember (length s) as n eqn:Hn.
  assert (Hlen : length s <= n) by lia. clear Hn.
  revert s Hlen. induction n as [|n IH]; intros s Hlen Hs.
  - destruct s; [constructor | simpl in Hlen; lia].
  - destruct s as [|c s]; [constructor|].
    apply Forall_cons_iff in Hs as [Hc Hs]. cbn [length] in Hlen.
    destruct (N.eq_dec c 13) as [->|Hne].
    + destruct (translate_newlines_cr s) as (s' & -> & [-> | ->]).
      * constructor; [discriminate | apply IH; [lia | exact Hs]].
      * apply Forall_cons_iff in Hs as [_ Hs]. cbn [length] in Hlen.
        constructor; [discriminate | apply IH; [lia | exact Hs]].
    + rewrite translate_newlines_other by assumption.
      constructor; [exact Hc | apply IH; [lia | exact Hs]].
Qed.

Lemma encode_from_in (start : nat) (s : str) (b bc : bytes) (c : N) :
  encode_from start s = Return b -> In c s -> utf8_char c = Some bc ->
  incl bc b.
Proof.
  revert start b. induction s as [|x s IH]; intros start b H Hin Hc;
    [destruct Hin|].
  cbn [encode_from] in H.
  destruct (utf8_char x) as [bx|] eqn:Ex; [|discriminate].
  destruct (encode_from (S start) s) as [bs|] eqn:Es; [|discriminate].
  cbn [obind] in H. injection H as <-.
  destruct Hin as [->|Hin].
  - rewrite Ex in Hc. injection Hc as ->. now apply incl_appl.
  - apply incl_appr. eapply IH; eauto.
Qed.

(** Bytes without a carriage return decode to a text without one. *)
Lemma decode_no_cr (raw : bytes) (text : str) :
  decode raw = Return text -> ~ In x0d raw -> ~ In 13%N text.
Proof.
  intros Hd Hraw Hin. apply encode_decode in Hd.
  apply Hraw.
  apply (encode_from_in 0 text raw [x0d] 13 Hd Hin eq_refl). now left.
Qed.

Lemma decode_encodable (raw : bytes) (text : str) :
  decode raw = Return text -> encodable text.
Proof.
  intros H. apply encode_decode in H. eapply encode_encodable, H.
Qed.

(** What [encrypt] returned, [decrypt] takes back, whatever the random
    source was. *)
Lemma encrypt_then_decrypt (self : SLE.t) (data blob : bytes)
      (src src' : RandomSource) :
  SLE.encrypt self data src = Ok (blob, src') ->
  SLE.decrypt self blob = Ok data.
Proof.
  destruct src as [|entropy cursor]; [discriminate|].
  rewrite encrypt_on_tape. intros H. injection H as <- _.
  now apply decrypt_blob_on_tape.
Qed.

Lemma read_text_inv (fs : FileSystem) (path : str) (text : str) :
  read_text fs path = Return text ->
  exists raw decoded,
    read_bytes fs path = Return raw
    /\ decode raw = Return decoded
    /\ text = translate_newlines decoded.
Proof.
  unfold read_text. intros H.
  destruct (read_bytes fs path) as [raw|] eqn:Er; [|discriminate].
  cbn [obind] in H.
  destruct (decode raw) as [decoded|] eqn:Ed; [|discriminate].
  cbn [obind] in H. injection H as <-.
  exists raw, decoded. auto.
Qed.

(** Step 3, when it does not exit. *)
Lemma cli_encrypt_returns (password toml_code output : str) (w w' : World) :
  cli_encrypt password toml_code output w = (Returns, w') ->
  exists key plain blob src',
    encode password = Return key
    /\ encode toml_code = Return plain
    /\ SLE.encrypt {| SLE.password := key; SLE.backend := default_backend |}
                   plain (urandom_source w) = Ok (blob, src')
    /\ files w' = store (files w) output blob
    /\ stdout w'
       = stdout w ++ [Echo (str_lit "Encryption successful! Output saved to: "
                              ++ output)].
Proof.
  unfold cli_encrypt, Cryptokey.__init__, Cryptokey.generate. intros H.
  destruct (encode password) as [key|] eqn:Ek; [|discriminate].
  cbn [obind lift SLE.__init__ Cryptokey.toml_code Cryptokey.sle
       Cryptokey.file_name] in H.
  destruct (encode toml_code) as [plain|] eqn:Et; [|discriminate].
  cbn [obind] in H.
  destruct (SLE.generate_file _ output plain (files w) (urandom_source w))
    as [[fs src]|] eqn:Eg; [|discriminate].
  apply generate_file_inv in Eg as (blob & He & -> & _ & _).
  injection H as <-.
  exists key, plain, blob, src. repeat split; auto.
Qed.

Lemma ascii_encode (s : str) (start : nat) :
  Forall (fun c => (c < 128)%N) s ->
  encode_from start s = Return (map byte_of_N s).
Proof.
  intros H. revert start.
  induction H as [|c s Hc Hs IH]; intros start; cbn [encode_from map].
  - reflexivity.
  - unfold utf8_char. destruct (N.ltb_spec c 0x80); [|lia].
    rewrite IH. reflexivity.
Qed.

Lemma generate_password_default (self : Cryptokey.t) (g : MersenneTwister) :
  exists generated g',
    Cryptokey.generate_password self 16 true g = Return (generated, g')
    /\ length generated = 16
    /\ Forall is_password_char generated.
Proof.
  destruct (choices_spec (password_chars true) 16 g ltac:(discriminate))
    as (pw & g' & Hc & Hl & Hall & _).
  exists pw, g'. split; [exact Hc|]. split; [exact Hl|].
  pose proof (password_chars_printable true) as HP.
  rewrite Forall_forall in *. auto.
Qed.

Lemma cli_with_text_gen_pass (toml_code output : str) (password : option str)
      (w : World) :
  exists generated g',
    length generated = 16
    /\ Forall is_password_char generated
    /\ cli_with_text toml_code output password true w
       = cli_encrypt generated toml_code output
                     (after_gen_pass generated g' w).
Proof.
  unfold cli_with_text.
  change (Cryptokey.__init__ [] [] [])
    with (Return {| Cryptokey.password := []; Cryptokey.toml_code := [];
                    Cryptokey.file_name := [];
                    Cryptokey.sle := {| SLE.password := [];
                                        SLE.backend := default_backend |} |}).
  cbn [obind].
  destruct (generate_password_default
              {| Cryptokey.password := []; Cryptokey.toml_code := [];
                 Cryptokey.file_name := [];
                 Cryptokey.sle := {| SLE.password := [];
                                     SLE.backend := default_backend |} |}
              (twister w)) as (pw & g' & -> & Hl & HP).
  exists pw, g'. split; [exact Hl|]. split; [exact HP|].
  cbn [obind]. destruct pw; [discriminate Hl | reflexivity].
Qed.

(** X11. With [--gen-pass] a password given with [-p] plays no part: the
    command prints ["Generated Password:"] and sixteen characters drawn
    from the letters, digits and listed signs, and goes on to encrypt under
    these; it never stops for want of a password. *)
Theorem cli_gen_pass (tomli_loads : str -> bool) (input output : str)
        (password : option str) (w : World) (toml_code : str) :
  read_text (files w) input = Return toml_code ->
  tomli_loads toml_code = true ->
  exists generated g',
    length generated = 16
    /\ Forall is_password_char generated
    /\ cli tomli_loads input output password true w
       = cli_encrypt generated toml_code output
                     (after_gen_pass generated g' w)
    /\ cli tomli_loads input output password true w
       = cli tomli_loads input output None true w.
Proof.
  intros Hr Ht.
  destruct (cli_with_text_gen_pass toml_code output password w)
    as (pw & g' & Hl & HP & Hc).
  exists pw, g'. split; [exact Hl|]. split; [exact HP|].
  unfold cli. rewrite Hr, Ht. split; [exact Hc | reflexivity].
Qed.

Lemma cli_gen_pass_witness :
  let w := world_with (str_lit "app.ac.esc") (bytes_of_string "a = 1") in
  exists generated : str,
    length generated = 16
    /\ cli (fun _ => true) (str_lit "app.ac.esc") (str_lit "app.ac.es")
           (Some (str_lit "mine")) true w
       = cli (fun _ => true) (str_lit "app.ac.esc") (str_lit "app.ac.es")
             None true w.
Proof.
  intros w.
  destruct (cli_gen_pass (fun _ => true) (str_lit "app.ac.esc")
              (str_lit "app.ac.es") (Some (str_lit "mine")) w
              (str_lit "a = 1") eq_refl eq_refl)
    as (generated & g' & Hl & _ & _ & He).
  exists generated. split; [exact Hl | exact He].
Defined.

Lemma cli_given_password (tomli_loads : str -> bool) (input output : str)
      (c : N) (p : str) (w : World) (toml_code : str) :
  read_text (files w) input = Return toml_code ->
  tomli_loads toml_code = true ->
  cli tomli_loads input output (Some (c :: p)) false w
  = cli_encrypt (c :: p) toml_code output w.
Proof.
  intros Hr Ht. unfold cli. rewrite Hr, Ht. reflexivity.
Qed.

Lemma cli_encrypt_ok (password toml_code output : str) (key plain : bytes)
      (w : World) (entropy : nat -> byte) (cursor : nat) :
  encode password = Return key ->
  encode toml_code = Return plain ->
  urandom_source w = Tape entropy cursor ->
  wb_error (files w) output = None ->
  entries (files w) output <> Some Directory ->
  cli_encrypt password toml_code output w
  = (Returns,
     echo (Echo (str_lit "Encryption successful! Output saved to: "
                   ++ output))
       {| files := store (files w) output
                     (blob_on_tape
                        {| SLE.password := key;
                           SLE.backend := default_backend |}
                        plain entropy cursor);
          twister := twister w;
          urandom_source := Tape entropy (cursor + 16 + 16);
          stdout := stdout w |}).
Proof.
  intros Hk Hp Hs Hw Hd. unfold cli_encrypt.
  rewrite (Cryptokey_init_ok _ _ _ key Hk). cbn [obind].
  unfold Cryptokey.generate.
  cbn [Cryptokey.toml_code Cryptokey.sle Cryptokey.file_name].
  rewrite Hp, Hs. cbn [obind].
  rewrite generate_file_ok by assumption. reflexivity.
Qed.

(** X12. When the command returns, the output file holds a blob that an
    engine on the password (the one given, or the one generated and
    printed) decrypts to the UTF-8 bytes of the text read from the input:
    the input file's own bytes when these hold no carriage return, and
    otherwise the same with every ["\r\n"] and ["\r"] turned into
    ["\n"]. *)
Theorem cli_success (tomli_loads : str -> bool) (input output : str)
        (password : option str) (gen_pass : bool) (w w' : World) :
  cli tomli_loads input output password gen_pass w = (Returns, w') ->
  rb_error (files w) output = None ->
  exists raw decoded used key engine blob plain,
    read_bytes (files w) input = Return raw
    /\ decode raw = Return decoded
    /\ tomli_loads (translate_newlines decoded) = true
    /\ used <> []
    /\ (gen_pass = false -> password = Some used)
    /\ (gen_pass = true -> In (Echo used) (stdout w'))
    /\ encode used = Return key
    /\ SLE.__init__ (PyBytes key) = Ok engine
    /\ SLE.read_file engine output (files w') = Return blob
    /\ SLE.decrypt engine blob = Ok plain
    /\ decode plain = Return (translate_newlines decoded)
    /\ (~ In x0d raw -> plain = raw).
Proof.
  intros H Hrb. unfold cli in H.
  destruct (read_text (files w) input) as [text|e] eqn:Er;
    [|destruct e; discriminate H].
  destruct (read_text_inv _ _ _ Er) as (raw & decoded & Hraw & Hdec & ->).
  destruct (tomli_loads (translate_newlines decoded)) eqn:Ht;
    [|discriminate H].
  assert (Hstep : exists used w1,
             used <> []
             /\ (gen_pass = false -> password = Some used)
             /\ (gen_pass = true -> In (Echo used) (stdout w1))
             /\ files w1 = files w
             /\ cli_encrypt used (translate_newlines decoded) output w1
                = (Returns, w')).
  { destruct gen_pass.
    - destruct (cli_with_text_gen_pass (translate_newlines decoded) output
                  password w) as (pw & g' & Hl & _ & Hc).
      rewrite Hc in H. exists pw, (after_gen_pass pw g' w).
      split; [intros ->; discriminate Hl|].
      split; [discriminate|].
      split; [intros _; cbn; apply in_or_app; right; now left|].
      split; [reflexivity | exact H].
    - unfold cli_with_text in H.
      destruct password as [[|c p]|]; try discriminate H.
      exists (c :: p), w.
      split; [discriminate|]. split; [reflexivity|].
      split; [discriminate|]. split; [reflexivity | exact H]. }
  destruct Hstep as (used & w1 & Hne & Hgiven & Hprinted & Hfiles & Henc).
  destruct (cli_encrypt_returns _ _ _ _ _ Henc)
    as (key & plain & blob & src' & Hk & Hp & He & Hf & Hout).
  exists raw, decoded, used, key,
    {| SLE.password := key; SLE.backend := default_backend |}, blob, plain.
  split; [exact Hraw|]. split; [exact Hdec|]. split; [exact Ht|].
  split; [exact Hne|]. split; [exact Hgiven|].
  split.
  { intros Hg. rewrite Hout. apply in_or_app. left. now apply Hprinted. }
  split; [exact Hk|]. split; [reflexivity|].
  split.
  { rewrite Hf, Hfiles. now apply read_file_store. }
  split; [eapply encrypt_then_decrypt, He|].
  split; [now apply decode_encode|].
  intros Hcr.
  rewrite (translate_newlines_id decoded (decode_no_cr _ _ Hdec Hcr)) in Hp.
  apply encode_decode in Hdec. congruence.
Qed.

Lemma cli_success_witness :
  let w := world_with (str_lit "app.ac.esc") (bytes_of_string "a = 1") in
  exists w' key engine blob plain,
    cli (fun _ => true) (str_lit "app.ac.esc") (str_lit "app.ac.es")
        (Some (str_lit "correct-horse")) false w = (Returns, w')
    /\ encode (str_lit "correct-horse") = Return key
    /\ SLE.__init__ (PyBytes key) = Ok engine
    /\ SLE.read_file engine (str_lit "app.ac.es") (files w') = Return blob
    /\ SLE.decrypt engine blob = Ok plain
    /\ decode plain = Return (str_lit "a = 1").
Proof.
  intros w.
  set (blob := blob_on_tape correct_horse (bytes_of_string "a = 1")
                 (fun _ => x00) 0).
  set (w' := echo (Echo (str_lit "Encryption successful! Output saved to: "
                           ++ str_lit "app.ac.es"))
               {| files := store (files w) (str_lit "app.ac.es") blob;
                  twister := twister w;
                  urandom_source := Tape (fun _ => x00) (0 + 16 + 16);
                  stdout := stdout w |}).
  assert (Hrun : cli (fun _ => true) (str_lit "app.ac.esc")
                     (str_lit "app.ac.es") (Some (str_lit "correct-horse"))
                     false w = (Returns, w')).
  { change (str_lit "correct-horse") with (99%N :: str_lit "orrect-horse").
    rewrite (cli_given_password (fun _ => true) (str_lit "app.ac.esc")
               (str_lit "app.ac.es") 99%N (str_lit "orrect-horse") w
               (str_lit "a = 1") eq_refl eq_refl).
    apply (cli_encrypt_ok _ _ _ (bytes_of_string "correct-horse")
             (bytes_of_string "a = 1") w (fun _ => x00) 0);
      reflexivity || discriminate. }
  destruct (cli_success _ _ _ _ _ _ _ Hrun eq_refl)
    as (raw & decoded & used & key & engine & blob' & plain
        & Hraw & Hdec & _ & _ & Hgiven & _ & Hk & Hi & Hrd & Hdc & Hpl & _).
  exists w', key, engine, blob', plain.
  split; [exact Hrun|].
  specialize (Hgiven eq_refl). apply some_inj in Hgiven. subst used.
  split; [exact Hk|]. split; [exact Hi|]. split; [exact Hrd|].
  split; [exact Hdc|].
  assert (Hr : Return (bytes_of_string "a = 1") = Return raw)
    by exact Hraw.
  injection Hr as <-.
  assert (Hd : Return (str_lit "a = 1") = Return decoded) by exact Hdec.
  injection Hd as <-. exact Hpl.
Defined.

(** X13. Without [--gen-pass], a missing or empty password stops the
    command after the input has been read and parsed: it prints that a
    password is required and exits with status 1, and has neither drawn
    random bytes nor touched a file.  So the engine never gets an empty
    password from the command line. *)
Theorem cli_password_required (tomli_loads : str -> bool)
        (input output : str) (password : option str) (w : World)
        (toml_code : str) :
  read_text (files w) input = Return toml_code ->
  tomli_loads toml_code = true ->
  password = None \/ password = Some [] ->
  cli tomli_loads input output password false w
  = (SysExit 1, echo password_required w).
Proof.
  intros Hr Ht Hp. unfold cli. rewrite Hr, Ht.
  destruct Hp as [-> | ->]; reflexivity.
Qed.

Lemma cli_password_required_witness :
  let w := world_with (str_lit "app.ac.esc") (bytes_of_string "a = 1") in
  cli (fun _ => true) (str_lit "app.ac.esc") (str_lit "app.ac.es")
      (Some []) false w
  = (SysExit 1, echo password_required w)
  /\ cli (fun _ => true) (str_lit "app.ac.esc") (str_lit "app.ac.es")
         None false w
     = (SysExit 1, echo password_required w).
Proof.
  intros w. split.
  - exact (cli_password_required (fun _ => true) (str_lit "app.ac.esc")
             (str_lit "app.ac.es") (Some []) w (str_lit "a = 1")
             eq_refl eq_refl (or_intror eq_refl)).
  - exact (cli_password_required (fun _ => true) (str_lit "app.ac.esc")
             (str_lit "app.ac.es") None w (str_lit "a = 1")
             eq_refl eq_refl (or_introl eq_refl)).
Defined.

(** X14. An input that cannot be opened, or that [tomli] rejects, is
    reported in two lines and ends the command with status 1; an input that
    is not UTF-8 is not: the [UnicodeDecodeError] leaves the command
    uncaught, with nothing printed.  In all three cases nothing else
    happens: no password is generated, no file written. *)
Theorem cli_input_failures (tomli_loads : str -> bool) (input output : str)
        (password : option str) (gen_pass : bool) (w : World) :
  (forall e,
      read_bytes (files w) input = Throw (OS e) ->
      cli tomli_loads input output password gen_pass w
      = (SysExit 1, echo (EchoDetails (OS e)) (echo read_or_parse_failed w)))
  /\ (forall raw,
        read_bytes (files w) input = Return raw ->
        utf8_decode raw = None ->
        cli tomli_loads input output password gen_pass w
        = (Uncaught UnicodeDecodeError, w))
  /\ (forall toml_code,
        read_text (files w) input = Return toml_code ->
        tomli_loads toml_code = false ->
        cli tomli_loads input output password gen_pass w
        = (SysExit 1,
           echo (EchoDetails TOMLDecodeError) (echo read_or_parse_failed w))).
Proof.
  split; [|split].
  - intros e H. unfold cli, read_text. rewrite H. reflexivity.
  - intros raw H1 H2. unfold cli, read_text, decode.
    rewrite H1. cbn [obind]. rewrite H2. reflexivity.
  - intros toml_code H1 H2. unfold cli. rewrite H1, H2. reflexivity.
Qed.

Lemma cli_input_failures_witness :
  let w := world_with (str_lit "app.ac.esc") [xff; xfe] in
  cli (fun _ => true) (str_lit "missing.ac.esc") (str_lit "app.ac.es")
      None true w
  = (SysExit 1,
     echo (EchoDetails (OS (Errno 2 (str_lit "missing.ac.esc"))))
          (echo read_or_parse_failed w))
  /\ cli (fun _ => true) (str_lit "app.ac.esc") (str_lit "app.ac.es")
         None true w
     = (Uncaught UnicodeDecodeError, w)
  /\ cli (fun _ => false) (str_lit "b.ac.esc") (str_lit "app.ac.es")
         None true (world_with (str_lit "b.ac.esc") (bytes_of_string "= 1"))
     = (SysExit 1,
        echo (EchoDetails TOMLDecodeError)
             (echo read_or_parse_failed
                (world_with (str_lit "b.ac.esc") (bytes_of_string "= 1")))).
Proof.
  intros w. split; [|split].
  - exact (proj1 (cli_input_failures (fun _ => true)
                    (str_lit "missing.ac.esc") (str_lit "app.ac.es")
                    None true w)
                 (Errno 2 (str_lit "missing.ac.esc")) eq_refl).
  - exact (proj1 (proj2 (cli_input_failures (fun _ => true)
                           (str_lit "app.ac.esc") (str_lit "app.ac.es")
                           None true w))
                 [xff; xfe] eq_refl eq_refl).
  - exact (proj2 (proj2 (cli_input_failures (fun _ => false)
                           (str_lit "b.ac.esc") (str_lit "app.ac.es")
                           None true
                           (world_with (str_lit "b.ac.esc")
                                       (bytes_of_string "= 1"))))
                 (str_lit "= 1") eq_refl eq_refl).
Defined.

(** X15. A password that cannot be encoded (a surrogate, as an undecodable
    byte of the command line becomes one) and a missing random source both
    end step 3 with the two lines of ["Encryption failed"] and status 1,
    before any file is opened for writing. *)
Theorem cli_encrypt_failures (password toml_code output : str) (w : World) :
  (forall start,
      encode password = Throw (UnicodeEncodeError start) ->
      cli_encrypt password toml_code output w
      = (SysExit 1,
         echo (EchoDetails (UnicodeEncodeError start))
           (echo (Echo (str_lit
              "Encryption failed due to an unexpected error.")) w)))
  /\ (forall key plain,
        encode password = Return key ->
        encode toml_code = Return plain ->
        urandom_source w = Unavailable ->
        exists message,
          cli_encrypt password toml_code output w
          = (SysExit 1,
             echo (EchoDetails (Builtin (NotImplementedError message)))
               (echo (Echo (str_lit
                  "Encryption failed due to an unexpected error.")) w))).
Proof.
  split.
  - intros start H. unfold cli_encrypt, Cryptokey.__init__. rewrite H.
    reflexivity.
  - intros key plain Hk Hp Hs. unfold cli_encrypt.
    rewrite (Cryptokey_init_ok _ _ _ key Hk). cbn [obind].
    unfold Cryptokey.generate, SLE.generate_file.
    cbn [Cryptokey.toml_code Cryptokey.sle Cryptokey.file_name].
    rewrite Hp, Hs. eexists. reflexivity.
Qed.

Lemma cli_encrypt_failures_witness :
  let w := world_with (str_lit "app.ac.esc") (bytes_of_string "a = 1") in
  cli_encrypt [0x70; 0xDCFF]%N (str_lit "a = 1") (str_lit "app.ac.es") w
  = (SysExit 1,
     echo (EchoDetails (UnicodeEncodeError 1))
       (echo (Echo (str_lit
          "Encryption failed due to an unexpected error.")) w))
  /\ fst (cli_encrypt (str_lit "pw") (str_lit "a = 1") (str_lit "app.ac.es")
            {| files := files w; twister := twister w;
               urandom_source := Unavailable; stdout := [] |})
     = SysExit 1.
Proof.
  intros w. split.
  - exact (proj1 (cli_encrypt_failures [0x70; 0xDCFF]%N (str_lit "a = 1")
                    (str_lit "app.ac.es") w) 1 eq_refl).
  - destruct (proj2 (cli_encrypt_failures (str_lit "pw") (str_lit "a = 1")
                        (str_lit "app.ac.es")
                        {| files := files w; twister := twister w;
                           urandom_source := Unavailable; stdout := [] |})
                     (bytes_of_string "pw") (bytes_of_string "a = 1")
                     eq_refl eq_refl eq_refl) as [message H].
    rewrite H. reflexivity.
Defined.

(** ** What [decrypt] does not notice *)

Lemma bxor_through (a i d : byte) : bxor (bxor a i) (bxor i d) = bxor a d.
Proof. now rewrite bxor_assoc, bxor_cancel_r. Qed.

Lemma xor_bytes_through (a iv d : bytes) :
  length a = length iv ->
  xor_bytes (xor_bytes a iv) (xor_bytes iv d) = xor_bytes a d.
Proof.
  revert iv d. induction a as [|x a IH]; intros [|i iv] [|y d] H;
    simpl in *; try reflexivity; try discriminate.
  rewrite bxor_through, IH by lia. reflexivity.
Qed.

Lemma xor_bytes_app (a b c d : bytes) :
  length a = length c ->
  xor_bytes (a ++ b) (c ++ d) = xor_bytes a c ++ xor_bytes b d.
Proof.
  revert c. induction a as [|x a IH]; intros [|y c] H; simpl in *;
    try reflexivity; try discriminate.
  rewrite IH by lia. reflexivity.
Qed.

Lemma xor_bytes_zeros (a : bytes) :
  xor_bytes a (repeat x00 (length a)) = a.
Proof.
  induction a as [|x a IH]; simpl; [reflexivity|].
  now rewrite bxor_x00_r, IH.
Qed.

(** A difference applied to the IV comes out, unchanged, in the first block
    of the plaintext; the other blocks do not depend on the IV. *)
Lemma decrypt_blocks_iv (E D : bytes -> bytes) (n : nat)
      (chain delta data : bytes) :
  (forall b, length b = 16 -> D (E b) = b) ->
  (forall b, length b = 16 -> length (E b) = 16) ->
  length chain = 16 -> length data = 16 * S n ->
  fst (ciphers.decrypt_blocks D (S n) (xor_bytes chain delta)
         (fst (ciphers.encrypt_blocks E (S n) chain data)))
  = xor_bytes (firstn 16 data) delta ++ skipn 16 data.
Proof.
  intros HD HE Hc Hd. cbn [ciphers.encrypt_blocks].
  set (c := E (xor_bytes (firstn 16 data) chain)).
  assert (Hx : length (xor_bytes (firstn 16 data) chain) = 16)
    by (rewrite length_xor_bytes, length_firstn; lia).
  assert (Hlen : length c = 16) by now apply HE.
  pose proof (decrypt_encrypt_blocks E D HD HE n c (skipn 16 data) Hlen)
    as Htail.
  destruct (ciphers.encrypt_blocks E n c (skipn 16 data)) as [out ch].
  cbn [fst] in *. cbn [ciphers.decrypt_blocks].
  rewrite firstn_app, skipn_app, Hlen, Nat.sub_diag, firstn_O, skipn_O.
  rewrite firstn_all2, skipn_all2, app_nil_r by lia.
  cbn [app].
  destruct (ciphers.decrypt_blocks D n c out) as [out' ch'].
  cbn [fst] in *.
  unfold c at 1. rewrite HD by assumption.
  rewrite xor_bytes_through by (rewrite length_firstn; lia).
  rewrite Htail by (rewrite length_skipn; lia).
  reflexivity.
Qed.

(** X16. [decrypt] does not notice a change of the last nine bytes of the
    IV: it returns the plaintext with its first nine bytes changed by the
    same differences, for every plaintext of at least nine bytes.  The
    marker guards the first seven bytes of the first block only. *)
Theorem decrypt_iv_malleable (self : SLE.t) (data delta : bytes)
        (entropy : nat -> byte) (cursor : nat) :
  9 <= length data -> length delta = 9 ->
  exists salt iv encrypted src',
    SLE.encrypt self data (Tape entropy cursor)
    = Ok (salt ++ iv ++ encrypted, src')
    /\ length salt = 16 /\ length iv = 16
    /\ SLE.decrypt self
         (salt ++ xor_bytes iv (repeat x00 7 ++ delta) ++ encrypted)
       = Ok (xor_bytes (firstn 9 data) delta ++ skipn 9 data).
Proof.
  intros Hdata Hdelta.
  set (salt := drawn entropy cursor).
  set (iv := drawn entropy (cursor + 16)).
  set (payload := pkcs7_pad (MAGIC_HEADER ++ data)).
  set (tampered := xor_bytes (firstn 9 data) delta ++ skipn 9 data).
  exists salt, iv, (sle_ciphertext (SLE.password self) salt iv payload),
    (Tape entropy (cursor + 16 + 16)).
  assert (Hs : length salt = 16) by apply length_drawn.
  assert (Hi : length iv = 16) by apply length_drawn.
  split; [apply encrypt_tape|]. split; [exact Hs|]. split; [exact Hi|].
  set (iv' := xor_bytes iv (repeat x00 7 ++ delta)).
  assert (Hi' : length iv' = 16).
  { unfold iv'. rewrite length_xor_bytes, Hi, length_app, repeat_length.
    lia. }
  destruct (recover_ciphertext self salt iv (MAGIC_HEADER ++ data) Hs Hi)
    as [_ Hct]. fold payload in Hct.
  assert (Hp : length payload = 16 * S ((7 + length data) / 16)).
  { unfold payload. rewrite length_pkcs7_pad, length_app.
    change (length MAGIC_HEADER) with 7. lia. }
  set (encrypted := sle_ciphertext (SLE.password self) salt iv payload) in *.
  destruct (blob_parts salt iv' encrypted Hs Hi') as (Hl & H1 & H2 & H3).
  rewrite decrypt_recover. unfold recover.
  replace (length (salt ++ iv' ++ encrypted) <? 32) with false
    by (symmetry; apply Nat.ltb_ge; lia).
  rewrite H1, H2, H3.
  rewrite derive_key_16 by assumption. cbn [bind].
  rewrite sle_cipher_ok by assumption. cbn [bind].
  rewrite cbc_decrypt_whole
    by (rewrite Hct, Hp, Nat.mul_comm; apply Nat.Div0.mod_mul).
  cbn [bind sle_cipher ciphers.algorithm ciphers.mode
       modes.initialization_vector].
  set (alg := AES.Algorithm (derived_key (SLE.password self) salt)).
  assert (Halg : AES.AES (derived_key (SLE.password self) salt) = Ok alg)
    by (unfold AES.AES; rewrite length_derived_key; reflexivity).
  assert (Hblocks : length encrypted / 16 = S ((7 + length data) / 16))
    by (rewrite Hct, Hp, Nat.mul_comm, Nat.div_mul; lia).
  rewrite Hblocks.
  assert (Henc : encrypted
                 = fst (ciphers.encrypt_blocks (AES.encrypt_block alg)
                          (S ((7 + length data) / 16)) iv payload)).
  { unfold encrypted, sle_ciphertext. fold alg.
    rewrite Hp, Nat.mul_comm, Nat.div_mul by lia. reflexivity. }
  rewrite Henc. unfold iv'.
  rewrite (decrypt_blocks_iv (AES.encrypt_block alg) (AES.decrypt_block alg));
    try assumption;
    try (intros b Hb; apply (decrypt_encrypt_block _ alg b Halg Hb)).
  assert (Hpay : xor_bytes (firstn 16 payload) (repeat x00 7 ++ delta)
                 ++ skipn 16 payload
                 = pkcs7_pad (MAGIC_HEADER ++ tampered)).
  { unfold payload. rewrite !pkcs7_pad_eq.
    assert (Ht : length tampered = length data).
    { unfold tampered.
      rewrite length_app, length_xor_bytes, length_firstn, length_skipn.
      lia. }
    rewrite !length_app, Ht.
    set (pad := PKCS7.padding _).
    rewrite <- (firstn_skipn 9 data) at 1 2.
    replace ((MAGIC_HEADER ++ firstn 9 data ++ skipn 9 data) ++ pad)
      with ((MAGIC_HEADER ++ firstn 9 data) ++ skipn 9 data ++ pad)
      by now rewrite <- !app_assoc.
    assert (Hh : length (MAGIC_HEADER ++ firstn 9 data) = 16)
      by (rewrite length_app, length_firstn;
          change (length MAGIC_HEADER) with 7; lia).
    rewrite firstn_app, skipn_app, Hh, Nat.sub_diag, firstn_O, skipn_O.
    rewrite firstn_all2, skipn_all2, app_nil_r by lia.
    cbn [app].
    rewrite xor_bytes_app by reflexivity.
    change (repeat x00 7) with (repeat x00 (length MAGIC_HEADER)).
    rewrite xor_bytes_zeros. unfold tampered.
    now rewrite <- !app_assoc. }
  rewrite Hpay, pkcs7_unpad_pad. cbn [bind].
  apply strip_header_marked.
Qed.

Lemma decrypt_iv_malleable_witness :
  exists salt iv encrypted src',
    SLE.encrypt correct_horse (bytes_of_string "pay 100 to bob") zero_tape
    = Ok (salt ++ iv ++ encrypted, src')
    /\ SLE.decrypt correct_horse
         (salt ++ xor_bytes iv (repeat x00 7 ++ hex "000000000800000000")
               ++ encrypted)
       = Ok (bytes_of_string "pay 900 to bob").
Proof.
  destruct (decrypt_iv_malleable correct_horse
              (bytes_of_string "pay 100 to bob") (hex "000000000800000000")
              (fun _ => x00) 0 ltac:(simpl; lia) eq_refl)
    as (salt & iv & encrypted & src' & He & _ & _ & Hd).
  exists salt, iv, encrypted, src'. split; [exact He | exact Hd].
Defined.
